(** * KnowledgeRAG / docgen: the extraction engine of [pkg/docgen/parser.go]

    A shallow embedding of the SQL statement interpreters, the enumeration
    scanner, the metadata engine and the renderer, together with the parts of
    the Go standard library they call ([strings], [unicode/utf8], [unicode],
    [regexp], [sort]).

    Go strings are immutable byte sequences: they are modelled by [string],
    whose characters are the 256 bytes.  Runes are integers ([Z]). *)

From Stdlib Require Import ZArith Ascii String Lia Bool.
From stdpp Require Import base option list sorting gmap strings.

Set Default Proof Using "Type".

(** stdpp keeps [simpl] from unfolding the append of strings; here strings
    are computed with, prefix by prefix. *)
Arguments String.append !_ _ / : simpl nomatch.

(** ** Bytes *)

Definition byte (c : ascii) : Z := Z.of_N (N_of_ascii c).
Definition chr (z : Z) : ascii := ascii_of_N (Z.to_N z).

Definition str1 (c : ascii) : string := String c "".

(** [s[n:]] and [s[:n]] for an index within bounds. *)
Fixpoint sdrop (n : nat) (s : string) : string :=
  match n, s with
  | O, _ => s
  | S k, String _ t => sdrop k t
  | S _, EmptyString => ""
  end.

Fixpoint stake (n : nat) (s : string) : string :=
  match n, s with
  | O, _ => ""
  | S k, String c t => String c (stake k t)
  | S _, EmptyString => ""
  end.

Definition is_empty (s : string) : bool :=
  match s with EmptyString => true | _ => false end.

(** The last byte of a string, when it has one. *)
Fixpoint slast (s : string) : option ascii :=
  match s with
  | EmptyString => None
  | String c EmptyString => Some c
  | String _ t => slast t
  end.

(** ** Package [unicode/utf8] *)

Module utf8.
Local Open Scope Z_scope.

Definition RuneError : Z := 0xFFFD.
Definition RuneSelf : Z := 0x80.
Definition MaxRune : Z := 0x10FFFF.
Definition UTFMax : nat := 4%nat.

(** The table [first] with [acceptRanges] folded in: what a leading byte
    announces. *)
Inductive lead :=
| LeadASCII
| LeadInvalid
| LeadMulti (size : nat) (lo hi : Z).

Definition first (b : Z) : lead :=
  if b <? 0x80 then LeadASCII
  else if b <? 0xC2 then LeadInvalid
  else if b <? 0xE0 then LeadMulti 2%nat 0x80 0xBF
  else if b =? 0xE0 then LeadMulti 3%nat 0xA0 0xBF
  else if b <? 0xED then LeadMulti 3%nat 0x80 0xBF
  else if b =? 0xED then LeadMulti 3%nat 0x80 0x9F
  else if b <? 0xF0 then LeadMulti 3%nat 0x80 0xBF
  else if b =? 0xF0 then LeadMulti 4%nat 0x90 0xBF
  else if b <? 0xF4 then LeadMulti 4%nat 0x80 0xBF
  else if b =? 0xF4 then LeadMulti 4%nat 0x80 0x8F
  else LeadInvalid.

Definition cont (b : Z) : bool := (0x80 <=? b) && (b <=? 0xBF).

Definition DecodeRuneInString (s : string) : (Z * nat)%type :=
  match s with
  | EmptyString => (RuneError, 0%nat)
  | String c0 t =>
    let s0 := byte c0 in
    match first s0 with
    | LeadASCII => (s0, 1%nat)
    | LeadInvalid => (RuneError, 1%nat)
    | LeadMulti sz lo hi =>
      if (String.length s <? sz)%nat then (RuneError, 1%nat) else
      match t with
      | EmptyString => (RuneError, 1%nat)
      | String c1 t1 =>
        let s1 := byte c1 in
        if (s1 <? lo)%Z || (hi <? s1)%Z then (RuneError, 1%nat)
        else if (sz <=? 2)%nat then
          (Z.lor (Z.shiftl (Z.land s0 0x1F) 6) (Z.land s1 0x3F), 2%nat)
        else
          match t1 with
          | EmptyString => (RuneError, 1%nat)
          | String c2 t2 =>
            let s2 := byte c2 in
            if negb (cont s2) then (RuneError, 1%nat)
            else if (sz <=? 3)%nat then
              (Z.lor (Z.lor (Z.shiftl (Z.land s0 0x0F) 12)
                            (Z.shiftl (Z.land s1 0x3F) 6))
                     (Z.land s2 0x3F), 3%nat)
            else
              match t2 with
              | EmptyString => (RuneError, 1%nat)
              | String c3 _ =>
                let s3 := byte c3 in
                if negb (cont s3) then (RuneError, 1%nat)
                else
                  (Z.lor (Z.lor (Z.lor (Z.shiftl (Z.land s0 0x07) 18)
                                       (Z.shiftl (Z.land s1 0x3F) 12))
                                (Z.shiftl (Z.land s2 0x3F) 6))
                         (Z.land s3 0x3F), 4%nat)
              end
          end
      end
    end
  end.

Definition RuneStart (b : Z) : bool := negb (Z.land b 0xC0 =? 0x80)%Z.

(** Where [DecodeLastRuneInString] starts decoding: the nearest rune start
    among the (at most three) bytes before the last one, else one byte
    before the limit, floored at 0. *)
Definition lastStart (s : string) : nat :=
  let n := String.length s in
  let isStart (k : nat) :=
    (k <=? n)%nat && match String.get (n - k)%nat s with
                     | Some c => RuneStart (byte c)
                     | None => false
                     end in
  (if isStart 2%nat then n - 2
   else if isStart 3%nat then n - 3
   else if isStart 4%nat then n - 4
   else n - 5)%nat.

Definition DecodeLastRuneInString (s : string) : (Z * nat)%type :=
  match slast s with
  | None => (RuneError, 0%nat)
  | Some c =>
    if (byte c <? RuneSelf)%Z then (byte c, 1%nat)
    else
      let start := lastStart s in
      let '(r, size) := DecodeRuneInString (sdrop start s) in
      if (start + size =? String.length s)%nat then (r, size) else (RuneError, 1%nat)
  end.

(** [for ... range s]: the runes of [s] with the bytes each one spans.
    [skip] counts the bytes of the current rune still to pass. *)
Fixpoint runes_from (skip : nat) (s : string) : list (Z * nat)%type :=
  match s with
  | EmptyString => []
  | String _ t =>
    match skip with
    | S k => runes_from k t
    | O => let rw := DecodeRuneInString s in rw :: runes_from (snd rw - 1)%nat t
    end
  end.
Definition runes (s : string) : list (Z * nat)%type := runes_from 0%nat s.

Fixpoint valid_from (skip : nat) (s : string) : bool :=
  match s with
  | EmptyString => true
  | String _ t =>
    match skip with
    | S k => valid_from k t
    | O =>
      let rw := DecodeRuneInString s in
      if (fst rw =? RuneError)%Z && (snd rw =? 1)%nat then false
      else valid_from (snd rw - 1)%nat t
    end
  end.
Definition ValidString (s : string) : bool := valid_from 0%nat s.

(** [utf8.AppendRune] / the conversion [string(r)]. *)
Definition enc3 (r : Z) : string :=
  String (chr (Z.lor 0xE0 (Z.shiftr r 12)))
    (String (chr (Z.lor 0x80 (Z.land (Z.shiftr r 6) 0x3F)))
      (String (chr (Z.lor 0x80 (Z.land r 0x3F))) "")).

Definition EncodeRune (r : Z) : string :=
  if (0 <=? r)%Z && (r <=? 0x7F)%Z then str1 (chr r)
  else if (0 <=? r)%Z && (r <=? 0x7FF)%Z then
    String (chr (Z.lor 0xC0 (Z.shiftr r 6)))
      (String (chr (Z.lor 0x80 (Z.land r 0x3F))) "")
  else if (r <? 0)%Z || (MaxRune <? r)%Z
          || ((0xD800 <=? r)%Z && (r <=? 0xDFFF)%Z) then enc3 RuneError
  else if (r <=? 0xFFFF)%Z then enc3 r
  else
    String (chr (Z.lor 0xF0 (Z.shiftr r 18)))
      (String (chr (Z.lor 0x80 (Z.land (Z.shiftr r 12) 0x3F)))
        (String (chr (Z.lor 0x80 (Z.land (Z.shiftr r 6) 0x3F)))
          (String (chr (Z.lor 0x80 (Z.land r 0x3F))) ""))).

End utf8.

(** ** Package [unicode] *)

(** The case tables of [unicode] beyond ASCII and Latin-1 are data of the Go
    distribution; the development is parametric in them. *)
Class UnicodeTables := {
  To_UpperCase : Z → Z;          (* unicode.To(unicode.UpperCase, r), r > MaxASCII *)
  To_LowerCase : Z → Z;          (* unicode.To(unicode.LowerCase, r), r > MaxASCII *)
  Upper_excludingLatin : Z → bool (* isExcludingLatin(unicode.Upper, r), r > MaxLatin1 *)
}.

Module unicode.
Local Open Scope Z_scope.

Definition MaxASCII : Z := 0x7F.
Definition MaxLatin1 : Z := 0xFF.

Definition IsSpace (r : Z) : bool :=
  if (0 <=? r)%Z && (r <=? MaxLatin1)%Z then
    ((0x09 <=? r)%Z && (r <=? 0x0D)%Z) || (r =? 0x20)%Z
    || (r =? 0x85)%Z || (r =? 0xA0)%Z
  else
    (r =? 0x1680)%Z || ((0x2000 <=? r)%Z && (r <=? 0x200A)%Z)
    || (r =? 0x2028)%Z || (r =? 0x2029)%Z || (r =? 0x202F)%Z
    || (r =? 0x205F)%Z || (r =? 0x3000)%Z.

Definition IsUpper `{UnicodeTables} (r : Z) : bool :=
  if (0 <=? r)%Z && (r <=? MaxLatin1)%Z then
    ((0x41 <=? r)%Z && (r <=? 0x5A)%Z)
    || ((0xC0 <=? r)%Z && (r <=? 0xD6)%Z)
    || ((0xD8 <=? r)%Z && (r <=? 0xDE)%Z)
  else Upper_excludingLatin r.

Definition ToUpper `{UnicodeTables} (r : Z) : Z :=
  if (r <=? MaxASCII)%Z then
    (if (0x61 <=? r)%Z && (r <=? 0x7A)%Z then r - 32 else r)%Z
  else To_UpperCase r.

Definition ToLower `{UnicodeTables} (r : Z) : Z :=
  if (r <=? MaxASCII)%Z then
    (if (0x41 <=? r)%Z && (r <=? 0x5A)%Z then r + 32 else r)%Z
  else To_LowerCase r.

End unicode.

(** ** Package [strings] *)

Module strings.

Fixpoint HasPrefix (s prefix : string) {struct prefix} : bool :=
  match prefix, s with
  | EmptyString, _ => true
  | String p prefix', String c s' => if ascii_dec c p then HasPrefix s' prefix' else false
  | String _ _, EmptyString => false
  end.

Definition HasSuffix (s suffix : string) : bool :=
  (String.length suffix <=? String.length s)
  && String.eqb (sdrop (String.length s - String.length suffix) s) suffix.

Definition TrimPrefix (s prefix : string) : string :=
  if HasPrefix s prefix then sdrop (String.length prefix) s else s.

(** [strings.Index]: the byte offset of the first occurrence, [None] for
    Go's -1. *)
Fixpoint Index (s substr : string) : option nat :=
  if HasPrefix s substr then Some 0
  else match s with
       | EmptyString => None
       | String _ t => S <$> Index t substr
       end.

Definition Contains (s substr : string) : bool := bool_decide (is_Some (Index s substr)).

(** [strings.Split(s, sep)] for a non-empty [sep].  [skip] counts the bytes
    of a separator just recognised that are still to pass; [cur] is the
    piece being read. *)
Fixpoint split_from (sep : string) (skip : nat) (cur : string) (s : string) : list string :=
  match s with
  | EmptyString => [cur]
  | String c t =>
    match skip with
    | S k => split_from sep k cur t
    | O =>
      if HasPrefix s sep then cur :: split_from sep (String.length sep - 1) "" t
      else split_from sep 0 (cur +:+ str1 c) t
    end
  end.
Definition Split (s sep : string) : list string := split_from sep 0 "" s.

(** [strings.Trim(s, cutset)] for a cutset of ASCII bytes (the only kind
    the program passes): byte-wise on both ends. *)
Fixpoint inSet (cutset : string) (c : ascii) : bool :=
  match cutset with
  | EmptyString => false
  | String d cutset' => if ascii_dec c d then true else inSet cutset' c
  end.

Fixpoint trimLeftBytes (p : ascii → bool) (s : string) : string :=
  match s with
  | EmptyString => ""
  | String c t => if p c then trimLeftBytes p t else s
  end.

Fixpoint trimRightBytes (p : ascii → bool) (s : string) : string :=
  match s with
  | EmptyString => ""
  | String c t =>
    let t' := trimRightBytes p t in
    if is_empty t' && p c then "" else String c t'
  end.

Definition Trim (s cutset : string) : string :=
  trimLeftBytes (inSet cutset) (trimRightBytes (inSet cutset) s).

(** [strings.TrimLeftFunc(s, f)] over the runes of [s]. *)
Fixpoint trimLeft_from (f : Z → bool) (skip : nat) (s : string) : string :=
  match s with
  | EmptyString => ""
  | String _ t =>
    match skip with
    | S k => trimLeft_from f k t
    | O =>
      let rw := utf8.DecodeRuneInString s in
      if f (fst rw) then trimLeft_from f (snd rw - 1) t else s
    end
  end.
Definition TrimLeftFunc (s : string) (f : Z → bool) : string := trimLeft_from f 0 s.

(** [strings.TrimRightFunc(s, f)]: runes are taken off the end, each found
    by [DecodeLastRuneInString], while [f] holds. *)
Fixpoint trimRight_loop (f : Z → bool) (fuel : nat) (s : string) : string :=
  match fuel with
  | O => s
  | S fuel' =>
    if is_empty s then s
    else
      let rw := utf8.DecodeLastRuneInString s in
      if f (fst rw) then trimRight_loop f fuel' (stake (String.length s - snd rw) s)
      else s
  end.
Definition TrimRightFunc (s : string) (f : Z → bool) : string :=
  trimRight_loop f (String.length s) s.

Definition TrimSpace (s : string) : string :=
  TrimRightFunc (TrimLeftFunc s unicode.IsSpace) unicode.IsSpace.

(** [strings.FieldsFunc(s, f)]; [cur] is the field being read, if any. *)
Fixpoint fields_from (f : Z → bool) (skip : nat) (cur : option string) (s : string)
  : list string :=
  match s with
  | EmptyString => option_list cur
  | String c t =>
    match skip with
    | S k => fields_from f k ((λ w, w +:+ str1 c) <$> cur) t
    | O =>
      let rw := utf8.DecodeRuneInString s in
      if f (fst rw) then option_list cur ++ fields_from f (snd rw - 1) None t
      else fields_from f (snd rw - 1) (Some (default "" cur +:+ str1 c)) t
    end
  end.
Definition Fields (s : string) : list string := fields_from unicode.IsSpace 0 None s.

(** [strings.Map(mapping, s)]: every rune is re-encoded after mapping
    (an invalid byte reads as [RuneError]); a negative result drops it. *)
Fixpoint map_from (mapping : Z → Z) (skip : nat) (s : string) : string :=
  match s with
  | EmptyString => ""
  | String _ t =>
    match skip with
    | S k => map_from mapping k t
    | O =>
      let rw := utf8.DecodeRuneInString s in
      let r := mapping (fst rw) in
      (if (r <? 0)%Z then "" else utf8.EncodeRune r)
        +:+ map_from mapping (snd rw - 1) t
    end
  end.
Definition Map (mapping : Z → Z) (s : string) : string := map_from mapping 0 s.

Definition ToUpper `{UnicodeTables} (s : string) : string := Map unicode.ToUpper s.
Definition ToLower `{UnicodeTables} (s : string) : string := Map unicode.ToLower s.

(** [strings.Replace(s, old, new, 1)]. *)
Definition ReplaceFirst (s old new : string) : string :=
  match Index s old with
  | Some i => stake i s +:+ new +:+ sdrop (i + String.length old) s
  | None => s
  end.

(** [strings.ReplaceAll(s, old, new)] for a non-empty [old]. *)
Fixpoint replaceAll_from (old new : string) (skip : nat) (s : string) : string :=
  match s with
  | EmptyString => ""
  | String c t =>
    match skip with
    | S k => replaceAll_from old new k t
    | O =>
      if HasPrefix s old then new +:+ replaceAll_from old new (String.length old - 1) t
      else String c (replaceAll_from old new 0 t)
    end
  end.
Definition ReplaceAll (s old new : string) : string := replaceAll_from old new 0 s.

Fixpoint Join (elems : list string) (sep : string) : string :=
  match elems with
  | [] => ""
  | [e] => e
  | e :: rest => e +:+ sep +:+ Join rest sep
  end.

End strings.

(** ** Package [sort] *)

(** [sort.Strings] orders by byte-wise comparison, which is [String.le].  The
    order is total and antisymmetric, so the sorted arrangement of a list is
    unique and any sorting algorithm computes it. *)
Module sort.
Definition Strings (l : list string) : list string := merge_sort String.le l.
End sort.


(** ** Package [regexp]

    The fragment of RE2 syntax the program's patterns use, with Go's
    leftmost-first semantics: the match reported is the one a backtracking
    search finds first.  Every repetition in the patterns is over a single
    character class, which is what [Star] offers.

    Go matches runes; this matcher reads bytes.  The two agree on the
    patterns below: each class is a set of ASCII characters or the complement
    of one, so a maximal run of a complement class ends at the same ASCII byte
    either way, and whatever follows a class in a pattern starts with an ASCII
    character, which no byte inside a multi-byte rune equals. *)

Module regexp.

Inductive re :=
| Eps
| Cls (p : ascii → bool)
| Cat (a b : re)
| Alt (a b : re)
| Star (p : ascii → bool)
| Cap (i : nat) (a : re).

Definition Opt (a : re) : re := Alt a Eps.
Definition Plus (p : ascii → bool) : re := Cat (Cls p) (Star p).
Definition seq (l : list re) : re := foldr Cat Eps l.

(** The text a sub-match consumed: [s'] is the input left after matching
    from [s]. *)
Definition consumed (s s' : string) : string :=
  stake (String.length s - String.length s') s.

Fixpoint star {R} (p : ascii → bool) (s : string) (c : list string)
    (k : string → list string → option R) : option R :=
  match s with
  | String x t =>
    if p x then
      match star p t c k with
      | Some v => Some v
      | None => k s c
      end
    else k s c
  | EmptyString => k s c
  end.

Fixpoint run {R} (r : re) (s : string) (c : list string)
    (k : string → list string → option R) : option R :=
  match r with
  | Eps => k s c
  | Cls p =>
    match s with
    | String x t => if p x then k t c else None
    | EmptyString => None
    end
  | Cat a b => run a s c (λ s' c', run b s' c' k)
  | Alt a b =>
    match run a s c k with
    | Some v => Some v
    | None => run b s c k
    end
  | Star p => star p s c k
  | Cap i a => run a s c (λ s' c', k s' (<[i := consumed s s']> c'))
  end.

Definition accept (s : string) (c : list string) : option (string * list string) :=
  Some (s, c).

(** The method [FindStringSubmatch] of [Regexp] for a pattern with [groups] capturing
    groups: [None] is Go's nil slice; otherwise entry 0 is the whole match
    and entry [i] the text of group [i]. *)
Fixpoint find_from (r : re) (groups : nat) (s : string) : option (list string) :=
  match run r s (replicate (S groups) "") accept with
  | Some (s', c) => Some (<[0 := consumed s s']> c)
  | None =>
    match s with
    | String _ t => find_from r groups t
    | EmptyString => None
    end
  end.
Definition FindStringSubmatch (r : re) (groups : nat) (s : string) : option (list string) :=
  find_from r groups s.

(** Character classes. *)
Definition only (a : ascii) : ascii → bool := λ c, bool_decide (c = a).
Definition oneOf (set : string) : ascii → bool := strings.inSet set.
Definition noneOf (set : string) : ascii → bool := λ c, negb (strings.inSet set c).

(** [\s] is [[\t\n\f\r ]]. *)
Definition space : ascii → bool :=
  λ c, let b := byte c in
       ((b =? 0x09) || (b =? 0x0A) || (b =? 0x0C) || (b =? 0x0D) || (b =? 0x20))%Z.

(** [.] is every character but the newline. *)
Definition dot : ascii → bool := λ c, negb (byte c =? 0x0A)%Z.

Definition lit1 (a : ascii) : re := Cls (only a).

(** A letter under [(?i)]: both cases and the characters that fold to it
    (U+017F for [s], U+212A for [k]). *)
Definition isLetter (b : Z) : bool :=
  ((0x41 <=? b) && (b <=? 0x5A) || (0x61 <=? b) && (b <=? 0x7A))%Z.
Definition upperByte (b : Z) : Z := (if (0x61 <=? b) && (b <=? 0x7A) then b - 32 else b)%Z.

(** [x] is the character [a] of a pattern, case apart when [a] is a
    letter. *)
Definition foldEq (a x : ascii) : bool :=
  if isLetter (byte a) then (upperByte (byte x) =? upperByte (byte a))%Z
  else bool_decide (x = a).

Definition fold1 (a : ascii) : re :=
  let u := upperByte (byte a) in
  let both := Cls (λ c, (upperByte (byte c) =? u)%Z) in
  if negb (isLetter (byte a)) then lit1 a
  else if (u =? 0x53)%Z then
    Alt both (Cat (lit1 (chr 0xC5)) (lit1 (chr 0xBF)))
  else if (u =? 0x4B)%Z then
    Alt both (Cat (lit1 (chr 0xE2)) (Cat (lit1 (chr 0x84)) (lit1 (chr 0xAA))))
  else both.

Fixpoint lit (s : string) : re :=
  match s with
  | EmptyString => Eps
  | String a t => Cat (lit1 a) (lit t)
  end.

Fixpoint lit_i (s : string) : re :=
  match s with
  | EmptyString => Eps
  | String a t => Cat (fold1 a) (lit_i t)
  end.

End regexp.

(** ** Data model of [pkg/docgen] *)

Definition dquote : ascii := Eval cbv in chr 34.
Definition squote : ascii := Eval cbv in chr 39.
Definition lparen : ascii := Eval cbv in chr 40.
Definition rparen : ascii := Eval cbv in chr 41.
Definition comma : ascii := Eval cbv in chr 44.
Definition blank : ascii := Eval cbv in chr 32.
Definition period : ascii := Eval cbv in chr 46.

Module FieldComment.
Record t := mk {
  FieldName : string;
  FieldType : string;
  Comment : string
}.
Definition set_Comment (f : t) (comment : string) : t :=
  {| FieldName := FieldName f; FieldType := FieldType f; Comment := comment |}.
End FieldComment.

Module TableComment.
Record t := mk {
  TableName : string;
  Comment : string;
  Fields : list FieldComment.t
}.
Definition set_Comment (tb : t) (comment : string) : t :=
  {| TableName := TableName tb; Comment := comment; Fields := Fields tb |}.
Definition set_Fields (tb : t) (fields : list FieldComment.t) : t :=
  {| TableName := TableName tb; Comment := Comment tb; Fields := fields |}.
End TableComment.

Module EnumItem.
(** [Value] is an [interface{}] that holds a string or nil; [Description]
    and [Example] are never assigned by the package. *)
Record t := mk {
  Name : string;
  Value : option string;
  Comment : string;
  Description : string;
  Example : string
}.
End EnumItem.

Module EnumGroup.
Record t := mk {
  Name : string;
  Description : string;
  Package : string;
  File : string;
  Type_ : string;
  Items : list EnumItem.t;
  Tags : list string;
  Category : string
}.
End EnumGroup.

(** The registries.  A Go map has one value per key and no order of its own;
    [enums] holds pointers, each stored under one key only, so updating the
    value under a key models a mutation through the pointer. *)
Record Parser := mkParser {
  enums : gmap string EnumGroup.t;
  dbComments : gmap string TableComment.t
}.

Definition NewParser : Parser := {| enums := ∅; dbComments := ∅ |}.

Definition set_dbComments (p : Parser) (m : gmap string TableComment.t) : Parser :=
  {| enums := enums p; dbComments := m |}.
Definition set_enums (p : Parser) (m : gmap string EnumGroup.t) : Parser :=
  {| enums := m; dbComments := dbComments p |}.

(** A method that returns [error] and may update the parser: the parser is
    only updated on success. *)
Inductive result :=
| Ok (p : Parser)
| Err (msg : string).

(** What the caller [parseSQLFile] is left with: on an error it prints a
    warning and goes on with the parser as it was. *)
Definition after (r : result) (p : Parser) : Parser :=
  match r with Ok p' => p' | Err _ => p end.

(** ** The text-encoding resolver *)

(** The legacy decoders of [golang.org/x/text]: reading all of the input
    through the decoder gives the decoded bytes, or fails. *)
Class Decoders := {
  GBK : string → option string;
  Big5 : string → option string;
  GB18030 : string → option string
}.

(** [if d, err := ioutil.ReadAll(reader); err == nil && utf8.Valid(d)]: the
    decoded text, when this attempt is the one returned. *)
Definition attempt (decoded : option string) : option string :=
  match decoded with
  | Some d => if utf8.ValidString d then Some d else None
  | None => None
  end.

Definition decodeComment `{Decoders} (s : string) : string :=
  if utf8.ValidString s then s
  else
    match attempt (GBK s) with
    | Some d => d
    | None =>
      match attempt (Big5 s) with
      | Some d => d
      | None =>
        match attempt (GB18030 s) with
        | Some d => d
        | None => s
        end
      end
    end.

(** ** The SQL statement interpreters *)

Section SQL.
Context `{UnicodeTables} `{Decoders}.

Import regexp.

(** The pattern of the table name, [D] standing for the double quote:
    [(?i)CREATE\s+TABLE\s+(?:IF\s+NOT\s+EXISTS\s+)?(?:D?publicD?\.)?D?([^D\s(]+)D?] *)
Definition tableNameRegex : re :=
  seq [ lit_i "CREATE"; Plus space; lit_i "TABLE"; Plus space;
        Opt (seq [ lit_i "IF"; Plus space; lit_i "NOT"; Plus space;
                   lit_i "EXISTS"; Plus space ]);
        Opt (seq [ Opt (lit1 dquote); lit_i "public"; Opt (lit1 dquote); lit1 period ]);
        Opt (lit1 dquote);
        Cap 1 (Plus (λ c, negb (only dquote c || space c || only lparen c)));
        Opt (lit1 dquote) ].

(** The pattern of the column list: an opening parenthesis, group 1 of any
    characters but the newline, as many as possible, a closing parenthesis. *)
Definition fieldsRegex : re :=
  seq [ lit1 lparen; Cap 1 (Star dot); lit1 rparen ].

(** The pattern of a comment statement:
    [(?i)COMMENT\s+ON\s+(?:TABLE\s+|COLUMN\s+)?(?:public\.)?([^\s]+)\s+IS\s+Q(T)Q]
    where [Q] is the quote character (the single quote in the first pattern
    tried, the double quote in the second) and [T] is any run of characters
    other than [Q], as long as possible. *)
Definition commentRegex (q : ascii) : re :=
  seq [ lit_i "COMMENT"; Plus space; lit_i "ON"; Plus space;
        Opt (Alt (seq [ lit_i "TABLE"; Plus space ])
                 (seq [ lit_i "COLUMN"; Plus space ]));
        Opt (lit_i "public.");
        Cap 1 (Plus (λ c, negb (space c)));
        Plus space; lit_i "IS"; Plus space;
        lit1 q; Cap 2 (Star (λ c, negb (only q c))); lit1 q ].

(** [splitFields]: the loop over the bytes of [fields], with its three
    variables.  [parenCount] is an [int]; it moves by one per byte read, so
    it stays far from the bounds of the type. *)
Fixpoint splitFields_loop (fields : string) (result : list string)
    (current : string) (parenCount : Z) : list string :=
  match fields with
  | EmptyString =>
    if (0 <? String.length current) then result ++ [current] else result
  | String char rest =>
    if ascii_dec char lparen then
      splitFields_loop rest result (current +:+ str1 char) (parenCount + 1)
    else if ascii_dec char rparen then
      splitFields_loop rest result (current +:+ str1 char) (parenCount - 1)
    else if ascii_dec char comma then
      if (parenCount =? 0)%Z then splitFields_loop rest (result ++ [current]) "" parenCount
      else splitFields_loop rest result (current +:+ str1 char) parenCount
    else splitFields_loop rest result (current +:+ str1 char) parenCount
  end.

Definition splitFields (fields : string) : list string :=
  splitFields_loop fields [] "" 0.

(** [extractType]: the loop runs while [inType] holds; the one assignment of
    [false] to it ends the loop. *)
Fixpoint extractType_loop (s : string) (result : string) (parenCount : Z) : string :=
  match s with
  | EmptyString => result
  | String char rest =>
    if ascii_dec char lparen then
      extractType_loop rest (result +:+ str1 char) (parenCount + 1)
    else if ascii_dec char rparen then
      extractType_loop rest (result +:+ str1 char) (parenCount - 1)
    else if bool_decide (char = blank) && (parenCount =? 0)%Z then result
    else extractType_loop rest (result +:+ str1 char) parenCount
  end.

Definition extractType (s : string) : string :=
  strings.TrimSpace (extractType_loop s "" 0).

(** [parseFieldDef]: [None] is the nil pointer.  The second field is a piece
    of [fieldDef], so [strings.Index] finds it ([parseFieldDef_index] below);
    the last branch, where Go would slice at -1, is never taken. *)
Definition parseFieldDef (fieldDef : string) : option FieldComment.t :=
  let fieldDef := strings.TrimSpace fieldDef in
  match strings.Fields fieldDef with
  | part0 :: part1 :: _ =>
    let fieldName := strings.Trim part0 (str1 dquote) in
    match strings.Index fieldDef part1 with
    | Some typeStart =>
      let restDef := sdrop typeStart fieldDef in
      let fieldType := extractType restDef in
      Some {| FieldComment.FieldName := fieldName;
              FieldComment.FieldType := fieldType;
              FieldComment.Comment := "" |}
    | None => None
    end
  | _ => None
  end.

(** The clauses [parseCreateTableByString] passes over. *)
Definition skipped (fieldDef : string) : bool :=
  is_empty fieldDef
  || strings.HasPrefix (strings.ToUpper fieldDef) "PRIMARY KEY"
  || strings.HasPrefix (strings.ToUpper fieldDef) "CONSTRAINT".

(** One turn of the loop over [fieldDefs]. *)
Definition addField (fields : list FieldComment.t) (fieldDef : string)
  : list FieldComment.t :=
  let fieldDef := strings.TrimSpace fieldDef in
  if skipped fieldDef then fields
  else
    match parseFieldDef fieldDef with
    | Some field => fields ++ [field]
    | None => fields
    end.

Definition parseCreateTableByString (stmt : string) (p : Parser) : result :=
  match FindStringSubmatch tableNameRegex 1 stmt with
  | None => Err "无法提取表名"
  | Some matches =>
    let tableName := strings.Trim (matches !!! 1) (str1 dquote) in
    let tableName := strings.TrimPrefix tableName "public." in
    match FindStringSubmatch fieldsRegex 1 stmt with
    | None => Err "无法提取字段定义"
    | Some matches =>
      let fieldDefs := splitFields (matches !!! 1) in
      let fields := fold_left addField fieldDefs [] in
      Ok (set_dbComments p
            (<[tableName := {| TableComment.TableName := tableName;
                               TableComment.Comment := "";
                               TableComment.Fields := fields |}]> (dbComments p)))
    end
  end.

(** The loop of [parseCommentByString] over [table.Fields]: the first field
    of that name takes the comment, and the loop breaks. *)
Fixpoint commentField (fields : list FieldComment.t) (fieldName comment : string)
  : list FieldComment.t :=
  match fields with
  | [] => []
  | f :: rest =>
    if String.eqb (FieldComment.FieldName f) fieldName
    then FieldComment.set_Comment f comment :: rest
    else f :: commentField rest fieldName comment
  end.

Definition parseCommentByString (stmt : string) (p : Parser) : result :=
  let found :=
    match FindStringSubmatch (commentRegex squote) 2 stmt with
    | Some matches => Some matches
    | None => FindStringSubmatch (commentRegex dquote) 2 stmt
    end in
  match found with
  | None => Err "无法提取注释内容"
  | Some matches =>
    let target := strings.Trim (matches !!! 1) (str1 dquote) in
    let comment := decodeComment (matches !!! 2) in
    if negb (strings.Contains target ".") then
      let target := strings.TrimPrefix target "public." in
      match dbComments p !! target with
      | Some table =>
        Ok (set_dbComments p
              (<[target := TableComment.set_Comment table comment]> (dbComments p)))
      | None =>
        Ok (set_dbComments p
              (<[target := {| TableComment.TableName := target;
                              TableComment.Comment := comment;
                              TableComment.Fields := [] |}]> (dbComments p)))
      end
    else
      let parts := strings.Split target "." in
      if (length parts <? 2) then Err "无效的字段引用"
      else
        let tableName := strings.TrimPrefix (parts !!! (length parts - 2)) "public." in
        let tableName := strings.Trim tableName (str1 dquote) in
        let fieldName := strings.Trim (parts !!! (length parts - 1)) (str1 dquote) in
        match dbComments p !! tableName with
        | Some table =>
          Ok (set_dbComments p
                (<[tableName := TableComment.set_Fields table
                     (commentField (TableComment.Fields table) fieldName comment)]>
                   (dbComments p)))
        | None => Ok p
        end
  end.

(** [isRelevantStatement] *)
Definition isRelevantStatement (stmt : string) : bool :=
  let upperStmt := strings.ToUpper (strings.TrimSpace stmt) in
  strings.HasPrefix upperStmt "CREATE TABLE"
  || strings.HasPrefix upperStmt "COMMENT ON"
  || strings.HasPrefix upperStmt "ALTER TABLE".

(** [splitSQLStatements]: one turn of the loop over the lines, on the pair
    of [statements] and the text of [currentStmt]. *)
Definition addLine (st : list string * string) (line : string) : list string * string :=
  let '(statements, currentStmt) := st in
  let trimmedLine := strings.TrimSpace line in
  if is_empty trimmedLine then st
  else if strings.HasPrefix trimmedLine "--" then st
  else if strings.Contains trimmedLine "/*" && negb (strings.Contains trimmedLine "*/") then st
  else
    let trimmedLine :=
      match strings.Index trimmedLine "--" with
      | Some idx => strings.TrimSpace (stake idx trimmedLine)
      | None => trimmedLine
      end in
    if is_empty trimmedLine then st
    else
      let currentStmt :=
        (if (0 <? String.length currentStmt) then currentStmt +:+ " " else currentStmt)
          +:+ trimmedLine in
      if strings.HasSuffix trimmedLine ";" then
        ((if isRelevantStatement currentStmt then statements ++ [currentStmt]
          else statements), "")
      else (statements, currentStmt).

Definition splitSQLStatements (sql : string) : list string :=
  let '(statements, currentStmt) := fold_left addLine (strings.Split sql (str1 (chr 10))) ([], "") in
  let lastStmt := strings.TrimSpace currentStmt in
  if is_empty lastStmt then statements
  else
    let lastStmt := if strings.HasSuffix lastStmt ";" then lastStmt else lastStmt +:+ ";" in
    if isRelevantStatement lastStmt then statements ++ [lastStmt] else statements.

(** One turn of the loop of [parseSQLFile] over the statements.  An error of
    an interpreter is printed as a warning and the loop goes on. *)
Definition parseStatement (p : Parser) (stmt : string) : Parser :=
  let stmt := strings.TrimSpace stmt in
  if is_empty stmt then p
  else if strings.HasPrefix (strings.ToUpper stmt) "CREATE TABLE" then
    after (parseCreateTableByString stmt p) p
  else if strings.HasPrefix (strings.ToUpper stmt) "COMMENT ON" then
    after (parseCommentByString stmt p) p
  else p.

(** [parseSQLFile], from the bytes [ioutil.ReadFile] returned. *)
Definition parseSQLFile (content : string) (p : Parser) : Parser :=
  let sqlContent := strings.ReplaceAll content (String (chr 13) (str1 (chr 10))) (str1 (chr 10)) in
  let sqlContent :=
    strings.TrimPrefix sqlContent (String (chr 0xEF) (String (chr 0xBB) (str1 (chr 0xBF)))) in
  fold_left parseStatement (splitSQLStatements sqlContent) p.

End SQL.

(** ** Package [go/ast]: the syntax the scanner reads

    The tree is what [parser.ParseFile] returned for a source file; only the
    node kinds and fields the scanner looks at are kept. *)

Module ast.

Inductive Expr :=
| Ident (Name : string)
| BasicLit (Value : string)
| SelectorExpr (X : Expr) (Sel : string)
| OtherExpr.

(** A comment group: the raw text of each comment in [List], and in [Text]
    what the method [Text()] of [go/ast] computes from them. *)
Record CommentGroup := mkCommentGroup {
  List : list string;
  Text : string
}.

Record ValueSpec := mkValueSpec {
  Doc : option CommentGroup;
  Names : list string;
  Type_ : option Expr;
  Values : list Expr;
  Comment : option CommentGroup
}.

Inductive Spec :=
| SValueSpec (v : ValueSpec)
| SOtherSpec.

Inductive Token := CONST | VAR | IMPORT | TYPE.

Definition Token_String (t : Token) : string :=
  match t with
  | CONST => "const"
  | VAR => "var"
  | IMPORT => "import"
  | TYPE => "type"
  end.

Record GenDecl := mkGenDecl {
  GenDoc : option CommentGroup;
  Tok : Token;
  Specs : list Spec
}.

Inductive Decl :=
| DGenDecl (gen : GenDecl)
| DOtherDecl.

Record File := mkFile {
  PackageName : string;
  Decls : list Decl
}.

End ast.

(** ** The source annotation scanner *)

Section Enums.
Context `{UnicodeTables}.

Definition isUpperASCII (c : ascii) : bool :=
  ((0x41 <=? byte c) && (byte c <=? 0x5A))%Z.

(** The loop [for i := len(name) - 1; i >= 0; i--] of [getEnumGroupName];
    [n] is [i + 1]. *)
Fixpoint prefix_loop (name : string) (n : nat) : string :=
  match n with
  | O => name
  | S i =>
    match String.get i name with
    | Some c => if isUpperASCII c then stake i name else prefix_loop name i
    | None => prefix_loop name i
    end
  end.

Definition getEnumGroupName (gen : ast.GenDecl) : string :=
  let byType :=
    match ast.Specs gen with
    | [ast.SValueSpec spec] =>
      match ast.Type_ spec with
      | Some (ast.Ident name) => Some name
      | _ => None
      end
    | _ => None
    end in
  match byType with
  | Some name => name
  | None =>
    match ast.Specs gen with
    | ast.SValueSpec spec :: _ =>
      match ast.Names spec with
      | name :: _ => prefix_loop name (String.length name)
      | [] => "Unknown"
      end
    | _ => "Unknown"
    end
  end.

(** The value of a member: the [switch] over [vspec.Values[i]]. *)
Definition itemValue (vspec : ast.ValueSpec) (i : nat) : option string :=
  match ast.Values vspec !! i with
  | Some (ast.BasicLit v) => Some v
  | Some (ast.Ident name) => Some name
  | Some (ast.SelectorExpr (ast.Ident x) sel) => Some (x +:+ "." +:+ sel)
  | _ => None
  end.

(** The comment of a member: the [if / else if / else if] chain. *)
Definition itemComment (vspec : ast.ValueSpec) (groupComment : string) : string :=
  match ast.Comment vspec with
  | Some c => strings.TrimSpace (ast.Text c)
  | None =>
    match ast.Doc vspec with
    | Some d => strings.TrimSpace (ast.Text d)
    | None => if negb (is_empty groupComment) then groupComment else ""
    end
  end.

(** The inner loop of [parseEnumItems], over [vspec.Names] from index [i]. *)
Fixpoint names_loop (vspec : ast.ValueSpec) (groupComment : string) (i : nat)
    (names : list string) (items : list EnumItem.t) : list EnumItem.t :=
  match names with
  | [] => items
  | name :: rest =>
    let item := {| EnumItem.Name := name;
                   EnumItem.Value := itemValue vspec i;
                   EnumItem.Comment := itemComment vspec groupComment;
                   EnumItem.Description := "";
                   EnumItem.Example := "" |} in
    names_loop vspec groupComment (S i) rest (items ++ [item])
  end.

(** The outer loop of [parseEnumItems], over [gen.Specs]. *)
Fixpoint specs_loop (groupComment : string) (specs : list ast.Spec)
    (items : list EnumItem.t) : list EnumItem.t :=
  match specs with
  | [] => items
  | ast.SValueSpec vspec :: rest =>
    specs_loop groupComment rest (names_loop vspec groupComment 0 (ast.Names vspec) items)
  | ast.SOtherSpec :: rest => specs_loop groupComment rest items
  end.

Definition parseEnumItems (gen : ast.GenDecl) (groupComment : string) : list EnumItem.t :=
  specs_loop groupComment (ast.Specs gen) [].

(** [parseEnumGroup]: [None] is the nil pointer. *)
Definition parseEnumGroup (gen : ast.GenDecl) (docComment pkgName filePath : string)
  : option EnumGroup.t :=
  let name := getEnumGroupName gen +:+ " " +:+ docComment in
  let items := parseEnumItems gen docComment in
  if (0 <? length items) then
    Some {| EnumGroup.Name := name;
            EnumGroup.Description := docComment;
            EnumGroup.Package := pkgName;
            EnumGroup.File := filePath;
            EnumGroup.Type_ := ast.Token_String (ast.Tok gen);
            EnumGroup.Items := items;
            EnumGroup.Tags := [];
            EnumGroup.Category := "" |}
  else None.

(** ** The enumeration metadata engine *)

(** [splitCamelCase]: the loop over the runes of [s]. *)
Fixpoint splitCamelCase_loop (rs : list (Z * nat)) (words : list string)
    (current : string) : list string :=
  match rs with
  | [] => if negb (is_empty current) then words ++ [current] else words
  | (r, _) :: rest =>
    if unicode.IsUpper r then
      splitCamelCase_loop rest
        (if negb (is_empty current) then words ++ [current] else words)
        (utf8.EncodeRune r)
    else splitCamelCase_loop rest words (current +:+ utf8.EncodeRune r)
  end.

Definition splitCamelCase (s : string) : list string :=
  splitCamelCase_loop (utf8.runes s) [] "".

Definition stopWords : gset string :=
  list_to_set ["the"; "a"; "an"; "and"; "or"; "in"; "on"; "at"; "to"; "for"].

Definition punctuation : string := ",.()[]{}" +:+ str1 dquote +:+ "'".

Definition extractKeywords (text : string) : list string :=
  fold_left
    (λ keywords word,
       let word := strings.ToLower (strings.Trim word punctuation) in
       if negb (bool_decide (word ∈ stopWords)) && (2 <? String.length word)
       then keywords ++ [word] else keywords)
    (strings.Fields text) [].

(** [tags[strings.ToLower(word)] = true] for each word. *)
Definition addTags (tags : gset string) (words : list string) : gset string :=
  fold_left (λ tags word, {[ strings.ToLower word ]} ∪ tags) words tags.

(** [generateTags].  The keys of the map [tags] come out of [range] in an
    order Go leaves open; [sort.Strings] then fixes it, so the result is the
    sorted arrangement of the keys whichever order they came in. *)
Definition generateTags (group : EnumGroup.t) : list string :=
  let tags := addTags ∅ (splitCamelCase (EnumGroup.Name group)) in
  let tags := addTags tags (extractKeywords (EnumGroup.Description group)) in
  let tags :=
    fold_left
      (λ tags item,
         let tags := addTags tags (splitCamelCase (EnumItem.Name item)) in
         addTags tags (extractKeywords (EnumItem.Comment item)))
      (EnumGroup.Items group) tags in
  sort.Strings (elements tags).

Definition inferCategory (group : EnumGroup.t) : string :=
  let name := strings.ToLower (EnumGroup.Name group) in
  if strings.Contains name "status" || strings.Contains name "state" then "状态"
  else if strings.Contains name "type" then "类型"
  else if strings.Contains name "flag" then "标志"
  else if strings.Contains name "mode" then "模式"
  else if strings.Contains name "level" then "级别"
  else "其他".

(** [mergeEnumGroup]: the group [existing] as the method leaves it. *)
Definition mergeEnumGroup (existing new : EnumGroup.t) : EnumGroup.t :=
  let description :=
    if negb (is_empty (EnumGroup.Description new))
       && negb (String.eqb (EnumGroup.Description existing) (EnumGroup.Description new))
    then EnumGroup.Description existing +:+ str1 (chr 10) +:+ EnumGroup.Description new
    else EnumGroup.Description existing in
  let existingItems : gset string :=
    list_to_set (EnumItem.Name <$> EnumGroup.Items existing) in
  let items :=
    fold_left
      (λ items item,
         if negb (bool_decide (EnumItem.Name item ∈ existingItems))
         then items ++ [item] else items)
      (EnumGroup.Items new) (EnumGroup.Items existing) in
  let existingTags : gset string := list_to_set (EnumGroup.Tags existing) in
  let tags :=
    fold_left
      (λ tags tag,
         if negb (bool_decide (tag ∈ existingTags)) then tags ++ [tag] else tags)
      (EnumGroup.Tags new) (EnumGroup.Tags existing) in
  {| EnumGroup.Name := EnumGroup.Name existing;
     EnumGroup.Description := description;
     EnumGroup.Package := EnumGroup.Package existing;
     EnumGroup.File := EnumGroup.File existing;
     EnumGroup.Type_ := EnumGroup.Type_ existing;
     EnumGroup.Items := items;
     EnumGroup.Tags := sort.Strings tags;
     EnumGroup.Category := EnumGroup.Category existing |}.

Definition set_Tags_Category (g : EnumGroup.t) (tags : list string) (category : string)
  : EnumGroup.t :=
  {| EnumGroup.Name := EnumGroup.Name g;
     EnumGroup.Description := EnumGroup.Description g;
     EnumGroup.Package := EnumGroup.Package g;
     EnumGroup.File := EnumGroup.File g;
     EnumGroup.Type_ := EnumGroup.Type_ g;
     EnumGroup.Items := EnumGroup.Items g;
     EnumGroup.Tags := tags;
     EnumGroup.Category := category |}.

(** [parseFile], what it does with a group it has parsed: tags, category,
    then merge into the group of that name or add. *)
Definition addGroup (p : Parser) (group : EnumGroup.t) : Parser :=
  let group := set_Tags_Category group (generateTags group) "" in
  let group := set_Tags_Category group (EnumGroup.Tags group) (inferCategory group) in
  match enums p !! EnumGroup.Name group with
  | Some existing =>
    set_enums p (<[EnumGroup.Name group := mergeEnumGroup existing group]> (enums p))
  | None => set_enums p (<[EnumGroup.Name group := group]> (enums p))
  end.

(** The loop over [gen.Doc.List]: the first comment holding the marker
    decides, whether or not a group comes out of it. *)
Fixpoint doc_loop (gen : ast.GenDecl) (pkgName relPath : string)
    (comments : list string) (p : Parser) : Parser :=
  match comments with
  | [] => p
  | text :: rest =>
    if strings.Contains text "@ai" then
      let content := strings.TrimSpace (strings.ReplaceFirst text "// @ai" "") in
      match parseEnumGroup gen content pkgName relPath with
      | Some group => addGroup p group
      | None => p
      end
    else doc_loop gen pkgName relPath rest p
  end.

Definition parseDecl (pkgName relPath : string) (p : Parser) (decl : ast.Decl) : Parser :=
  match decl with
  | ast.DGenDecl gen =>
    match ast.Tok gen with
    | ast.CONST | ast.VAR =>
      match ast.GenDoc gen with
      | Some doc => doc_loop gen pkgName relPath (ast.List doc) p
      | None => p
      end
    | _ => p
    end
  | ast.DOtherDecl => p
  end.

(** [parseFile] on a Go file that parsed to [node]; [relPath] is its path
    relative to the root. *)
Definition parseFile (node : ast.File) (relPath : string) (p : Parser) : Parser :=
  fold_left (parseDecl (ast.PackageName node) relPath) (ast.Decls node) p.

End Enums.

(** ** The document renderer *)

Definition nl : string := Eval cbv in str1 (chr 10).

(** The tags of a group, each in backquotes, with the separator before every
    tag but the first. *)
Fixpoint writeTags (i : nat) (tags : list string) (md : string) : string :=
  match tags with
  | [] => md
  | tag :: rest =>
    let md := if (0 <? i) then md +:+ " · " else md in
    writeTags (S i) rest (md +:+ "`" +:+ tag +:+ "`")
  end.

Definition writeItem (md : string) (value : EnumItem.t) : string :=
  let valueStr := default "" (EnumItem.Value value) in
  md +:+ "| " +:+ EnumItem.Name value +:+ " | " +:+ valueStr +:+ " | "
     +:+ EnumItem.Comment value +:+ " |" +:+ nl.

Definition writeEnum (md : string) (enum : EnumGroup.t) : string :=
  let md := md +:+ "## " +:+ EnumGroup.Name enum +:+ nl +:+ nl in
  let md :=
    if (0 <? length (EnumGroup.Tags enum)) then
      writeTags 0 (EnumGroup.Tags enum) (md +:+ "**标签：** ") +:+ nl +:+ nl
    else md in
  let md := md +:+ "| 变量 | 原值 | 描述 |" +:+ nl +:+ "|---|---|---|" +:+ nl in
  fold_left writeItem (EnumGroup.Items enum) md +:+ nl.

Definition writeField (md : string) (field : FieldComment.t) : string :=
  let comment :=
    if is_empty (FieldComment.Comment field) then "-" else FieldComment.Comment field in
  md +:+ "| " +:+ FieldComment.FieldName field +:+ " | " +:+ FieldComment.FieldType field
     +:+ " | " +:+ comment +:+ " |" +:+ nl.

(** The zero value [p.dbComments[tableName]] gives for a missing key. *)
Definition noTable : TableComment.t :=
  {| TableComment.TableName := ""; TableComment.Comment := ""; TableComment.Fields := [] |}.

Definition writeTable (p : Parser) (md : string) (tableName : string) : string :=
  let table := default noTable (dbComments p !! tableName) in
  let md :=
    if negb (is_empty (TableComment.Comment table)) then
      md +:+ "## " +:+ tableName +:+ "（" +:+ TableComment.Comment table +:+ "）" +:+ nl +:+ nl
    else md +:+ "## " +:+ tableName +:+ nl +:+ nl in
  let md := md +:+ "| 字段 | 类型 | 描述 |" +:+ nl +:+ "|---|---|---|" +:+ nl in
  fold_left writeField (TableComment.Fields table) md +:+ nl.

(** The table names in the order the document lists them. *)
Definition tableOrder (tableKeys : list string) : list string := sort.Strings tableKeys.

(** [ToMarkdown].  [range] over a Go map yields its keys in an order the
    language leaves open: [enumKeys] and [tableKeys] are the orders this run
    of the two loops over [p.enums] and [p.dbComments] got. *)
Definition ToMarkdown (enumKeys tableKeys : list string) (p : Parser) : string :=
  let md := "" in
  let md :=
    if (0 <? size (enums p)) then
      fold_left
        (λ md key, match enums p !! key with
                   | Some enum => writeEnum md enum
                   | None => md
                   end)
        enumKeys (md +:+ "# 枚举类型" +:+ nl +:+ nl)
    else md in
  if (0 <? size (dbComments p)) then
    fold_left (writeTable p) (tableOrder tableKeys) (md +:+ "# 数据库表" +:+ nl +:+ nl)
  else md.

(** The orders [range] can yield: the keys of the map, each once. *)
Definition keyOrder {V} (m : gmap string V) (keys : list string) : Prop :=
  keys ≡ₚ elements (dom m).

(** ** Notions the statements use *)

(** Every byte of [s] satisfies [p]. *)
Fixpoint sall (p : ascii → bool) (s : string) : bool :=
  match s with
  | EmptyString => true
  | String c t => p c && sall p t
  end.

(** A declaration group that takes its name from the type annotation of its
    single member. *)
Definition namedByType (gen : ast.GenDecl) : Prop :=
  ∃ spec name,
    ast.Specs gen = [ast.SValueSpec spec] ∧ ast.Type_ spec = Some (ast.Ident name).

(** What the members parsed from one spec of a group look like: one per
    declared name, in order, each with the comment the chain of fallbacks
    picks. *)
Definition membersOf (groupComment : string) (spec : ast.Spec) (items : list EnumItem.t)
  : Prop :=
  match spec with
  | ast.SOtherSpec => items = []
  | ast.SValueSpec vspec =>
    length items = length (ast.Names vspec)
    ∧ ∀ i name, ast.Names vspec !! i = Some name →
        ∃ item, items !! i = Some item
          ∧ EnumItem.Name item = name
          ∧ (∀ c, ast.Comment vspec = Some c →
               EnumItem.Comment item = strings.TrimSpace (ast.Text c))
          ∧ (∀ d, ast.Comment vspec = None → ast.Doc vspec = Some d →
               EnumItem.Comment item = strings.TrimSpace (ast.Text d))
          ∧ (ast.Comment vspec = None → ast.Doc vspec = None →
               EnumItem.Comment item = groupComment)
  end.

(** A list of strings in strictly ascending byte order. *)
Definition ascending (l : list string) : Prop :=
  StronglySorted String.le l ∧ NoDup l.

(** The resolver in the words of its contract: text that is valid UTF-8
    already is kept; otherwise the first of the given decodings, in order,
    that succeeded and gave valid UTF-8; otherwise the text as it came. *)
Fixpoint firstDecoded (decodings : list (option string)) : option string :=
  match decodings with
  | [] => None
  | Some d :: rest => if utf8.ValidString d then Some d else firstDecoded rest
  | None :: rest => firstDecoded rest
  end.

Definition resolveEncoding `{Decoders} (s : string) : string :=
  if utf8.ValidString s then s
  else default s (firstDecoded [GBK s; Big5 s; GB18030 s]).

(** The registries a run of the scans can reach: from the empty parser, Go
    files and SQL files are read in any number and order. *)
Inductive scanned `{UnicodeTables} `{Decoders} : Parser → Prop :=
| scanned_new : scanned NewParser
| scanned_go node relPath p : scanned p → scanned (parseFile node relPath p)
| scanned_sql content p : scanned p → scanned (parseSQLFile content p).

(** The text [writeTable] adds for one table, and the text of a run of
    tables. *)
Definition tableText (p : Parser) (tableName : string) : string :=
  writeTable p "" tableName.

Fixpoint sconcat (l : list string) : string :=
  match l with
  | [] => ""
  | s :: rest => s +:+ sconcat rest
  end.

(** The part of the document before the table section. *)
Definition enumsText (enumKeys : list string) (p : Parser) : string :=
  if (0 <? size (enums p)) then
    fold_left
      (λ md key, match enums p !! key with
                 | Some enum => writeEnum md enum
                 | None => md
                 end)
      enumKeys ("# 枚举类型" +:+ nl +:+ nl)
  else "".

(** The invariant of the enumeration registry. *)
Definition tagsAscending (p : Parser) : Prop :=
  ∀ name group, enums p !! name = Some group → ascending (EnumGroup.Tags group).

(** [clause] begins with [keyword] when letters are read without regard to
    their case. *)
Fixpoint beginsWith (keyword clause : string) : bool :=
  match keyword, clause with
  | EmptyString, _ => true
  | String k keyword', String c clause' =>
    regexp.foldEq k c && beginsWith keyword' clause'
  | String _ _, EmptyString => false
  end.

Definition isASCII (c : ascii) : bool := (byte c <? 0x80)%Z.

(** A keyword in capital letters: ASCII, and no small letter in it. *)
Definition capital (k : ascii) : bool :=
  isASCII k && (regexp.upperByte (byte k) =? byte k)%Z.

(** A clause of a column list that stands for a column: it is not passed
    over, and it has a name and a type, two fields at least. *)
Definition columnClause `{UnicodeTables} (clause : string) : Prop :=
  skipped clause = false ∧ 2 ≤ length (strings.Fields (strings.TrimSpace clause)).

Global Instance columnClause_dec `{UnicodeTables} clause : Decision (columnClause clause).
Proof. unfold columnClause. apply _. Defined.

(** The parenthesis depth after reading [s] from depth [parenCount]: every
    opening parenthesis adds one, every closing one takes one off.  [None]
    when a comma of [s] stands at depth zero. *)
Fixpoint depthAfter (parenCount : Z) (s : string) : option Z :=
  match s with
  | EmptyString => Some parenCount
  | String c t =>
    if ascii_dec c lparen then depthAfter (parenCount + 1) t
    else if ascii_dec c rparen then depthAfter (parenCount - 1) t
    else if ascii_dec c comma then
      if (parenCount =? 0)%Z then None else depthAfter parenCount t
    else depthAfter parenCount t
  end.

Definition notParen (c : ascii) : bool :=
  negb (bool_decide (c = lparen)) && negb (bool_decide (c = rparen)).

(** An ASCII character that is no white space. *)
Definition graphic (c : ascii) : bool :=
  isASCII c && negb (unicode.IsSpace (byte c)).

(** A byte of a plain word: an ASCII character other than white space,
    parentheses and the comma. *)
Definition wordByte (c : ascii) : bool :=
  graphic c && notParen c && negb (bool_decide (c = comma)).

(** [w] is [keyword], letter case apart. *)
Fixpoint equalFold (keyword w : string) : bool :=
  match keyword, w with
  | EmptyString, EmptyString => true
  | String k keyword', String x w' => regexp.foldEq k x && equalFold keyword' w'
  | _, _ => false
  end.

(** A repetition of the class [p] that has read up to [rest] goes no
    further: [rest] is empty or starts outside the class. *)
Definition stops (p : ascii → bool) (rest : string) : bool :=
  match rest with
  | EmptyString => true
  | String x _ => negb (p x)
  end.

(** A letter of a pattern that folds with ASCII letters only (not S, not K). *)
Definition plainFold (a : ascii) : bool :=
  negb (regexp.upperByte (byte a) =? 0x53)%Z && negb (regexp.upperByte (byte a) =? 0x4B)%Z.

(** A byte of a table or column name as the statements below write it: no
    white space of the pattern, no double quote, no period. *)
Definition identByte (x : ascii) : bool :=
  negb (regexp.space x) && negb (bool_decide (x = dquote)) && negb (bool_decide (x = period)).

Definition quoted (s : string) : string := String dquote (s +:+ str1 dquote).



(** The registry after a comment for column [c] of table [t] went in. *)
Definition withColumnComment (p : Parser) (t c comment : string) : Parser :=
  match dbComments p !! t with
  | Some table =>
    set_dbComments p
      (<[t := TableComment.set_Fields table
                (commentField (TableComment.Fields table) c comment)]> (dbComments p))
  | None => p
  end.

(** What [parseCommentByString] makes of the reference [target] of a
    statement: the table and the column it goes on to look up. *)
Definition resolvesTo (target t c : string) : Prop :=
  let target := strings.Trim target (str1 dquote) in
  let parts := strings.Split target "." in
  strings.Contains target "." = true
  ∧ (length parts <? 2) = false
  ∧ strings.Trim (strings.TrimPrefix (parts !!! (length parts - 2)) "public.") (str1 dquote) = t
  ∧ strings.Trim (parts !!! (length parts - 1)) (str1 dquote) = c.

(** ** Worked inputs *)

(** Case tables cut down to ASCII: beyond it, no rune has a case. *)
Definition asciiTables : UnicodeTables :=
  {| To_UpperCase r := r; To_LowerCase r := r; Upper_excludingLatin _ := false |}.

(** Decoders cut down to one character: the bytes D6 D0 are the GBK (and
    GB18030) encoding of U+4E2D, nothing else decodes. *)
Definition gbkZhong : string := Eval cbv in String (chr 0xD6) (str1 (chr 0xD0)).

Definition sampleDecoders : Decoders :=
  {| GBK s := if String.eqb s gbkZhong then Some "中" else None;
     Big5 _ := None;
     GB18030 s := if String.eqb s gbkZhong then Some "中" else None |}.

(** The scan of an SQL file with the sample tables and decoders. *)
Definition scanSQL (content : string) (p : Parser) : Parser :=
  @parseSQLFile asciiTables sampleDecoders content p.

Definition createT : string := "CREATE TABLE t (id bigint NOT NULL, c numeric(10,2));".
Definition commentTC : string := "COMMENT ON COLUMN t.c IS 'x';".
Definition commentT : string := "COMMENT ON TABLE t IS 'x';".

Definition columnsT (comment : string) : list FieldComment.t :=
  [ {| FieldComment.FieldName := "id"; FieldComment.FieldType := "bigint";
       FieldComment.Comment := "" |};
    {| FieldComment.FieldName := "c"; FieldComment.FieldType := "numeric(10,2)";
       FieldComment.Comment := comment |} ].

Definition tableT (tableComment columnComment : string) : TableComment.t :=
  {| TableComment.TableName := "t"; TableComment.Comment := tableComment;
     TableComment.Fields := columnsT columnComment |}.

(** The declaration group of the repository's own sample file. *)
Definition mailStatus : ast.GenDecl :=
  let member name value comment :=
    ast.SValueSpec
      {| ast.Doc := None; ast.Names := [name]; ast.Type_ := None;
         ast.Values := [ast.BasicLit value];
         ast.Comment := Some {| ast.List := ["// " +:+ comment];
                                ast.Text := comment +:+ nl |} |} in
  {| ast.GenDoc := Some {| ast.List := ["// @ai 邮件发送状态枚举"];
                           ast.Text := "@ai 邮件发送状态枚举" +:+ nl |};
     ast.Tok := ast.CONST;
     ast.Specs := [ member "MailStatusPending" "1" "待发送";
                    member "MailStatusSending" "2" "发送中";
                    member "MailStatusCompleted" "3" "已完成";
                    member "MailStatusFailed" "4" "发送失败" ] |}.

Definition sampleFile : ast.File :=
  {| ast.PackageName := "test"; ast.Decls := [ast.DGenDecl mailStatus] |}.

Definition scanGo (node : ast.File) (relPath : string) (p : Parser) : Parser :=
  @parseFile asciiTables node relPath p.

Definition mailStatusTags : list string :=
  [ "completed"; "failed"; "mail"; "pending"; "sending"; "status";
    "status 邮件发送状态枚举"; "发送中"; "发送失败"; "已完成"; "待发送";
    "邮件发送状态枚举" ].

(** A group whose first member is named by one capitalised word. *)
Definition activeGroup : ast.GenDecl :=
  let member name value :=
    ast.SValueSpec
      {| ast.Doc := None; ast.Names := [name]; ast.Type_ := None;
         ast.Values := [ast.BasicLit value]; ast.Comment := None |} in
  {| ast.GenDoc := Some {| ast.List := ["// @ai state"]; ast.Text := "@ai state" +:+ nl |};
     ast.Tok := ast.CONST;
     ast.Specs := [ member "Active" "1"; member "Inactive" "2" ] |}.

Definition sampleGroup (description : string) (names tags : list string) : EnumGroup.t :=
  {| EnumGroup.Name := "Mode x"; EnumGroup.Description := description;
     EnumGroup.Package := "test"; EnumGroup.File := "a.go"; EnumGroup.Type_ := "const";
     EnumGroup.Items :=
       (λ name, {| EnumItem.Name := name; EnumItem.Value := None;
                   EnumItem.Comment := description;
                   EnumItem.Description := ""; EnumItem.Example := "" |}) <$> names;
     EnumGroup.Tags := tags; EnumGroup.Category := "模式" |}.

Definition mailStatusGroup : EnumGroup.t :=
  let item name value comment :=
    {| EnumItem.Name := name; EnumItem.Value := Some value; EnumItem.Comment := comment;
       EnumItem.Description := ""; EnumItem.Example := "" |} in
  {| EnumGroup.Name := "MailStatus 邮件发送状态枚举";
     EnumGroup.Description := "邮件发送状态枚举";
     EnumGroup.Package := "test"; EnumGroup.File := "test/test.go";
     EnumGroup.Type_ := "const";
     EnumGroup.Items := [ item "MailStatusPending" "1" "待发送";
                          item "MailStatusSending" "2" "发送中";
                          item "MailStatusCompleted" "3" "已完成";
                          item "MailStatusFailed" "4" "发送失败" ];
     EnumGroup.Tags := mailStatusTags;
     EnumGroup.Category := "状态" |}.

Definition createA : string := "CREATE TABLE a (x int);".

(** [w] occurs in [s]. *)
Definition piece (w s : string) : Prop := ∃ a b, s = a +:+ w +:+ b.

(** A group of the registry as a scan leaves it. *)
Definition groupWellFormed (name : string) (group : EnumGroup.t) : Prop :=
  EnumGroup.Name group = name
  ∧ EnumGroup.Items group ≠ []
  ∧ (EnumGroup.Type_ group = "const" ∨ EnumGroup.Type_ group = "var").

(** Tables are stored under their own name. *)
Definition tablesKeyed (m : gmap string TableComment.t) : Prop :=
  ∀ name table, m !! name = Some table → TableComment.TableName table = name.

(** The ways a statement names table [t]: bare or quoted, with or without
    the schema [public]. *)
Definition tableRef (withSchema withQuotes : bool) (t : string) : string :=
  match withSchema, withQuotes with
  | false, false => t
  | true, false => "public." +:+ t
  | false, true => quoted t
  | true, true => quoted "public" +:+ "." +:+ quoted t
  end.

Definition commentOnTable (ref text trailer : string) : string :=
  "COMMENT ON TABLE " +:+ ref +:+ " IS '" +:+ text +:+ "'" +:+ trailer.

(** The registry after a comment for table [t] went in. *)
Definition withTableComment (p : Parser) (t comment : string) : Parser :=
  set_dbComments p
    (<[t := match dbComments p !! t with
            | Some table => TableComment.set_Comment table comment
            | None => {| TableComment.TableName := t;
                         TableComment.Comment := comment;
                         TableComment.Fields := [] |}
            end]> (dbComments p)).

(** A word as [splitCamelCase] cuts it from an ASCII name: not empty, and
    no capital letter after its first character. *)
Definition camelWord (w : string) : Prop :=
  ∃ x tail, w = String x tail ∧ sall (λ c, negb (isUpperASCII c)) tail = true.

Definition capitalised (w : string) : Prop :=
  ∃ x tail, w = String x tail ∧ isUpperASCII x = true.

(** What a later scan may do to a group of the registry: members are added
    at the end, tags are added, the description is extended; the rest
    stays. *)
Definition groupGrows (g g' : EnumGroup.t) : Prop :=
  EnumGroup.Name g' = EnumGroup.Name g
  ∧ EnumGroup.Package g' = EnumGroup.Package g
  ∧ EnumGroup.File g' = EnumGroup.File g
  ∧ EnumGroup.Type_ g' = EnumGroup.Type_ g
  ∧ EnumGroup.Category g' = EnumGroup.Category g
  ∧ EnumGroup.Items g `prefix_of` EnumGroup.Items g'
  ∧ EnumGroup.Tags g ⊆ EnumGroup.Tags g'
  ∧ ∃ more, EnumGroup.Description g' = EnumGroup.Description g +:+ more.

(** A byte of a table name in a [CREATE TABLE] statement: as [identByte],
    and no opening parenthesis. *)
Definition nameByte (x : ascii) : bool :=
  identByte x && negb (bool_decide (x = lparen)).

Definition createTable (ifNotExists : bool) (ref body trailer : string) : string :=
  "CREATE TABLE " +:+ (if ifNotExists then "IF NOT EXISTS " else "")
    +:+ ref +:+ " (" +:+ body +:+ ")" +:+ trailer.

(** The byte-order mark of UTF-8. *)
Definition byteOrderMark : string :=
  Eval cbv in String (chr 0xEF) (String (chr 0xBB) (str1 (chr 0xBF))).

(** The words [generateTags] takes its tags from: the name and the
    description of the group, then the name and the comment of each member. *)
Definition tagWords `{UnicodeTables} (group : EnumGroup.t) : list string :=
  splitCamelCase (EnumGroup.Name group)
  ++ extractKeywords (EnumGroup.Description group)
  ++ (EnumGroup.Items group ≫=
        λ item, splitCamelCase (EnumItem.Name item) ++ extractKeywords (EnumItem.Comment item)).

(** The text [ToMarkdown] writes for the group under [key]. *)
Definition enumText (p : Parser) (key : string) : string :=
  match enums p !! key with
  | Some enum => writeEnum "" enum
  | None => ""
  end.

(** A line [splitSQLStatements] passes over: blank, a line comment, or a
    line that opens a block comment and does not close it. *)
Definition skippedLine (line : string) : bool :=
  let trimmedLine := strings.TrimSpace line in
  is_empty trimmedLine
  || strings.HasPrefix trimmedLine "--"
  || (strings.Contains trimmedLine "/*" && negb (strings.Contains trimmedLine "*/")).

(** A byte that is no line break. *)
Definition inLine (x : ascii) : bool :=
  negb (bool_decide (x = chr 10)) && negb (bool_decide (x = chr 13)).

(** A statement written on one line: no white space around it, no line
    break and no comment marker in it, a semicolon at its end. *)
Definition statementLine (stmt : string) : Prop :=
  strings.TrimSpace stmt = stmt
  ∧ sall inLine stmt = true
  ∧ strings.Index stmt "--" = None
  ∧ strings.Contains stmt "/*" = false
  ∧ strings.HasSuffix stmt ";" = true.

(** A clause of a column list as it stands in a statement: its parentheses
    balance, and each of its commas stands inside parentheses. *)
Definition clauseText (clause : string) : Prop := depthAfter 0 clause = Some 0%Z.

(** The column stored for a clause: what [parseFieldDef] makes of it, named
    by the first word of the clause without its double quotes, and with no
    comment yet. *)
Definition columnField (clause : string) (field : FieldComment.t) : Prop :=
  parseFieldDef clause = Some field
  ∧ FieldComment.Comment field = ""
  ∧ ∃ name rest,
      strings.Fields (strings.TrimSpace clause) = name :: rest
      ∧ FieldComment.FieldName field = strings.Trim name (str1 dquote).

(** Two statements with a string literal in the column list. *)
Definition createQuotedParen : string :=
  "CREATE TABLE t (a text DEFAULT ')', b int, c int);".
Definition createQuotedComma : string :=
  "CREATE TABLE t (a text DEFAULT 'x, y z', b int);".

Definition column (name type : string) : FieldComment.t :=
  {| FieldComment.FieldName := name; FieldComment.FieldType := type;
     FieldComment.Comment := "" |}.

(** * Properties *)

(** ** Strings *)

Lemma app_nil_r_s (s : string) : s +:+ "" = s.
Proof. induction s as [|c s IH]; [done|]. cbn. by rewrite IH. Qed.

Lemma app_assoc_s (a b c : string) : (a +:+ b) +:+ c = a +:+ (b +:+ c).
Proof. induction a as [|x a IH]; [done|]. cbn. by rewrite IH. Qed.

Lemma app_cons_s (x : ascii) (a b : string) : String x a +:+ b = String x (a +:+ b).
Proof. done. Qed.

Lemma length_app_s (a b : string) :
  String.length (a +:+ b) = String.length a + String.length b.
Proof. induction a as [|x a IH]; [done|]. cbn. by rewrite IH. Qed.

Lemma stake_app_s (a b : string) : stake (String.length a) (a +:+ b) = a.
Proof. induction a as [|x a IH]; cbn; [by destruct b|]. by rewrite IH. Qed.

Lemma sdrop_app_s (a b : string) : sdrop (String.length a) (a +:+ b) = b.
Proof. induction a as [|x a IH]; cbn; [done|]. by rewrite IH. Qed.

Lemma stake_sdrop (n : nat) (s : string) : stake n s +:+ sdrop n s = s.
Proof.
  revert s. induction n as [|n IH]; intros [|c s]; cbn; try done. by rewrite IH.
Qed.

(** Appends brought to one shape: nested to the right, literals unfolded. *)
Ltac snorm :=
  repeat (progress (cbn [String.append]; rewrite ?app_assoc_s, ?app_nil_r_s)).

Lemma is_empty_true (s : string) : is_empty s = true ↔ s = "".
Proof. destruct s; cbn; naive_solver. Qed.

Lemma is_empty_app (a b : string) : is_empty (a +:+ b) = is_empty a && is_empty b.
Proof. by destruct a. Qed.

(** ** The source annotation scanner *)

Section EnumFacts.
Context `{UnicodeTables}.

Lemma prefix_loop_capital (c : ascii) (tail : string) (n : nat) :
  isUpperASCII c = true →
  sall (λ x, negb (isUpperASCII x)) tail = true →
  0 < n ≤ S (String.length tail) →
  prefix_loop (String c tail) n = "".
Proof.
  intros Hc Htail. induction n as [|i IH]; [lia|]. intros Hn.
  cbn [prefix_loop]. destruct i as [|i].
  - cbn. by rewrite Hc.
  - cbn [String.get].
    assert (∀ (t : string) (j : nat),
               sall (λ x, negb (isUpperASCII x)) t = true → j < String.length t →
               ∃ x, String.get j t = Some x ∧ isUpperASCII x = false) as Hget.
    { clear. induction t as [|y t IHt]; intros j Hall Hj; cbn in *; [lia|].
      apply andb_prop in Hall as [Hy Ht]. destruct j as [|j].
      - exists y. split; [done|]. by apply negb_true_iff.
      - apply IHt; [done|lia]. }
    destruct (Hget tail i Htail) as (x & -> & ->); [lia|].
    apply IH. lia.
Qed.

Lemma names_loop_length vspec gc i names items :
  length (names_loop vspec gc i names items) = length items + length names.
Proof.
  revert i items. induction names as [|n names IH]; intros i items; cbn; [lia|].
  rewrite IH, length_app. cbn. lia.
Qed.

Lemma specs_loop_length_ge gc specs items :
  length items ≤ length (specs_loop gc specs items).
Proof.
  revert items. induction specs as [|[v|] specs IH]; intros items; cbn; [lia| |by apply IH].
  etrans; [|apply IH]. rewrite names_loop_length. lia.
Qed.

(** C10: a group that is not named by a type annotation and whose first
    member's name has its only capital letter in front, like [Active], gets
    the empty base name, so the name of the group is a space followed by the
    description. *)
Theorem getEnumGroupName_single_capital
    (gen : ast.GenDecl) (spec : ast.ValueSpec) (rest : list ast.Spec)
    (c : ascii) (tail : string) (more : list string)
    (docComment pkgName filePath : string) :
  ¬ namedByType gen →
  ast.Specs gen = ast.SValueSpec spec :: rest →
  ast.Names spec = String c tail :: more →
  isUpperASCII c = true →
  sall (λ x, negb (isUpperASCII x)) tail = true →
  getEnumGroupName gen = ""
  ∧ ∃ group, parseEnumGroup gen docComment pkgName filePath = Some group
             ∧ EnumGroup.Name group = " " +:+ docComment.
Proof.
  intros Hnot Hspecs Hnames Hc Htail.
  assert (getEnumGroupName gen = "") as Hname.
  { unfold getEnumGroupName. rewrite Hspecs.
    assert (match rest with
            | [] => match ast.Type_ spec with
                    | Some (ast.Ident name) => Some name
                    | _ => None
                    end
            | _ :: _ => None
            end = None) as ->.
    { destruct rest as [|? ?]; [|done].
      destruct (ast.Type_ spec) as [[name| | |]|] eqn:Hty; try done.
      exfalso. apply Hnot. by exists spec, name. }
    rewrite Hnames. apply prefix_loop_capital; [done..|]. cbn. lia. }
  split; [done|].
  unfold parseEnumGroup. rewrite Hname.
  assert (0 < length (parseEnumItems gen docComment)) as Hlen.
  { unfold parseEnumItems. rewrite Hspecs. cbn [specs_loop].
    eapply Nat.lt_le_trans; [|apply specs_loop_length_ge].
    rewrite names_loop_length, Hnames. cbn. lia. }
  apply Nat.ltb_lt in Hlen. rewrite Hlen. eexists. split; [done|]. done.
Qed.

Lemma itemComment_cases vspec gc :
  (∀ c, ast.Comment vspec = Some c → itemComment vspec gc = strings.TrimSpace (ast.Text c))
  ∧ (∀ d, ast.Comment vspec = None → ast.Doc vspec = Some d →
       itemComment vspec gc = strings.TrimSpace (ast.Text d))
  ∧ (ast.Comment vspec = None → ast.Doc vspec = None → itemComment vspec gc = gc).
Proof.
  unfold itemComment. repeat split.
  - by intros c ->.
  - by intros d -> ->.
  - intros -> ->. by destruct gc.
Qed.

Lemma names_loop_spec vspec gc names :
  ∀ i items, ∃ its,
    names_loop vspec gc i names items = items ++ its
    ∧ length its = length names
    ∧ ∀ j name, names !! j = Some name →
        ∃ item, its !! j = Some item
          ∧ EnumItem.Name item = name
          ∧ EnumItem.Comment item = itemComment vspec gc.
Proof.
  induction names as [|n names IH]; intros i items; cbn [names_loop].
  - exists []. rewrite app_nil_r. split; [done|]. split; [done|]. by intros j name.
  - destruct (IH (S i) (items ++ [{|
       EnumItem.Name := n; EnumItem.Value := itemValue vspec i;
       EnumItem.Comment := itemComment vspec gc;
       EnumItem.Description := ""; EnumItem.Example := "" |}]))
      as (its & Heq & Hlen & Hits).
    eexists (_ :: its). rewrite Heq, <- app_assoc. split; [done|].
    split; [cbn; by rewrite Hlen|].
    intros [|j] name Hj; cbn in *.
    + injection Hj as <-. eexists. by repeat split.
    + by apply Hits.
Qed.

Lemma specs_loop_spec gc specs :
  ∀ items, ∃ parts,
    specs_loop gc specs items = items ++ concat parts
    ∧ Forall2 (membersOf gc) specs parts.
Proof.
  induction specs as [|[vspec|] specs IH]; intros items; cbn [specs_loop].
  - exists []. cbn. rewrite app_nil_r. split; [done|constructor].
  - destruct (names_loop_spec vspec gc (ast.Names vspec) 0 items) as (its & Heq & Hlen & Hits).
    destruct (IH (names_loop vspec gc 0 (ast.Names vspec) items)) as (parts & Heq' & Hparts).
    exists (its :: parts). rewrite Heq', Heq, <- app_assoc. split; [done|].
    constructor; [|done]. split; [done|].
    intros i name Hi. destruct (Hits i name Hi) as (item & Hl & Hn & Hc).
    exists item. destruct (itemComment_cases vspec gc) as (H1 & H2 & H3).
    rewrite Hc. repeat split; auto.
  - destruct (IH items) as (parts & Heq & Hparts).
    exists ([] :: parts). cbn. split; [done|]. by constructor.
Qed.

(** C9: the members of an annotated group come out spec by spec, in
    declaration order, one per declared name; a member of a spec with a
    trailing same-line comment records exactly that comment, trimmed of white
    space; the documentation comment of the spec is used only when there is
    no same-line comment, and the description of the group only when there
    is neither. *)
Theorem parseEnumItems_comment (gen : ast.GenDecl) (groupComment : string) :
  ∃ parts : list (list EnumItem.t),
    parseEnumItems gen groupComment = concat parts
    ∧ Forall2 (membersOf groupComment) (ast.Specs gen) parts.
Proof.
  destruct (specs_loop_spec groupComment (ast.Specs gen) []) as (parts & Heq & Hparts).
  exists parts. by split.
Qed.

End EnumFacts.

(** ** The text-encoding resolver *)

Section ResolverFacts.
Context `{Decoders}.

(** C5: [decodeComment] returns for every input, and what it returns is the
    input itself when that is valid UTF-8, else the first of the GBK, Big5
    and GB18030 decodings, tried in this order, that succeeded with a valid
    UTF-8 result, else the input as it came. *)
Theorem decodeComment_resolves (s : string) :
  decodeComment s = resolveEncoding s
  ∧ (utf8.ValidString s = true → decodeComment s = s)
  ∧ (decodeComment s ≠ s → utf8.ValidString (decodeComment s) = true).
Proof.
  unfold decodeComment, resolveEncoding, attempt. cbn [firstDecoded].
  destruct (utf8.ValidString s) eqn:Hs; [by repeat split|].
  destruct (GBK s) as [g|]; [destruct (utf8.ValidString g) eqn:Hg|];
    [by repeat split| |];
    (destruct (Big5 s) as [b|]; [destruct (utf8.ValidString b) eqn:Hb|];
     [by repeat split| |]);
    (destruct (GB18030 s) as [x|]; [destruct (utf8.ValidString x) eqn:Hx|];
     by repeat split).
Qed.

End ResolverFacts.

(** ** Sorting *)

Lemma sort_Strings_sorted (l : list string) : StronglySorted String.le (sort.Strings l).
Proof. apply (StronglySorted_merge_sort String.le). Qed.

Lemma sort_Strings_perm (l : list string) : sort.Strings l ≡ₚ l.
Proof. apply merge_sort_Permutation. Qed.

Lemma sort_Strings_ascending (l : list string) : NoDup l → ascending (sort.Strings l).
Proof.
  intros Hl. split; [apply sort_Strings_sorted|].
  by rewrite sort_Strings_perm.
Qed.

(** Whatever order the elements come in, sorting gives the same list. *)
Lemma sort_Strings_order (l1 l2 : list string) :
  l1 ≡ₚ l2 → sort.Strings l1 = sort.Strings l2.
Proof.
  intros Hl. apply (StronglySorted_unique String.le).
  - apply sort_Strings_sorted.
  - apply sort_Strings_sorted.
  - by rewrite !sort_Strings_perm.
Qed.

Lemma elem_of_sort_Strings (x : string) (l : list string) : x ∈ sort.Strings l ↔ x ∈ l.
Proof. by rewrite sort_Strings_perm. Qed.

(** ** The enumeration metadata engine *)

Lemma fold_left_append_if {A} (keep : A → bool) (l acc : list A) :
  fold_left (λ acc x, if keep x then acc ++ [x] else acc) l acc
  = acc ++ filter (λ x, keep x = true) l.
Proof.
  revert acc. induction l as [|x l IH]; intros acc; cbn [fold_left].
  - by rewrite app_nil_r.
  - rewrite IH. rewrite filter_cons. destruct (keep x) eqn:Hx.
    + rewrite decide_True by done. by rewrite <- app_assoc.
    + rewrite decide_False by congruence. done.
Qed.

Section MetadataFacts.
Context `{UnicodeTables}.

Lemma mergeEnumGroup_Items (existing new : EnumGroup.t) :
  EnumGroup.Items (mergeEnumGroup existing new)
  = EnumGroup.Items existing
    ++ filter (λ item, EnumItem.Name item ∉ EnumItem.Name <$> EnumGroup.Items existing)
              (EnumGroup.Items new).
Proof.
  cbn. rewrite (fold_left_append_if
    (λ item, negb (bool_decide
       (EnumItem.Name item ∈ (list_to_set (EnumItem.Name <$> EnumGroup.Items existing)
                               : gset string))))).
  f_equal. apply list_filter_iff. intros item.
  rewrite negb_true_iff, bool_decide_eq_false, elem_of_list_to_set. done.
Qed.

Lemma mergeEnumGroup_Tags (existing new : EnumGroup.t) :
  EnumGroup.Tags (mergeEnumGroup existing new)
  = sort.Strings (EnumGroup.Tags existing
                  ++ filter (λ tag, tag ∉ EnumGroup.Tags existing) (EnumGroup.Tags new)).
Proof.
  cbn. rewrite (fold_left_append_if
    (λ tag, negb (bool_decide (tag ∈ (list_to_set (EnumGroup.Tags existing) : gset string))))).
  do 2 f_equal. apply list_filter_iff. intros tag.
  rewrite negb_true_iff, bool_decide_eq_false, elem_of_list_to_set. done.
Qed.

Lemma mergeEnumGroup_Tags_ascending (existing new : EnumGroup.t) :
  NoDup (EnumGroup.Tags existing) → NoDup (EnumGroup.Tags new) →
  ascending (EnumGroup.Tags (mergeEnumGroup existing new)).
Proof.
  intros He Hn. rewrite mergeEnumGroup_Tags. apply sort_Strings_ascending.
  apply NoDup_app. split; [done|]. split.
  - intros tag Hin Hin'. by apply list_elem_of_filter in Hin' as [? _].
  - by apply NoDup_filter.
Qed.


Lemma generateTags_ascending (group : EnumGroup.t) : ascending (generateTags group).
Proof. apply sort_Strings_ascending, NoDup_elements. Qed.

Lemma addGroup_tagsAscending (p : Parser) (group : EnumGroup.t) :
  tagsAscending p → tagsAscending (addGroup p group).
Proof.
  intros Hp name g. unfold addGroup. cbn [set_Tags_Category EnumGroup.Name EnumGroup.Tags].
  destruct (enums p !! EnumGroup.Name group) as [existing|] eqn:Hex; cbn [enums set_enums];
    (destruct (decide (EnumGroup.Name group = name)) as [->|Hne];
     [rewrite lookup_insert_eq|rewrite lookup_insert_ne by done; by apply Hp]);
    intros [= <-].
  - apply mergeEnumGroup_Tags_ascending.
    + by apply (Hp _ _ Hex).
    + apply generateTags_ascending.
  - apply generateTags_ascending.
Qed.

Lemma parseFile_tagsAscending (node : ast.File) (relPath : string) (p : Parser) :
  tagsAscending p → tagsAscending (parseFile node relPath p).
Proof.
  unfold parseFile. revert p.
  induction (ast.Decls node) as [|decl decls IH]; intros p Hp; [done|].
  cbn [fold_left]. apply IH. clear IH.
  destruct decl as [gen|]; [|done]. unfold parseDecl.
  assert (∀ comments, tagsAscending
            (doc_loop gen (ast.PackageName node) relPath comments p)) as Hloop.
  { induction comments as [|text comments IHc]; cbn [doc_loop]; [done|].
    destruct (strings.Contains text "@ai"); [|done].
    destruct (parseEnumGroup _ _ _ _); [|done]. by apply addGroup_tagsAscending. }
  destruct (ast.Tok gen), (ast.GenDoc gen); try done; apply Hloop.
Qed.

End MetadataFacts.

(** The SQL scan leaves the enumeration registry alone. *)
Section SQLFrame.
Context `{UnicodeTables} `{Decoders}.

Lemma parseCreateTableByString_enums (stmt : string) (p : Parser) :
  enums (after (parseCreateTableByString stmt p) p) = enums p.
Proof. unfold parseCreateTableByString. by repeat case_match. Qed.

Lemma parseCommentByString_enums (stmt : string) (p : Parser) :
  enums (after (parseCommentByString stmt p) p) = enums p.
Proof. unfold parseCommentByString. by repeat case_match. Qed.

Lemma parseSQLFile_enums (content : string) (p : Parser) :
  enums (parseSQLFile content p) = enums p.
Proof.
  unfold parseSQLFile. generalize (splitSQLStatements
    (strings.TrimPrefix
       (strings.ReplaceAll content (String (chr 13) (str1 (chr 10))) (str1 (chr 10)))
       (String (chr 239) (String (chr 187) (str1 (chr 191)))))).
  intros stmts. revert p. induction stmts as [|stmt stmts IH]; intros p; [done|].
  cbn [fold_left]. rewrite IH. unfold parseStatement.
  repeat case_match; auto using parseCreateTableByString_enums, parseCommentByString_enums.
Qed.

(** C7: in every registry a scan can reach, every enumeration group has its
    tags in ascending order without repetition: tag generation leaves them
    so, and so does every merge. *)
Theorem scanned_tags_ascending (p : Parser) :
  scanned p →
  ∀ name group, enums p !! name = Some group → ascending (EnumGroup.Tags group).
Proof.
  induction 1 as [|node relPath p _ IH|content p _ IH].
  - intros name group. cbn. by rewrite lookup_empty.
  - by apply parseFile_tagsAscending.
  - intros name group. rewrite parseSQLFile_enums. apply IH.
Qed.

End SQLFrame.

(** ** The document renderer *)

Lemma HasPrefix_app (a b : string) : strings.HasPrefix (a +:+ b) a = true.
Proof.
  induction a as [|c a IH]; cbn; [by destruct b|].
  destruct (ascii_dec c c); [done|congruence].
Qed.

Lemma fold_left_write {A} (w : string → A → string) (l : list A) (md : string) :
  (∀ md x, w md x = md +:+ w "" x) →
  fold_left w l md = md +:+ fold_left w l "".
Proof.
  intros Hw. revert md. induction l as [|x l IH]; intros md; cbn [fold_left].
  - by rewrite app_nil_r_s.
  - rewrite IH, (IH (w "" x)), (Hw md x). by rewrite app_assoc_s.
Qed.

Lemma writeField_app (md : string) (field : FieldComment.t) :
  writeField md field = md +:+ writeField "" field.
Proof. done. Qed.

Lemma writeTable_app (p : Parser) (md tableName : string) :
  writeTable p md tableName = md +:+ tableText p tableName.
Proof.
  unfold tableText, writeTable.
  rewrite (fold_left_write writeField _ _ writeField_app).
  rewrite (fold_left_write writeField _ ((if negb _ then _ else _) +:+ _) writeField_app).
  destruct (negb _); by snorm.
Qed.

Lemma tableText_heading (p : Parser) (tableName : string) :
  strings.HasPrefix (tableText p tableName) ("## " +:+ tableName) = true.
Proof.
  unfold tableText, writeTable.
  rewrite (fold_left_write writeField _ _ writeField_app).
  destruct (negb _); snorm; cbn [strings.HasPrefix];
    repeat (destruct (ascii_dec _ _); [|done]); apply HasPrefix_app.
Qed.

Lemma fold_left_writeTable (p : Parser) (names : list string) (md : string) :
  fold_left (writeTable p) names md = md +:+ sconcat (tableText p <$> names).
Proof.
  revert md. induction names as [|n names IH]; intros md; cbn [fold_left fmap list_fmap sconcat].
  - by rewrite app_nil_r_s.
  - by rewrite IH, writeTable_app, app_assoc_s.
Qed.

Lemma ToMarkdown_sections (p : Parser) (enumKeys tableKeys : list string) :
  ToMarkdown enumKeys tableKeys p
  = if (0 <? size (dbComments p)) then
      fold_left (writeTable p) (tableOrder tableKeys)
        (enumsText enumKeys p +:+ "# 数据库表" +:+ nl +:+ nl)
    else enumsText enumKeys p.
Proof. unfold ToMarkdown, enumsText. by destruct (0 <? size (enums p)). Qed.

(** C8: the table section of the document lists the tables in strictly
    ascending order of their names, the order being a function of the
    registry alone: neither the order in which this run ranged over the map
    nor the order in which the tables went into it has a part in it. *)
Theorem ToMarkdown_tables_ascending
    (p : Parser) (enumKeys tableKeys : list string) :
  keyOrder (dbComments p) tableKeys →
  let names := sort.Strings (elements (dom (dbComments p))) in
  ToMarkdown enumKeys tableKeys p
  = enumsText enumKeys p
    +:+ (if decide (dbComments p = ∅) then ""
         else "# 数据库表" +:+ nl +:+ nl +:+ sconcat (tableText p <$> names))
  ∧ ascending names
  ∧ (∀ tableName, tableName ∈ names ↔ is_Some (dbComments p !! tableName))
  ∧ (∀ tableName, strings.HasPrefix (tableText p tableName) ("## " +:+ tableName) = true).
Proof.
  intros Hkeys names. split; [|split; [|split]].
  - rewrite ToMarkdown_sections.
    destruct (decide (dbComments p = ∅)) as [Hempty|Hne].
    + by rewrite Hempty, map_size_empty, app_nil_r_s.
    + assert (0 < size (dbComments p)) as Hsize.
      { apply Nat.neq_0_lt_0. by rewrite map_size_empty_iff. }
      apply Nat.ltb_lt in Hsize. rewrite Hsize.
      rewrite fold_left_writeTable. unfold tableOrder.
      rewrite (sort_Strings_order tableKeys (elements (dom (dbComments p))) Hkeys).
      by rewrite app_assoc_s.
  - apply sort_Strings_ascending, NoDup_elements.
  - intros tableName. unfold names.
    by rewrite elem_of_sort_Strings, elem_of_elements, elem_of_dom.
  - apply tableText_heading.
Qed.

(** The registry built from a list of entries, one per table name, is the
    same whatever the order of the entries. *)
Lemma registry_insertion_order (l1 l2 : list (string * TableComment.t)) :
  NoDup l1.*1 → l1 ≡ₚ l2 →
  (list_to_map l1 : gmap string TableComment.t) = list_to_map l2.
Proof. apply list_to_map_proper. Qed.

(** ** Bytes, runes and the [strings] functions on ASCII text *)

Lemma chr_byte (c : ascii) : chr (byte c) = c.
Proof. unfold chr, byte. by rewrite N2Z.id, ascii_N_embedding. Qed.

Lemma byte_range (c : ascii) : (0 ≤ byte c < 256)%Z.
Proof.
  unfold byte. pose proof (N_ascii_bounded c). lia.
Qed.

Lemma byte_chr (z : Z) : (0 ≤ z < 256)%Z → byte (chr z) = z.
Proof.
  intros Hz. unfold chr, byte. rewrite N_ascii_embedding; lia.
Qed.

Lemma DecodeRune_ASCII (c : ascii) (t : string) :
  isASCII c = true → utf8.DecodeRuneInString (String c t) = (byte c, 1).
Proof.
  unfold isASCII. intros Hc. unfold utf8.DecodeRuneInString, utf8.first. by rewrite Hc.
Qed.

Lemma EncodeRune_ASCII (r : Z) : (0 ≤ r < 0x80)%Z → utf8.EncodeRune r = str1 (chr r).
Proof.
  intros Hr. unfold utf8.EncodeRune.
  replace ((0 <=? r)%Z && (r <=? 127)%Z) with true; [done|].
  symmetry. apply andb_true_iff. split; [apply Z.leb_le|apply Z.leb_le]; lia.
Qed.

Section UpperFacts.
Context `{UnicodeTables}.

Lemma unicode_ToUpper_ASCII (c : ascii) :
  isASCII c = true → unicode.ToUpper (byte c) = regexp.upperByte (byte c).
Proof.
  unfold isASCII, unicode.ToUpper, unicode.MaxASCII, regexp.upperByte. intros Hc.
  apply Z.ltb_lt in Hc.
  replace (byte c <=? 127)%Z with true; [done|]. symmetry. apply Z.leb_le. lia.
Qed.

Lemma upperByte_range (b : Z) : (0 ≤ b < 0x80)%Z → (0 ≤ regexp.upperByte b < 0x80)%Z.
Proof.
  unfold regexp.upperByte. intros Hb.
  destruct ((97 <=? b)%Z && (b <=? 122)%Z) eqn:Hcase; [|lia].
  apply andb_prop in Hcase as [H1%Z.leb_le H2%Z.leb_le]. lia.
Qed.

Lemma ToUpper_ASCII_cons (c : ascii) (t : string) :
  isASCII c = true →
  strings.ToUpper (String c t)
  = String (chr (regexp.upperByte (byte c))) (strings.ToUpper t).
Proof.
  intros Hc. unfold strings.ToUpper, strings.Map. cbn [strings.map_from].
  rewrite DecodeRune_ASCII by done. cbn [fst snd].
  rewrite unicode_ToUpper_ASCII by done.
  pose proof (byte_range c) as Hr. unfold isASCII in Hc. apply Z.ltb_lt in Hc.
  pose proof (upperByte_range (byte c)) as Hu.
  replace (regexp.upperByte (byte c) <? 0)%Z with false
    by (symmetry; apply Z.ltb_ge; lia).
  rewrite EncodeRune_ASCII by lia. done.
Qed.

Lemma byte_inj (a b : ascii) : byte a = byte b → a = b.
Proof. intros Hab. by rewrite <- (chr_byte a), <- (chr_byte b), Hab. Qed.

Lemma foldEq_capital (k c : ascii) :
  capital k = true → regexp.foldEq k c = true →
  isASCII c = true ∧ regexp.upperByte (byte c) = byte k.
Proof.
  unfold capital, regexp.foldEq, isASCII.
  intros [Hk Hup]%andb_prop Hc. apply Z.ltb_lt in Hk. apply Z.eqb_eq in Hup.
  destruct (regexp.isLetter (byte k)).
  - apply Z.eqb_eq in Hc. rewrite Hup in Hc. split; [|done].
    apply Z.ltb_lt. pose proof (byte_range c). unfold regexp.upperByte in Hc.
    destruct ((97 <=? byte c)%Z && (byte c <=? 122)%Z) eqn:Hcase; [|lia].
    apply andb_prop in Hcase as [_ H2%Z.leb_le]. lia.
  - apply bool_decide_eq_true in Hc as ->. split; [by apply Z.ltb_lt|done].
Qed.

(** A clause that begins with a keyword in capital letters, whatever the
    case of its own letters, begins with it literally once in upper case. *)
Lemma beginsWith_HasPrefix_ToUpper (keyword clause : string) :
  sall capital keyword = true →
  beginsWith keyword clause = true →
  strings.HasPrefix (strings.ToUpper clause) keyword = true.
Proof.
  revert clause. induction keyword as [|k keyword IH]; intros clause Hk Hb.
  - by destruct (strings.ToUpper clause).
  - destruct clause as [|c clause]; [done|]. cbn in Hk, Hb.
    apply andb_prop in Hk as [Hk Hk']. apply andb_prop in Hb as [Hc Hb].
    destruct (foldEq_capital k c Hk Hc) as [Hasc Hup].
    rewrite ToUpper_ASCII_cons by done. rewrite Hup, chr_byte.
    cbn [strings.HasPrefix]. destruct (ascii_dec k k); [|done]. by apply IH.
Qed.

Lemma beginsWith_skipped (clause : string) :
  beginsWith "PRIMARY KEY" clause = true ∨ beginsWith "CONSTRAINT" clause = true →
  skipped clause = true.
Proof.
  unfold skipped. intros [Hb|Hb].
  - rewrite (beginsWith_HasPrefix_ToUpper "PRIMARY KEY" clause eq_refl Hb).
    by rewrite orb_true_r.
  - rewrite (beginsWith_HasPrefix_ToUpper "CONSTRAINT" clause eq_refl Hb).
    by rewrite !orb_true_r.
Qed.

End UpperFacts.

(** Every field [strings.Fields] returns is a piece of the text: the index
    [parseFieldDef] asks [strings.Index] for is always found. *)

Lemma HasPrefix_app_r (w b : string) : strings.HasPrefix (w +:+ b) w = true.
Proof. apply HasPrefix_app. Qed.

Lemma Index_piece (w s : string) : piece w s → is_Some (strings.Index s w).
Proof.
  intros (a & b & ->). induction a as [|c a IH].
  - cbn [String.append]. destruct (w +:+ b) eqn:Heq; cbn [strings.Index].
    + destruct w; [by eexists|done].
    + rewrite <- Heq, HasPrefix_app_r. by eexists.
  - cbn [String.append strings.Index].
    destruct (strings.HasPrefix _ w); [by eexists|].
    destruct IH as [i ->]. by eexists.
Qed.

Lemma fields_from_piece (f : Z → bool) (s : string) :
  ∀ skip cur pre,
    (∀ w0, cur = Some w0 → ∃ a, pre = a +:+ w0) →
    ∀ w, w ∈ strings.fields_from f skip cur s → piece w (pre +:+ s).
Proof.
  induction s as [|c t IH]; intros skip cur pre Hcur w Hw.
  - cbn in Hw. destruct cur as [w0|]; cbn in Hw; [|by apply elem_of_nil in Hw].
    apply list_elem_of_singleton in Hw as ->.
    destruct (Hcur w0 eq_refl) as [a ->]. exists a, "". by snorm.
  - assert (pre +:+ String c t = (pre +:+ str1 c) +:+ t) as -> by by snorm.
    cbn [strings.fields_from] in Hw. destruct skip as [|k].
    + destruct (f _).
      * apply elem_of_app in Hw as [Hw|Hw].
        -- destruct cur as [w0|]; cbn in Hw; [|by apply elem_of_nil in Hw].
           apply list_elem_of_singleton in Hw as ->.
           destruct (Hcur w0 eq_refl) as [a ->]. exists a, (String c t). by snorm.
        -- eapply IH; [|exact Hw]. done.
      * eapply IH; [|done]. intros w0 [= <-]. destruct cur as [w1|]; cbn.
        -- destruct (Hcur w1 eq_refl) as [a ->]. exists a. by snorm.
        -- by exists pre.
    + eapply IH; [|done]. intros w0 Hw0. destruct cur as [w1|]; [|done].
      cbn in Hw0. injection Hw0 as <-.
      destruct (Hcur w1 eq_refl) as [a ->]. exists a. by snorm.
Qed.

Lemma Fields_piece (w s : string) : w ∈ strings.Fields s → piece w s.
Proof.
  intros Hw. apply (fields_from_piece unicode.IsSpace s 0 None ""); [done|done].
Qed.

Section CreateFacts.
Context `{UnicodeTables} `{Decoders}.

Lemma parseFieldDef_index (fieldDef : string) :
  is_Some (parseFieldDef fieldDef)
  ↔ 2 ≤ length (strings.Fields (strings.TrimSpace fieldDef)).
Proof.
  unfold parseFieldDef.
  destruct (strings.Fields (strings.TrimSpace fieldDef)) as [|part0 [|part1 parts]] eqn:Hf;
    cbn [length].
  - split; [by intros [? ?]|lia].
  - split; [by intros [? ?]|lia].
  - destruct (Index_piece part1 (strings.TrimSpace fieldDef)) as [i ->].
    { apply Fields_piece. rewrite Hf. set_solver. }
    split; [lia|]. by eexists.
Qed.

(** The loop over the clauses of a column list: an entry for each column
    clause, in the order of the clauses. *)
Lemma fold_addField (fieldDefs : list string) (fields : list FieldComment.t) :
  ∃ added,
    fold_left addField fieldDefs fields = fields ++ added
    ∧ Forall2 (λ clause field, parseFieldDef clause = Some field)
              (filter columnClause (strings.TrimSpace <$> fieldDefs)) added.
Proof.
  revert fields. induction fieldDefs as [|fieldDef fieldDefs IH]; intros fields.
  - exists []. by rewrite app_nil_r.
  - cbn [fold_left]. destruct (IH (addField fields fieldDef)) as (added & -> & Hadded).
    rewrite fmap_cons, filter_cons. unfold addField.
    destruct (skipped (strings.TrimSpace fieldDef)) eqn:Hskip.
    + rewrite decide_False by (intros [? _]; congruence). by exists added.
    + destruct (parseFieldDef (strings.TrimSpace fieldDef)) as [field|] eqn:Hparse.
      * rewrite decide_True.
        { exists (field :: added). rewrite <- app_assoc. split; [done|]. by constructor. }
        split; [done|]. apply parseFieldDef_index. by rewrite Hparse.
      * rewrite decide_False; [by exists added|].
        intros [_ Hlen]. apply parseFieldDef_index in Hlen as [? ?]. congruence.
Qed.

(** What [parseCreateTableByString] stores, in terms of what [splitFields]
    made of the column list: one column for each piece that is a column
    clause, in the order of the pieces. *)
Lemma parseCreateTableByString_stored
    (stmt : string) (p : Parser) (nameMatch bodyMatch : list string) :
  regexp.FindStringSubmatch tableNameRegex 1 stmt = Some nameMatch →
  regexp.FindStringSubmatch fieldsRegex 1 stmt = Some bodyMatch →
  let tableName :=
    strings.TrimPrefix (strings.Trim (nameMatch !!! 1) (str1 dquote)) "public." in
  let clauses := strings.TrimSpace <$> splitFields (bodyMatch !!! 1) in
  ∃ fields,
    parseCreateTableByString stmt p
    = Ok (set_dbComments p
            (<[tableName := {| TableComment.TableName := tableName;
                               TableComment.Comment := "";
                               TableComment.Fields := fields |}]> (dbComments p)))
    ∧ Forall2 (λ clause field, parseFieldDef clause = Some field)
              (filter columnClause clauses) fields
    ∧ ∀ clause,
        beginsWith "PRIMARY KEY" clause = true ∨ beginsWith "CONSTRAINT" clause = true →
        ¬ columnClause clause.
Proof.
  intros Hname Hbody tableName clauses.
  destruct (fold_addField (splitFields (bodyMatch !!! 1)) []) as (fields & Hfold & Hfields).
  exists fields. split; [|split].
  - unfold parseCreateTableByString. rewrite Hname, Hbody. by rewrite Hfold.
  - done.
  - intros clause Hb [Hskip _]. apply beginsWith_skipped in Hb. congruence.
Qed.

End CreateFacts.

(** ** Splitting a column list and reading a type *)

Lemma splitFields_loop_result (s : string) :
  ∀ r1 r2 current parenCount,
    splitFields_loop s (r1 ++ r2) current parenCount
    = r1 ++ splitFields_loop s r2 current parenCount.
Proof.
  induction s as [|c t IH]; intros r1 r2 current parenCount; cbn [splitFields_loop].
  - destruct (0 <? String.length current); by rewrite ?app_assoc.
  - repeat case_match; rewrite <- ?app_assoc; apply IH.
Qed.

Lemma splitFields_loop_app (u : string) :
  ∀ v result current parenCount d,
    depthAfter parenCount u = Some d →
    splitFields_loop (u +:+ v) result current parenCount
    = splitFields_loop v result (current +:+ u) d.
Proof.
  induction u as [|c u IH]; intros v result current parenCount d Hd.
  - cbn in Hd. injection Hd as <-. by snorm.
  - cbn [String.append splitFields_loop]. cbn [depthAfter] in Hd.
    assert (∀ x, (current +:+ str1 c) +:+ x = current +:+ String c x) as Hs
      by (intros; by snorm).
    repeat case_match; try done; rewrite (IH _ _ _ _ _ Hd); by rewrite Hs.
Qed.

(** A clause that ends at a comma at depth zero is split off there. *)
Lemma splitFields_clause (u v : string) :
  depthAfter 0 u = Some 0%Z →
  splitFields (u +:+ "," +:+ v) = u :: splitFields v.
Proof.
  intros Hd. unfold splitFields.
  rewrite (splitFields_loop_app u _ _ _ _ _ Hd). cbn.
  apply (splitFields_loop_result v [u] []).
Qed.

(** Text without a comma at depth zero is one clause. *)
Lemma splitFields_last (u : string) (d : Z) :
  depthAfter 0 u = Some d → u ≠ "" → splitFields u = [u].
Proof.
  intros Hd Hu. unfold splitFields.
  rewrite <- (app_nil_r_s u) at 1. rewrite (splitFields_loop_app u _ _ _ _ _ Hd).
  cbn. destruct u; done.
Qed.


Lemma wordByte_inv (c : ascii) :
  wordByte c = true →
  graphic c = true ∧ c ≠ lparen ∧ c ≠ rparen ∧ c ≠ comma.
Proof.
  unfold wordByte, notParen.
  rewrite !andb_true_iff, !negb_true_iff, !bool_decide_eq_false. tauto.
Qed.


Lemma graphic_not_blank (c : ascii) : graphic c = true → c ≠ blank.
Proof. by intros Hc ->. Qed.



Lemma extractType_loop_word (u : string) :
  ∀ v result parenCount,
    sall wordByte u = true →
    extractType_loop (u +:+ v) result parenCount
    = extractType_loop v (result +:+ u) parenCount.
Proof.
  induction u as [|c u IH]; intros v result parenCount Hu; [by snorm|].
  cbn in Hu. apply andb_prop in Hu as [Hc Hu].
  apply wordByte_inv in Hc as (Hg%graphic_not_blank & ? & ? & ?).
  cbn [String.append extractType_loop].
  rewrite bool_decide_eq_false_2 by done. cbn [andb].
  repeat case_match; try done. rewrite IH by done. by snorm.
Qed.



(** Text that begins and ends with an ASCII character other than white
    space has nothing to trim. *)
Lemma TrimSpace_graphic (c d : ascii) (t : string) :
  graphic c = true → slast (String c t) = Some d → graphic d = true →
  strings.TrimSpace (String c t) = String c t.
Proof.
  unfold graphic. intros [Hc Hc']%andb_prop Hlast [Hd Hd']%andb_prop.
  apply negb_true_iff in Hc', Hd'.
  unfold strings.TrimSpace, strings.TrimLeftFunc. cbn [strings.trimLeft_from].
  rewrite DecodeRune_ASCII by done. cbn [fst]. rewrite Hc'.
  unfold strings.TrimRightFunc. cbn [String.length strings.trimRight_loop is_empty].
  unfold utf8.DecodeLastRuneInString. rewrite Hlast.
  unfold isASCII, utf8.RuneSelf in *. rewrite Hd. cbn [fst]. by rewrite Hd'.
Qed.

Lemma fields_from_graphic_some (u : string) :
  ∀ v w, sall graphic u = true →
    strings.fields_from unicode.IsSpace 0 (Some w) (u +:+ v)
    = strings.fields_from unicode.IsSpace 0 (Some (w +:+ u)) v.
Proof.
  induction u as [|c u IH]; intros v w Hu; [by snorm|].
  cbn in Hu. apply andb_prop in Hu as [Hc Hu].
  unfold graphic in Hc. apply andb_prop in Hc as [Hc Hc']. apply negb_true_iff in Hc'.
  cbn [String.append strings.fields_from].
  rewrite DecodeRune_ASCII by done. cbn [fst snd]. rewrite Hc'.
  cbn [Nat.sub default]. rewrite IH by done. by snorm.
Qed.

Lemma fields_from_graphic_none (c : ascii) (u v : string) :
  sall graphic (String c u) = true →
  strings.fields_from unicode.IsSpace 0 None (String c u +:+ v)
  = strings.fields_from unicode.IsSpace 0 (Some (String c u)) v.
Proof.
  cbn [sall]. intros [Hc Hu]%andb_prop.
  unfold graphic in Hc. apply andb_prop in Hc as [Hc Hc']. apply negb_true_iff in Hc'.
  cbn [String.append strings.fields_from].
  rewrite DecodeRune_ASCII by done. cbn [fst snd]. rewrite Hc'.
  cbn [Nat.sub default]. rewrite fields_from_graphic_some by done. by snorm.
Qed.

Lemma fields_from_blank (w v : string) :
  strings.fields_from unicode.IsSpace 0 (Some w) (String blank v)
  = w :: strings.fields_from unicode.IsSpace 0 None v.
Proof. done. Qed.


Lemma HasPrefix_inv (s w : string) :
  strings.HasPrefix s w = true → ∃ r, s = w +:+ r.
Proof.
  revert s. induction w as [|x w IH]; intros s Hs; [by exists s|].
  destruct s as [|c s]; [done|]. cbn in Hs.
  destruct (ascii_dec c x) as [->|]; [|done].
  destruct (IH s Hs) as [r ->]. by exists r.
Qed.


Lemma Index_HasPrefix (s w : string) :
  strings.HasPrefix s w = true → strings.Index s w = Some 0.
Proof. intros Hp. destruct s; cbn [strings.Index]; by rewrite Hp. Qed.


Lemma sall_app (p : ascii → bool) (a b : string) :
  sall p (a +:+ b) = sall p a && sall p b.
Proof. induction a as [|c a IH]; [done|]. cbn. by rewrite IH, andb_assoc. Qed.

Lemma sall_impl (p q : ascii → bool) (s : string) :
  (∀ c, p c = true → q c = true) → sall p s = true → sall q s = true.
Proof.
  intros Hpq. induction s as [|c s IH]; [done|]. cbn.
  intros [Hc Hs]%andb_prop. by rewrite (Hpq c Hc), IH.
Qed.



Section TypeFacts.
Context `{UnicodeTables}.



End TypeFacts.

(** ** The matcher *)

Section RegexpFacts.
Import regexp.
Context {R : Type}.
Implicit Types (k : string → list string → option R) (c : list string).

Lemma run_seq_cons (r : re) (rs : list re) s c k :
  run (seq (r :: rs)) s c k = run r s c (λ s' c', run (seq rs) s' c' k).
Proof. done. Qed.

Lemma run_seq_nil s c k : run (seq []) s c k = k s c.
Proof. done. Qed.

Lemma run_Opt (r : re) s c k :
  run (Opt r) s c k = match run r s c k with Some v => Some v | None => k s c end.
Proof. done. Qed.

Lemma run_Cap (i : nat) (r : re) s c k :
  run (Cap i r) s c k = run r s c (λ s' c', k s' (<[i := consumed s s']> c')).
Proof. done. Qed.

Lemma run_lit1 (a : ascii) (t : string) c k : run (lit1 a) (String a t) c k = k t c.
Proof. cbn. unfold only. by rewrite bool_decide_eq_true_2. Qed.

Lemma upperByte_byte_ne (x : ascii) (u z : Z) :
  (0 ≤ z < 256)%Z → upperByte (byte x) = u → upperByte z ≠ u → x ≠ chr z.
Proof. intros Hr Hx Hz ->. apply Hz. rewrite <- Hx. by rewrite byte_chr. Qed.

Lemma run_fold1_hit (a x : ascii) (t : string) c k :
  foldEq a x = true → run (fold1 a) (String x t) c k = k t c.
Proof.
  unfold foldEq, fold1. destruct (isLetter (byte a)) eqn:Hl; cbn [negb].
  - intros Hx.
    assert (∀ r', run (Alt (Cls (λ y, (upperByte (byte y) =? upperByte (byte a))%Z)) r')
                      (String x t) c k
                  = match k t c with Some v => Some v | None => run r' (String x t) c k end)
      as Halt by (intros; cbn; by rewrite Hx).
    apply Z.eqb_eq in Hx.
    destruct (upperByte (byte a) =? 83)%Z eqn:HS.
    { rewrite Halt. destruct (k t c); [done|]. cbn. unfold only.
      apply Z.eqb_eq in HS. rewrite HS in Hx.
      rewrite bool_decide_eq_false_2; [done|].
      by apply (upperByte_byte_ne x 83 197). }
    destruct (upperByte (byte a) =? 75)%Z eqn:HK.
    { rewrite Halt. destruct (k t c); [done|]. cbn. unfold only.
      apply Z.eqb_eq in HK. rewrite HK in Hx.
      rewrite bool_decide_eq_false_2; [done|].
      by apply (upperByte_byte_ne x 75 226). }
    cbn. apply Z.eqb_eq in Hx. by rewrite Hx.
  - intros ->%bool_decide_eq_true. apply run_lit1.
Qed.

Lemma run_lit_i_hit (keyword w rest : string) c k :
  equalFold keyword w = true → run (lit_i keyword) (w +:+ rest) c k = k rest c.
Proof.
  revert w. induction keyword as [|a keyword IH]; intros [|x w] Hw; try done.
  cbn in Hw. apply andb_prop in Hw as [Hx Hw].
  cbn [lit_i run String.append]. rewrite run_fold1_hit by done. by apply IH.
Qed.

Lemma run_fold1_miss (a : ascii) (s : string) c k :
  plainFold a = true →
  match s with String x _ => foldEq a x = false | EmptyString => True end →
  run (fold1 a) s c k = None.
Proof.
  unfold plainFold, foldEq, fold1.
  intros [HS%negb_true_iff HK%negb_true_iff]%andb_prop Hs.
  rewrite HS, HK. destruct (isLetter (byte a)); cbn [negb run lit1].
  - destruct s as [|x t]; [done|]. by rewrite Hs.
  - destruct s as [|x t]; [done|]. unfold only. by rewrite Hs.
Qed.

Lemma run_lit_i_miss (keyword s : string) c k :
  sall plainFold keyword = true →
  beginsWith keyword s = false →
  run (lit_i keyword) s c k = None.
Proof.
  revert s. induction keyword as [|a keyword IH]; intros s Hk Hs; [done|].
  cbn in Hk. apply andb_prop in Hk as [Ha Hk].
  cbn [lit_i run]. destruct s as [|x t].
  - by apply run_fold1_miss.
  - cbn in Hs. destruct (foldEq a x) eqn:Hx.
    + rewrite run_fold1_hit by done. by apply IH.
    + by apply run_fold1_miss.
Qed.

Lemma star_greedy (p : ascii → bool) (u rest : string) c k (v : R) :
  sall p u = true → stops p rest = true → k rest c = Some v →
  star p (u +:+ rest) c k = Some v.
Proof.
  intros Hu Hrest Hk. induction u as [|y u IH].
  - cbn [String.append]. destruct rest as [|x r]; [done|]. cbn in *.
    apply negb_true_iff in Hrest. by rewrite Hrest.
  - cbn in Hu. apply andb_prop in Hu as [Hy Hu].
    cbn [String.append star]. by rewrite Hy, IH.
Qed.

Lemma run_Plus_greedy (p : ascii → bool) (y : ascii) (u rest : string) c k (v : R) :
  sall p (String y u) = true → stops p rest = true → k rest c = Some v →
  run (Plus p) (String y u +:+ rest) c k = Some v.
Proof.
  cbn [sall]. intros [Hy Hu]%andb_prop Hrest Hk.
  cbn [Plus run String.append]. rewrite Hy. by apply star_greedy.
Qed.

Lemma run_Star_greedy (p : ascii → bool) (u rest : string) c k (v : R) :
  sall p u = true → stops p rest = true → k rest c = Some v →
  run (Star p) (u +:+ rest) c k = Some v.
Proof. apply star_greedy. Qed.

(** One blank before a character that is no white space. *)
Lemma run_Plus_space (rest : string) c k :
  stops space rest = true → run (Plus space) (String blank rest) c k = k rest c.
Proof.
  intros Hrest. cbn [Plus run]. change (space blank) with true. cbn match.
  destruct rest as [|x r]; [done|]. cbn in *. apply negb_true_iff in Hrest.
  by rewrite Hrest.
Qed.

End RegexpFacts.

Lemma consumed_app (u rest : string) : regexp.consumed (u +:+ rest) rest = u.
Proof.
  unfold regexp.consumed. rewrite length_app_s.
  replace (String.length u + String.length rest - String.length rest)
    with (String.length u) by lia.
  apply stake_app_s.
Qed.

Section RegexpUse.
Import regexp.
Context {R : Type}.
Implicit Types (k : string → list string → option R) (c : list string).

Lemma run_Opt_take (r : re) s c k (v : R) :
  run r s c k = Some v → run (Opt r) s c k = Some v.
Proof. intros Hr. by rewrite run_Opt, Hr. Qed.

Lemma run_Opt_skip (r : re) s c k (v : R) :
  run r s c k = None → k s c = Some v → run (Opt r) s c k = Some v.
Proof. intros Hr Hk. by rewrite run_Opt, Hr. Qed.


End RegexpUse.

Lemma find_from_here (r : regexp.re) (groups : nat) (s s' : string) (c : list string) :
  regexp.run r s (replicate (S groups) "") regexp.accept = Some (s', c) →
  regexp.FindStringSubmatch r groups s = Some (<[0 := regexp.consumed s s']> c).
Proof.
  intros Hrun. unfold regexp.FindStringSubmatch. destruct s; cbn [regexp.find_from]; by rewrite Hrun.
Qed.

Lemma beginsWith_stop (keyword a b : string) (x : ascii) :
  sall (λ k, negb (regexp.foldEq k x)) keyword = true →
  beginsWith keyword (a +:+ String x b) = beginsWith keyword a.
Proof.
  revert a. induction keyword as [|k keyword IH]; intros a Hk; [done|].
  cbn in Hk. apply andb_prop in Hk as [Hx%negb_true_iff Hk].
  destruct a as [|y a]; cbn [String.append beginsWith].
  - by rewrite Hx.
  - by rewrite IH.
Qed.


(** ** Trimming and splitting a reference *)

Lemma trimRightBytes_id (p : ascii → bool) (s : string) (z : ascii) :
  slast s = Some z → p z = false → strings.trimRightBytes p s = s.
Proof.
  intros Hlast Hz. induction s as [|x s IH]; [done|].
  cbn [strings.trimRightBytes]. destruct s as [|y s].
  - cbn in *. injection Hlast as ->. by rewrite Hz.
  - rewrite IH by done. done.
Qed.

Lemma trimRightBytes_snoc (p : ascii → bool) (s : string) (q : ascii) :
  p q = true → strings.trimRightBytes p (s +:+ str1 q) = strings.trimRightBytes p s.
Proof.
  intros Hq. induction s as [|x s IH]; cbn [String.append strings.trimRightBytes].
  - cbn. by rewrite Hq.
  - by rewrite IH.
Qed.

Lemma Trim_plain (cutset : string) (y z : ascii) (s : string) :
  strings.inSet cutset y = false → slast (String y s) = Some z →
  strings.inSet cutset z = false →
  strings.Trim (String y s) cutset = String y s.
Proof.
  intros Hy Hlast Hz. unfold strings.Trim.
  rewrite (trimRightBytes_id _ _ z) by done. cbn. by rewrite Hy.
Qed.

Lemma Trim_quoted (y z : ascii) (s : string) :
  y ≠ dquote → slast (String y s) = Some z → z ≠ dquote →
  strings.Trim (quoted (String y s)) (str1 dquote) = String y s.
Proof.
  intros Hy Hlast Hz. unfold strings.Trim, quoted.
  change (String dquote (String y s +:+ str1 dquote))
    with (String dquote (String y s) +:+ str1 dquote).
  rewrite trimRightBytes_snoc by done.
  assert (∀ x, x ≠ dquote → strings.inSet (str1 dquote) x = false) as Hset.
  { intros x Hx. cbn. by destruct (ascii_dec x dquote). }
  rewrite (trimRightBytes_id _ _ z); [|by destruct s|by apply Hset].
  cbn [strings.trimLeftBytes]. change (strings.inSet (str1 dquote) dquote) with true.
  cbn match. cbn [strings.trimLeftBytes]. by rewrite Hset.
Qed.

Lemma split_from_plain (a : string) :
  ∀ cur rest,
    sall (λ x, negb (bool_decide (x = period))) a = true →
    strings.split_from "." 0 cur (a +:+ rest) = strings.split_from "." 0 (cur +:+ a) rest.
Proof.
  induction a as [|x a IH]; intros cur rest Ha; [by snorm|].
  cbn in Ha. apply andb_prop in Ha as [Hx%negb_true_iff%bool_decide_eq_false Ha].
  cbn [String.append strings.split_from strings.HasPrefix].
  destruct (ascii_dec x "."); [done|]. rewrite IH by done. by snorm.
Qed.

Lemma Split_cons (a b : string) :
  sall (λ x, negb (bool_decide (x = period))) a = true →
  strings.Split (a +:+ "." +:+ b) "." = a :: strings.Split b ".".
Proof.
  intros Ha. unfold strings.Split. rewrite split_from_plain by done.
  cbn [String.append strings.split_from strings.HasPrefix].
  by destruct (ascii_dec "." ".").
Qed.

Lemma Split_last (a : string) :
  sall (λ x, negb (bool_decide (x = period))) a = true → strings.Split a "." = [a].
Proof.
  intros Ha. unfold strings.Split.
  rewrite <- (app_nil_r_s a) at 1. rewrite split_from_plain by done. done.
Qed.

Lemma HasPrefix_public (x : string) :
  sall (λ x, negb (bool_decide (x = period))) x = true →
  strings.HasPrefix x "public." = false.
Proof.
  intros Hx. destruct (strings.HasPrefix x "public.") eqn:Hp; [|done].
  apply HasPrefix_inv in Hp as [r ->]. done.
Qed.

Lemma Contains_period (a b : string) : strings.Contains (a +:+ "." +:+ b) "." = true.
Proof.
  unfold strings.Contains. apply bool_decide_eq_true, Index_piece. by exists a, b.
Qed.

Lemma identByte_inv (x : ascii) :
  identByte x = true → regexp.space x = false ∧ x ≠ dquote ∧ x ≠ period.
Proof.
  unfold identByte. rewrite !andb_true_iff, !negb_true_iff, !bool_decide_eq_false. tauto.
Qed.

Lemma ident_ends (s : string) :
  s ≠ "" → sall identByte s = true →
  ∃ y s' z, s = String y s' ∧ identByte y = true
            ∧ slast s = Some z ∧ identByte z = true.
Proof.
  intros Hne Hs. destruct s as [|y s']; [done|].
  assert (∀ u x, sall identByte (String x u) = true →
                 ∃ z, slast (String x u) = Some z ∧ identByte z = true) as Hlast.
  { induction u as [|w u IH]; intros x Hx.
    - exists x. cbn in *. by apply andb_prop in Hx as [-> _].
    - cbn [sall] in Hx. apply andb_prop in Hx as [_ Hx].
      destruct (IH w Hx) as (z & Hz & Hz'). exists z. split; [|done].
      by destruct u. }
  destruct (Hlast s' y Hs) as (z & Hz & Hz').
  exists y, s', z. cbn in Hs. by apply andb_prop in Hs as [-> _].
Qed.

Lemma slast_app (a b : string) : b ≠ "" → slast (a +:+ b) = slast b.
Proof.
  intros Hb. induction a as [|x a IH]; [done|].
  cbn [String.append slast]. rewrite IH.
  destruct (a +:+ b) eqn:Heq; [|done]. by destruct a, b.
Qed.

Lemma Trim_left_quote (y z : ascii) (s : string) :
  y ≠ dquote → slast (String y s) = Some z → z ≠ dquote →
  strings.Trim (String dquote (String y s)) (str1 dquote) = String y s.
Proof.
  intros Hy Hlast Hz. unfold strings.Trim.
  assert (∀ x, x ≠ dquote → strings.inSet (str1 dquote) x = false) as Hset.
  { intros x Hx. cbn. by destruct (ascii_dec x dquote). }
  rewrite (trimRightBytes_id _ _ z); [|done|by apply Hset].
  cbn [strings.trimLeftBytes]. change (strings.inSet (str1 dquote) dquote) with true.
  cbn match. by rewrite Hset.
Qed.

Lemma Trim_right_quote (y z : ascii) (s : string) :
  y ≠ dquote → slast (String y s) = Some z → z ≠ dquote →
  strings.Trim (String y s +:+ str1 dquote) (str1 dquote) = String y s.
Proof.
  intros Hy Hlast Hz. unfold strings.Trim.
  assert (∀ x, x ≠ dquote → strings.inSet (str1 dquote) x = false) as Hset.
  { intros x Hx. cbn. by destruct (ascii_dec x dquote). }
  rewrite trimRightBytes_snoc by done.
  rewrite (trimRightBytes_id _ _ z); [|done|by apply Hset].
  cbn [strings.trimLeftBytes]. by rewrite Hset.
Qed.

Lemma ident_plain (s : string) :
  sall identByte s = true → sall (λ x, negb (bool_decide (x = period))) s = true.
Proof.
  apply sall_impl. intros x (_ & _ & Hx)%identByte_inv. by rewrite bool_decide_eq_false_2.
Qed.

Lemma ident_nospace (s : string) :
  sall identByte s = true → sall (λ x, negb (regexp.space x)) s = true.
Proof. apply sall_impl. by intros x (-> & _ & _)%identByte_inv. Qed.

Lemma inSet_quote (x : ascii) : x ≠ dquote → strings.inSet (str1 dquote) x = false.
Proof. intros Hx. cbn. by destruct (ascii_dec x dquote). Qed.


Lemma resolvesTo_quoted (schema t c : string) :
  t ≠ "" → c ≠ "" → sall identByte t = true → sall identByte c = true →
  (schema = "" ∨ schema = quoted "public" +:+ ".") →
  resolvesTo (schema +:+ quoted t +:+ "." +:+ quoted c) t c.
Proof.
  intros Ht Hc Hti Hci Hschema.
  destruct (ident_ends t Ht Hti) as (y1 & t' & z1 & Et & (_ & Hy1 & _)%identByte_inv
                                      & Lt & (_ & Hz1 & _)%identByte_inv).
  destruct (ident_ends c Hc Hci) as (y2 & c' & z2 & Ec & (_ & Hy2 & _)%identByte_inv
                                      & Lc & (_ & Hz2 & _)%identByte_inv).
  pose proof (ident_plain t Hti) as Htp. pose proof (ident_plain c Hci) as Hcp.
  assert (sall (λ x, negb (bool_decide (x = period))) (t +:+ str1 dquote) = true) as Htq
    by (rewrite sall_app, Htp; done).
  assert (sall (λ x, negb (bool_decide (x = period))) (String dquote c) = true) as Hqc
    by (cbn; by rewrite Hcp).
  assert (strings.Trim (String dquote c) (str1 dquote) = c) as HTc.
  { rewrite Ec in Lc |- *. by apply (Trim_left_quote y2 z2). }
  unfold resolvesTo. destruct Hschema as [->| ->].
  - assert ("" +:+ quoted t +:+ "." +:+ quoted c
            = quoted ((t +:+ str1 dquote) +:+ "." +:+ String dquote c)) as ->
      by (unfold quoted; by snorm).
    assert (strings.Trim (quoted ((t +:+ str1 dquote) +:+ "." +:+ String dquote c)) (str1 dquote)
            = (t +:+ str1 dquote) +:+ "." +:+ String dquote c) as ->.
    { rewrite Et at 1 2. cbn [String.append].
      apply (Trim_quoted y1 z2); [done| |done].
      change (String y1 ((t' +:+ str1 dquote) +:+ String "." (String dquote c)))
        with (String y1 (t' +:+ str1 dquote) +:+ String "." (String dquote c)).
      rewrite slast_app by done. change (String "." (String dquote c))
        with ((str1 "." +:+ str1 dquote) +:+ c).
      by rewrite slast_app. }
    rewrite Contains_period, Split_cons, Split_last by done.
    cbn [length Nat.ltb Nat.leb Nat.sub lookup_total list_lookup_total].
    split; [done|]. split; [done|]. split; [|done].
    unfold strings.TrimPrefix. rewrite HasPrefix_public by done.
    rewrite Et in Lt |- *. by apply (Trim_right_quote y1 z1).
  - assert ((quoted "public" +:+ ".") +:+ quoted t +:+ "." +:+ quoted c
            = quoted (("public" +:+ str1 dquote) +:+ "." +:+ quoted t +:+ "."
                      +:+ String dquote c)) as ->
      by (unfold quoted; by snorm).
    assert (strings.Trim (quoted (("public" +:+ str1 dquote) +:+ "." +:+ quoted t +:+ "."
                                  +:+ String dquote c)) (str1 dquote)
            = ("public" +:+ str1 dquote) +:+ "." +:+ quoted t +:+ "." +:+ String dquote c)
      as ->.
    { cbn [String.append].
      apply (Trim_quoted "p" z2); [done| |done].
      change (slast (("public" +:+ str1 dquote) +:+ ((str1 "." +:+ quoted t)
                     +:+ (str1 "." +:+ str1 dquote) +:+ c)) = Some z2).
      by rewrite !slast_app. }
    assert (sall (λ x, negb (bool_decide (x = period))) (quoted t) = true) as Hqt
      by (unfold quoted; cbn; by rewrite Htq).
    rewrite Contains_period, Split_cons by done.
    rewrite Split_cons, Split_last by done.
    cbn [length Nat.ltb Nat.leb Nat.sub lookup_total list_lookup_total].
    split; [done|]. split; [done|]. split; [|done].
    unfold strings.TrimPrefix. rewrite HasPrefix_public by done.
    rewrite Et in Lt |- *. by apply (Trim_quoted y1 z1).
Qed.

(** ** Comments on columns *)



Section CommentFacts.
Context `{UnicodeTables} `{Decoders}.

Lemma parseCommentByString_resolved
    (stmt whole target text t c : string) (p : Parser) :
  regexp.FindStringSubmatch (commentRegex squote) 2 stmt = Some [whole; target; text] →
  resolvesTo target t c →
  parseCommentByString stmt p = Ok (withColumnComment p t c (decodeComment text)).
Proof.
  intros Hfind (Hdot & Hlen & Ht & Hc).
  unfold parseCommentByString. rewrite Hfind.
  cbn [lookup_total list_lookup_total]. rewrite Hdot. cbn [negb].
  rewrite Hlen, Ht, Hc. unfold withColumnComment. by destruct (dbComments p !! t).
Qed.



End CommentFacts.

(** ** The statements at work *)



(** C2, the code at a failing input: the comment of table [t] is in the
    registry once [COMMENT ON TABLE] is read, and gone once the
    [CREATE TABLE] that follows is read, which stores a fresh entry; in the
    other order the comment stays. *)
Theorem table_comment_before_create_is_dropped :
  dbComments (scanSQL commentT NewParser) !! "t"
  = Some {| TableComment.TableName := "t"; TableComment.Comment := "x";
            TableComment.Fields := [] |}
  ∧ dbComments (scanSQL (commentT +:+ nl +:+ createT) NewParser) !! "t"
    = Some (tableT "" "")
  ∧ dbComments (scanSQL (createT +:+ nl +:+ commentT) NewParser) !! "t"
    = Some (tableT "x" "").
Proof. repeat split; vm_compute; reflexivity. Qed.

(** Whatever the registry held for the table, [parseCreateTableByString]
    stores an entry with an empty comment. *)
Lemma parseCreateTableByString_replaces `{UnicodeTables} (stmt : string) (p p' : Parser) :
  parseCreateTableByString stmt p = Ok p' →
  ∃ tableName fields,
    dbComments p'
    = <[tableName := {| TableComment.TableName := tableName;
                        TableComment.Comment := "";
                        TableComment.Fields := fields |}]> (dbComments p).
Proof.
  unfold parseCreateTableByString.
  destruct (regexp.FindStringSubmatch tableNameRegex 1 stmt); [|done].
  destruct (regexp.FindStringSubmatch fieldsRegex 1 stmt); [|done].
  intros [= <-]. by eexists _, _.
Qed.




Lemma scanned_tags_ascending_witness : ascending mailStatusTags.
Proof.
  apply (@scanned_tags_ascending asciiTables sampleDecoders
           (scanGo sampleFile "test/test.go" NewParser)
           (scanned_go sampleFile "test/test.go" NewParser scanned_new)
           "MailStatus 邮件发送状态枚举" mailStatusGroup).
  vm_compute. reflexivity.
Defined.

Lemma ToMarkdown_tables_ascending_witness :
  ascending (sort.Strings
               (elements (dom (dbComments (scanSQL (createT +:+ nl +:+ createA) NewParser))))).
Proof.
  apply (ToMarkdown_tables_ascending
           (scanSQL (createT +:+ nl +:+ createA) NewParser) [] ["t"; "a"]).
  unfold keyOrder.
  change (elements (dom (dbComments (scanSQL (createT +:+ nl +:+ createA) NewParser))))
    with ["a"; "t"].
  apply perm_swap.
Defined.

Lemma getEnumGroupName_single_capital_witness : getEnumGroupName activeGroup = "".
Proof.
  apply (getEnumGroupName_single_capital activeGroup
           {| ast.Doc := None; ast.Names := ["Active"]; ast.Type_ := None;
              ast.Values := [ast.BasicLit "1"]; ast.Comment := None |}
           [ast.SValueSpec {| ast.Doc := None; ast.Names := ["Inactive"]; ast.Type_ := None;
                              ast.Values := [ast.BasicLit "2"]; ast.Comment := None |}]
           "A" "ctive" [] "state" "test" "a.go").
  - intros (spec & name & Hspecs & _). discriminate Hspecs.
  - reflexivity.
  - reflexivity.
  - reflexivity.
  - reflexivity.
Defined.

(** * Further properties of the package *)

(** ** The resolver, again *)

(** X1: resolving twice is resolving once: what [decodeComment] returns is
    either valid UTF-8, which it keeps, or the input no decoder could
    help with, which it returns again. *)
Theorem decodeComment_idempotent `{Decoders} (s : string) :
  decodeComment (decodeComment s) = decodeComment s.
Proof.
  assert (∀ d, utf8.ValidString d = true → decodeComment d = d) as Hvalid.
  { intros d Hd. unfold decodeComment. by rewrite Hd. }
  assert (∀ o d, attempt o = Some d → utf8.ValidString d = true) as Hattempt.
  { intros [x|] d; cbn; [|done]. destruct (utf8.ValidString x) eqn:Hx; [|done].
    by intros [= <-]. }
  assert (decodeComment s = s ∨ utf8.ValidString (decodeComment s) = true) as [Hsame|Hok].
  { unfold decodeComment.
    destruct (utf8.ValidString s) eqn:Hs; [by left|].
    destruct (attempt (GBK s)) as [d|] eqn:H1; [right; by eapply Hattempt|].
    destruct (attempt (Big5 s)) as [d|] eqn:H2; [right; by eapply Hattempt|].
    destruct (attempt (GB18030 s)) as [d|] eqn:H3; [right; by eapply Hattempt|].
    by left. }
  - by rewrite !Hsame.
  - by apply Hvalid.
Qed.

(** ** Merging, again *)

Lemma sort_Strings_sorted_id (l : list string) :
  StronglySorted String.le l → sort.Strings l = l.
Proof.
  intros Hl. apply (StronglySorted_unique String.le); [apply sort_Strings_sorted|done|].
  apply sort_Strings_perm.
Qed.

Lemma filter_nil_Forall {A} (P : A → Prop) `{∀ x, Decision (P x)} (l : list A) :
  Forall (λ x, ¬ P x) l → filter P l = [].
Proof.
  induction 1 as [|x l Hx _ IH]; [done|]. by rewrite filter_cons, decide_False, IH.
Qed.

(** X2: merging the same group in a second time changes nothing more, when
    its description is that of the existing group: no member and no tag is
    added twice. *)
Theorem mergeEnumGroup_again (existing new : EnumGroup.t) :
  EnumGroup.Description existing = EnumGroup.Description new →
  mergeEnumGroup (mergeEnumGroup existing new) new = mergeEnumGroup existing new.
Proof.
  intros Hdesc.
  set (once := mergeEnumGroup existing new).
  assert (EnumGroup.Description once = EnumGroup.Description existing) as Hd1.
  { cbn. rewrite Hdesc, String.eqb_refl. cbn. by rewrite andb_false_r. }
  assert (EnumGroup.Items (mergeEnumGroup once new) = EnumGroup.Items once) as Hitems.
  { rewrite (mergeEnumGroup_Items once new). rewrite filter_nil_Forall; [by rewrite app_nil_r|].
    apply Forall_forall. intros item Hitem Hnot. apply Hnot.
    unfold once. rewrite mergeEnumGroup_Items, fmap_app, elem_of_app.
    destruct (decide (EnumItem.Name item ∈ EnumItem.Name <$> EnumGroup.Items existing));
      [by left|right].
    apply list_elem_of_fmap. exists item. split; [done|]. by apply list_elem_of_filter. }
  assert (EnumGroup.Tags (mergeEnumGroup once new) = EnumGroup.Tags once) as Htags.
  { rewrite (mergeEnumGroup_Tags once new). rewrite filter_nil_Forall.
    - rewrite app_nil_r. apply sort_Strings_sorted_id.
      unfold once. rewrite mergeEnumGroup_Tags. apply sort_Strings_sorted.
    - apply Forall_forall. intros tag Htag Hnot. apply Hnot.
      unfold once. rewrite mergeEnumGroup_Tags, elem_of_sort_Strings, elem_of_app.
      destruct (decide (tag ∈ EnumGroup.Tags existing)); [by left|right].
      by apply list_elem_of_filter. }
  assert (EnumGroup.Description (mergeEnumGroup once new) = EnumGroup.Description once) as Hd2.
  { cbn [mergeEnumGroup EnumGroup.Description]. fold once. rewrite Hd1, Hdesc, String.eqb_refl.
    cbn. by rewrite andb_false_r. }
  destruct (mergeEnumGroup once new) eqn:Hm. destruct once eqn:Ho.
  cbn in Hitems, Htags, Hd2. subst.
  apply (f_equal EnumGroup.Name) in Hm as Hn. apply (f_equal EnumGroup.Package) in Hm as Hp.
  apply (f_equal EnumGroup.File) in Hm as Hf. apply (f_equal EnumGroup.Type_) in Hm as Ht.
  apply (f_equal EnumGroup.Category) in Hm as Hc.
  cbn in Hn, Hp, Hf, Ht, Hc. by subst.
Qed.

(** ** The name of a group, in general *)

Lemma get_app_tail (pre tail : string) (c : ascii) (j : nat) :
  String.get (String.length pre + S j) (pre +:+ String c tail) = String.get j tail.
Proof. induction pre as [|x pre IH]; [done|]. by cbn. Qed.

Lemma get_app_at (pre tail : string) (c : ascii) :
  String.get (String.length pre) (pre +:+ String c tail) = Some c.
Proof. induction pre as [|x pre IH]; [done|]. by cbn. Qed.

Lemma get_lower (t : string) (j : nat) (x : ascii) :
  sall (λ x, negb (isUpperASCII x)) t = true → String.get j t = Some x →
  isUpperASCII x = false.
Proof.
  revert j. induction t as [|y t IH]; intros j Hall Hj; [done|]. cbn in *.
  apply andb_prop in Hall as [Hy Ht]. destruct j as [|j].
  - injection Hj as <-. by apply negb_true_iff.
  - by apply (IH j).
Qed.

Lemma prefix_loop_last_capital (pre tail : string) (c : ascii) (n : nat) :
  isUpperASCII c = true →
  sall (λ x, negb (isUpperASCII x)) tail = true →
  String.length pre < n →
  prefix_loop (pre +:+ String c tail) n = pre.
Proof.
  intros Hc Htail. induction n as [|i IH]; [lia|]. intros Hn.
  cbn [prefix_loop]. destruct (decide (i = String.length pre)) as [->|Hne].
  - rewrite get_app_at, Hc. apply stake_app_s.
  - replace i with (String.length pre + S (i - String.length pre - 1)) at 1 by lia.
    rewrite get_app_tail.
    destruct (String.get _ tail) as [x|] eqn:Hx.
    + rewrite (get_lower tail _ x Htail Hx). apply IH. lia.
    + apply IH. lia.
Qed.

Lemma prefix_loop_no_capital (name : string) (n : nat) :
  sall (λ x, negb (isUpperASCII x)) name = true → prefix_loop name n = name.
Proof.
  intros Hname. induction n as [|i IH]; [done|]. cbn [prefix_loop].
  destruct (String.get i name) as [x|] eqn:Hx; [|done].
  by rewrite (get_lower name i x Hname Hx).
Qed.

(** X3: a group that is not named by a type annotation takes as base name
    what stands before the last capital ASCII letter of its first member's
    name ([MailStatus] for [MailStatusPending]), and the whole name when it
    has no capital letter. *)
Theorem getEnumGroupName_prefix
    (gen : ast.GenDecl) (spec : ast.ValueSpec) (rest : list ast.Spec)
    (name : string) (more : list string) :
  ¬ namedByType gen →
  ast.Specs gen = ast.SValueSpec spec :: rest →
  ast.Names spec = name :: more →
  (∀ pre c tail,
     name = pre +:+ String c tail → isUpperASCII c = true →
     sall (λ x, negb (isUpperASCII x)) tail = true →
     getEnumGroupName gen = pre)
  ∧ (sall (λ x, negb (isUpperASCII x)) name = true → getEnumGroupName gen = name).
Proof.
  intros Hnot Hspecs Hnames.
  assert (getEnumGroupName gen = prefix_loop name (String.length name)) as ->.
  { unfold getEnumGroupName. rewrite Hspecs.
    assert (match rest with
            | [] => match ast.Type_ spec with
                    | Some (ast.Ident name) => Some name
                    | _ => None
                    end
            | _ :: _ => None
            end = None) as ->.
    { destruct rest as [|? ?]; [|done].
      destruct (ast.Type_ spec) as [[ty| | |]|] eqn:Hty; try done.
      exfalso. apply Hnot. by exists spec, ty. }
    by rewrite Hnames. }
  split.
  - intros pre c tail -> Hc Htail. apply prefix_loop_last_capital; [done..|].
    rewrite length_app_s. cbn. lia.
  - apply prefix_loop_no_capital.
Qed.

(** ** Splitting and joining a column list *)

Lemma Join_cons (x : string) (l : list string) (sep : string) :
  l ≠ [] → strings.Join (x :: l) sep = x +:+ sep +:+ strings.Join l sep.
Proof. by destruct l. Qed.

Lemma Join_snoc (l : list string) (s sep : string) :
  l ≠ [] → strings.Join (l ++ [s]) sep = strings.Join l sep +:+ sep +:+ s.
Proof.
  induction l as [|x l IH]; [done|]. intros _. destruct l as [|y l]; [done|].
  change ((x :: y :: l) ++ [s]) with (x :: ((y :: l) ++ [s])).
  rewrite Join_cons by (by destruct l). rewrite IH by done.
  rewrite (Join_cons x (y :: l)) by done. by rewrite !app_assoc_s.
Qed.

Lemma Join_grow (result : list string) (current x : string) :
  strings.Join (result ++ [current +:+ x]) "," = strings.Join (result ++ [current]) "," +:+ x.
Proof.
  destruct result as [|r result]; [done|].
  rewrite !Join_snoc by done. by snorm.
Qed.

Lemma splitFields_loop_join (s : string) :
  ∀ result current parenCount,
    let out := splitFields_loop s result current parenCount in
    let whole := strings.Join (result ++ [current]) "," +:+ s in
    strings.Join out "," = whole ∨ strings.Join out "," +:+ "," = whole.
Proof.
  induction s as [|c s IH]; intros result current parenCount; cbn zeta.
  - cbn [splitFields_loop]. rewrite app_nil_r_s. destruct current as [|x current].
    + cbn [String.length Nat.ltb Nat.leb]. destruct result as [|r result]; [by left|].
      right. by rewrite Join_snoc.
    + by left.
  - assert (∀ pc, let out := splitFields_loop s result (current +:+ str1 c) pc in
                  strings.Join out "," = strings.Join (result ++ [current]) "," +:+ String c s
                  ∨ strings.Join out "," +:+ ","
                    = strings.Join (result ++ [current]) "," +:+ String c s) as Hkeep.
    { intros pc. cbn zeta. specialize (IH result (current +:+ str1 c) pc). cbn zeta in IH.
      rewrite Join_grow in IH. revert IH. by snorm. }
    cbn [splitFields_loop]. repeat case_match; try apply Hkeep. subst.
    specialize (IH (result ++ [current]) "" parenCount). cbn zeta in IH.
    rewrite Join_snoc in IH by by destruct result. revert IH. by snorm.
Qed.

(** X4: nothing of a column list is lost in the split: joined again with
    commas, the clauses give the list back, but for one comma at its end. *)
Theorem splitFields_join (fields : string) :
  strings.Join (splitFields fields) "," = fields
  ∨ strings.Join (splitFields fields) "," +:+ "," = fields.
Proof. apply (splitFields_loop_join fields [] "" 0). Qed.

(** ** Types of more than one word *)

Lemma word_ends (s : string) :
  s ≠ "" → sall wordByte s = true →
  ∃ y s' z, s = String y s' ∧ graphic y = true ∧ slast s = Some z ∧ graphic z = true.
Proof.
  intros Hne Hs. destruct s as [|y s']; [done|].
  assert (∀ u x, sall wordByte (String x u) = true →
                 ∃ z, slast (String x u) = Some z ∧ graphic z = true) as Hlast.
  { induction u as [|w u IH]; intros x Hx.
    - exists x. cbn in *. apply andb_prop in Hx as [Hx _]. by apply wordByte_inv in Hx as [-> _].
    - cbn [sall] in Hx. apply andb_prop in Hx as [_ Hx].
      destruct (IH w Hx) as (z & Hz & Hz'). exists z. split; [|done]. by destruct u. }
  destruct (Hlast s' y Hs) as (z & Hz & Hz').
  exists y, s', z. cbn in Hs. apply andb_prop in Hs as [Hy _].
  by apply wordByte_inv in Hy as [-> _].
Qed.

Lemma extractType_word (word tail : string) :
  word ≠ "" → sall wordByte word = true →
  (tail = "" ∨ ∃ tail', tail = String blank tail') →
  extractType (word +:+ tail) = word.
Proof.
  intros Hne Hword Htail. unfold extractType.
  rewrite extractType_loop_word by done.
  assert (extractType_loop tail ("" +:+ word) 0 = word) as ->.
  { destruct Htail as [->|[tail' ->]]; [done|]. cbn [extractType_loop String.append].
    destruct (ascii_dec blank lparen); [done|]. destruct (ascii_dec blank rparen); [done|].
    by rewrite bool_decide_eq_true_2. }
  destruct (word_ends word Hne Hword) as (y & s' & z & -> & Hy & Hz & Hz').
  by apply (TrimSpace_graphic y z).
Qed.

(** X5: the type read from the text after a column name is its first word:
    of a type of several words, such as [character varying(50)], what follows
    the first space is left out. *)
Theorem extractType_first_word (word rest : string) :
  word ≠ "" → sall wordByte word = true →
  extractType (word +:+ String blank rest) = word.
Proof. intros Hne Hword. apply extractType_word; [done..|]. right. by exists rest. Qed.

(** ** Where the type of a column is looked for *)

Lemma wordByte_not_blank (x : ascii) : wordByte x = true → x ≠ blank.
Proof. intros [Hg _]%wordByte_inv. by apply graphic_not_blank. Qed.

Lemma HasPrefix_app_blank (w a b : string) :
  sall wordByte w = true →
  strings.HasPrefix (a +:+ String blank b) w = strings.HasPrefix a w.
Proof.
  revert a. induction w as [|x w IH]; intros a Hw; [done|].
  cbn in Hw. apply andb_prop in Hw as [Hx Hw]. apply wordByte_not_blank in Hx.
  destruct a as [|c a]; cbn [String.append strings.HasPrefix].
  - by destruct (ascii_dec blank x).
  - destruct (ascii_dec c x); [by apply IH|done].
Qed.

Lemma Index_app_blank (w a b : string) :
  w ≠ "" → sall wordByte w = true →
  strings.Index (a +:+ String blank b) w
  = match strings.Index a w with
    | Some i => Some i
    | None => (λ i, String.length a + 1 + i) <$> strings.Index b w
    end.
Proof.
  intros Hne Hw. induction a as [|c a IH].
  - cbn [String.append strings.Index String.length].
    rewrite (HasPrefix_app_blank w "" b Hw : strings.HasPrefix (String blank b) w = _).
    destruct w as [|x w]; [done|]. cbn [strings.HasPrefix].
    by destruct (strings.Index b (String x w)).
  - cbn [String.append strings.Index String.length].
    rewrite (HasPrefix_app_blank w (String c a) b Hw
             : strings.HasPrefix (String c (a +:+ String blank b)) w = _).
    destruct (strings.HasPrefix (String c a) w); [done|].
    rewrite IH. destruct (strings.Index a w); [done|].
    by destruct (strings.Index b w).
Qed.

Lemma Index_Some (s w : string) (i : nat) :
  strings.Index s w = Some i →
  i ≤ String.length s ∧ strings.HasPrefix (sdrop i s) w = true.
Proof.
  revert i. induction s as [|c s IH]; intros i; cbn [strings.Index].
  - destruct (strings.HasPrefix "" w) eqn:Hp; [|done]. intros [= <-]. by split.
  - destruct (strings.HasPrefix (String c s) w) eqn:Hp.
    + intros [= <-]. split; [lia|done].
    + destruct (strings.Index s w) as [j|] eqn:Hj; [|done]. intros [= <-].
      destruct (IH j eq_refl) as [Hle Hpre]. split; [cbn; lia|done].
Qed.

Lemma sdrop_app_le (i : nat) (a b : string) :
  i ≤ String.length a → sdrop i (a +:+ b) = sdrop i a +:+ b.
Proof.
  revert a. induction i as [|i IH]; intros a Hi; [done|].
  destruct a as [|c a]; cbn in *; [lia|]. apply IH. lia.
Qed.

Lemma sall_sdrop (p : ascii → bool) (i : nat) (s : string) :
  sall p s = true → sall p (sdrop i s) = true.
Proof.
  revert s. induction i as [|i IH]; intros s Hs; [done|].
  destruct s as [|c s]; [done|]. cbn in *. apply andb_prop in Hs as [_ Hs]. by apply IH.
Qed.

(** X6: for a clause [name type ...] of plain words, the type stored is read
    at the first place the type word occurs in the clause: when the word
    occurs in the column name already (as [date] does in [date_created]), the
    type stored is the rest of the name from there, and the type word itself
    only otherwise. *)
Theorem parseFieldDef_type_position (name ty tail : string) :
  name ≠ "" → ty ≠ "" →
  sall wordByte name = true → sall wordByte ty = true →
  (tail = "" ∨ ∃ tail', tail = String blank tail') →
  let clause := name +:+ " " +:+ ty +:+ tail in
  strings.TrimSpace clause = clause →
  parseFieldDef clause
  = Some {| FieldComment.FieldName := strings.Trim name (str1 dquote);
            FieldComment.FieldType :=
              match strings.Index name ty with
              | Some i => sdrop i name
              | None => ty
              end;
            FieldComment.Comment := "" |}.
Proof.
  intros Hname Hty Hwn Hwt Htail clause Htrim.
  unfold parseFieldDef. rewrite Htrim.
  assert (∃ parts, strings.Fields clause = name :: ty :: parts) as [parts ->].
  { unfold strings.Fields, clause.
    destruct name as [|c name]; [done|]. destruct ty as [|c' ty]; [done|].
    rewrite fields_from_graphic_none
      by (apply (sall_impl wordByte); [by intros ? [? _]%wordByte_inv|done]).
    change (" " +:+ ?x) with (String blank x). rewrite fields_from_blank.
    rewrite fields_from_graphic_none
      by (apply (sall_impl wordByte); [by intros ? [? _]%wordByte_inv|done]).
    destruct Htail as [->|[tail' ->]]; [by exists []|].
    rewrite fields_from_blank. by eexists. }
  unfold clause at 1. change (" " +:+ ?x) with (String blank x).
  rewrite Index_app_blank by done.
  destruct (strings.Index name ty) as [i|] eqn:Hi.
  - destruct (Index_Some _ _ _ Hi) as [Hle Hpre].
    unfold clause. rewrite sdrop_app_le by done.
    apply HasPrefix_inv in Hpre as [r Hr].
    rewrite extractType_word; [done| |by apply sall_sdrop|right; by eexists].
    rewrite Hr. by destruct ty.
  - rewrite (Index_HasPrefix _ _ (HasPrefix_app ty tail)). cbn [fmap option_fmap option_map].
    assert (clause = (name +:+ " ") +:+ ty +:+ tail) as -> by (unfold clause; by snorm).
    replace (String.length name + 1 + 0) with (String.length (name +:+ " "))
      by (rewrite length_app_s; cbn; lia).
    rewrite sdrop_app_s. by rewrite extractType_word.
Qed.

(** ** What every registry of a scan looks like *)

Lemma parser_eq (a b : Parser) :
  enums a = enums b → dbComments a = dbComments b → a = b.
Proof. destruct a, b. cbn. by intros -> ->. Qed.

Section RegistryFacts.
Context `{UnicodeTables} `{Decoders}.

Lemma parseEnumGroup_Some (gen : ast.GenDecl) (doc pkg file : string) (g : EnumGroup.t) :
  parseEnumGroup gen doc pkg file = Some g →
  EnumGroup.Name g = getEnumGroupName gen +:+ " " +:+ doc
  ∧ EnumGroup.Items g ≠ []
  ∧ EnumGroup.Type_ g = ast.Token_String (ast.Tok gen)
  ∧ EnumGroup.Description g = doc.
Proof.
  unfold parseEnumGroup. destruct (0 <? length (parseEnumItems gen doc)) eqn:Hlen; [|done].
  intros [= <-]. cbn. repeat split. apply Nat.ltb_lt in Hlen.
  destruct (parseEnumItems gen doc); [cbn in Hlen; lia|done].
Qed.

Lemma addGroup_wellFormed (p : Parser) (group : EnumGroup.t) :
  (∀ name g, enums p !! name = Some g → groupWellFormed name g) →
  EnumGroup.Items group ≠ [] →
  (EnumGroup.Type_ group = "const" ∨ EnumGroup.Type_ group = "var") →
  ∀ name g, enums (addGroup p group) !! name = Some g → groupWellFormed name g.
Proof.
  intros Hp Hitems Htype name g. unfold addGroup.
  cbn [set_Tags_Category EnumGroup.Name EnumGroup.Tags].
  destruct (enums p !! EnumGroup.Name group) as [existing|] eqn:Hex; cbn [enums set_enums];
    (destruct (decide (EnumGroup.Name group = name)) as [<-|Hne];
     [rewrite lookup_insert_eq|rewrite lookup_insert_ne by done; by apply Hp]);
    intros [= <-].
  - destruct (Hp _ _ Hex) as (Hn & Hi & Ht). split; [done|]. split; [|done].
    rewrite mergeEnumGroup_Items. by destruct (EnumGroup.Items existing).
  - by split.
Qed.

Lemma parseFile_wellFormed (node : ast.File) (relPath : string) (p : Parser) :
  (∀ name g, enums p !! name = Some g → groupWellFormed name g) →
  ∀ name g, enums (parseFile node relPath p) !! name = Some g → groupWellFormed name g.
Proof.
  unfold parseFile. revert p.
  induction (ast.Decls node) as [|decl decls IH]; intros p Hp; [done|].
  cbn [fold_left]. apply IH. clear IH.
  destruct decl as [gen|]; [|done]. unfold parseDecl.
  assert (ast.Tok gen = ast.CONST ∨ ast.Tok gen = ast.VAR →
          ∀ comments name g,
            enums (doc_loop gen (ast.PackageName node) relPath comments p) !! name = Some g →
            groupWellFormed name g) as Hloop.
  { intros Htok. induction comments as [|text comments IHc]; cbn [doc_loop]; [done|].
    destruct (strings.Contains text "@ai"); [|done].
    destruct (parseEnumGroup _ _ _ _) as [group|] eqn:Hgroup; [|done].
    apply parseEnumGroup_Some in Hgroup as (_ & Hitems & Htype & _).
    apply addGroup_wellFormed; [done..|].
    rewrite Htype. by destruct Htok as [-> | ->]; [left|right]. }
  destruct (ast.Tok gen) eqn:Htok, (ast.GenDoc gen); try done; apply Hloop; auto.
Qed.

(** X7: in every registry a scan can reach, each enumeration group is
    stored under its own name, has at least one member, and is of kind
    [const] or [var]. *)
Theorem scanned_groups_well_formed (p : Parser) :
  scanned p →
  ∀ name group, enums p !! name = Some group →
    EnumGroup.Name group = name
    ∧ EnumGroup.Items group ≠ []
    ∧ (EnumGroup.Type_ group = "const" ∨ EnumGroup.Type_ group = "var").
Proof.
  induction 1 as [|node relPath p _ IH|content p _ IH].
  - intros name group. cbn. by rewrite lookup_empty.
  - by apply parseFile_wellFormed.
  - intros name group. rewrite parseSQLFile_enums. apply IH.
Qed.

Lemma tablesKeyed_insert (m : gmap string TableComment.t) (name : string)
    (table : TableComment.t) :
  tablesKeyed m → TableComment.TableName table = name → tablesKeyed (<[name := table]> m).
Proof.
  intros Hm Hname k tb. destruct (decide (name = k)) as [<-|Hne].
  - rewrite lookup_insert_eq. by intros [= <-].
  - rewrite lookup_insert_ne by done. apply Hm.
Qed.

Lemma parseCreateTableByString_keyed (stmt : string) (p : Parser) :
  tablesKeyed (dbComments p) →
  tablesKeyed (dbComments (after (parseCreateTableByString stmt p) p)).
Proof.
  intros Hp. unfold parseCreateTableByString.
  destruct (regexp.FindStringSubmatch tableNameRegex 1 stmt); [|done].
  destruct (regexp.FindStringSubmatch fieldsRegex 1 stmt); [|done].
  cbn [after dbComments set_dbComments]. by apply tablesKeyed_insert.
Qed.

Lemma parseCommentByString_keyed (stmt : string) (p : Parser) :
  tablesKeyed (dbComments p) →
  tablesKeyed (dbComments (after (parseCommentByString stmt p) p)).
Proof.
  intros Hp. unfold parseCommentByString.
  destruct (match regexp.FindStringSubmatch (commentRegex squote) 2 stmt with
            | Some matches => Some matches
            | None => regexp.FindStringSubmatch (commentRegex dquote) 2 stmt
            end) as [matches|]; [|done].
  destruct (negb _).
  - destruct (dbComments p !! _) as [table|] eqn:Htable; cbn [after dbComments set_dbComments];
      apply tablesKeyed_insert; try done. cbn. by apply Hp.
  - destruct (length _ <? 2); [done|].
    destruct (dbComments p !! _) as [table|] eqn:Htable; [|done].
    cbn [after dbComments set_dbComments]. apply tablesKeyed_insert; [done|].
    cbn. by apply Hp.
Qed.

Lemma parseSQLFile_keyed (content : string) (p : Parser) :
  tablesKeyed (dbComments p) → tablesKeyed (dbComments (parseSQLFile content p)).
Proof.
  unfold parseSQLFile. generalize (splitSQLStatements
    (strings.TrimPrefix
       (strings.ReplaceAll content (String (chr 13) (str1 (chr 10))) (str1 (chr 10)))
       (String (chr 239) (String (chr 187) (str1 (chr 191)))))).
  intros stmts. revert p. induction stmts as [|stmt stmts IH]; intros p Hp; [done|].
  cbn [fold_left]. apply IH. unfold parseStatement.
  repeat case_match; auto using parseCreateTableByString_keyed, parseCommentByString_keyed.
Qed.

Lemma addGroup_dbComments (p : Parser) (group : EnumGroup.t) :
  dbComments (addGroup p group) = dbComments p.
Proof. unfold addGroup. by case_match. Qed.

Lemma parseFile_dbComments (node : ast.File) (relPath : string) (p : Parser) :
  dbComments (parseFile node relPath p) = dbComments p.
Proof.
  unfold parseFile. revert p.
  induction (ast.Decls node) as [|decl decls IH]; intros p; [done|].
  cbn [fold_left]. rewrite IH. clear IH.
  destruct decl as [gen|]; [|done]. unfold parseDecl.
  assert (∀ comments,
            dbComments (doc_loop gen (ast.PackageName node) relPath comments p)
            = dbComments p) as Hloop.
  { induction comments as [|text comments IHc]; cbn [doc_loop]; [done|].
    destruct (strings.Contains text "@ai"); [|done].
    destruct (parseEnumGroup _ _ _ _); [|done]. apply addGroup_dbComments. }
  destruct (ast.Tok gen), (ast.GenDoc gen); try done; apply Hloop.
Qed.

(** X8: in every registry a scan can reach, each table is stored under its
    own name: the key of an entry and its [TableName] agree. *)
Theorem scanned_tables_keyed (p : Parser) :
  scanned p →
  ∀ name table, dbComments p !! name = Some table → TableComment.TableName table = name.
Proof.
  induction 1 as [|node relPath p _ IH|content p _ IH].
  - intros name table. cbn. by rewrite lookup_empty.
  - intros name table. rewrite parseFile_dbComments. apply IH.
  - by apply parseSQLFile_keyed.
Qed.

(** What a scan does to one registry depends on that registry alone. *)
Lemma parseFile_enums_of (node : ast.File) (relPath : string) (p1 p2 : Parser) :
  enums p1 = enums p2 →
  enums (parseFile node relPath p1) = enums (parseFile node relPath p2).
Proof.
  unfold parseFile. revert p1 p2.
  induction (ast.Decls node) as [|decl decls IH]; intros p1 p2 Hp; [done|].
  cbn [fold_left]. apply IH. clear IH.
  assert (∀ group, enums (addGroup p1 group) = enums (addGroup p2 group)) as Hadd.
  { intros group. unfold addGroup. rewrite Hp. by case_match. }
  destruct decl as [gen|]; [|done]. unfold parseDecl.
  assert (∀ comments,
            enums (doc_loop gen (ast.PackageName node) relPath comments p1)
            = enums (doc_loop gen (ast.PackageName node) relPath comments p2)) as Hloop.
  { induction comments as [|text comments IHc]; cbn [doc_loop]; [done|].
    destruct (strings.Contains text "@ai"); [|done].
    by destruct (parseEnumGroup _ _ _ _). }
  destruct (ast.Tok gen), (ast.GenDoc gen); try done; apply Hloop.
Qed.

Lemma parseStatement_dbComments_of (stmt : string) (p1 p2 : Parser) :
  dbComments p1 = dbComments p2 →
  dbComments (parseStatement p1 stmt) = dbComments (parseStatement p2 stmt).
Proof.
  intros Hp. unfold parseStatement.
  destruct (is_empty _); [done|].
  destruct (strings.HasPrefix _ "CREATE TABLE").
  { unfold parseCreateTableByString.
    destruct (regexp.FindStringSubmatch tableNameRegex 1 _); [|done].
    destruct (regexp.FindStringSubmatch fieldsRegex 1 _); [|done].
    cbn. by rewrite Hp. }
  destruct (strings.HasPrefix _ "COMMENT ON"); [|done].
  unfold parseCommentByString.
  destruct (match regexp.FindStringSubmatch (commentRegex squote) 2 _ with
            | Some matches => Some matches
            | None => regexp.FindStringSubmatch (commentRegex dquote) 2 _
            end) as [matches|]; [|done].
  destruct (negb _).
  - rewrite Hp. by case_match.
  - destruct (length _ <? 2); [done|]. rewrite Hp. by case_match.
Qed.

Lemma parseSQLFile_dbComments_of (content : string) (p1 p2 : Parser) :
  dbComments p1 = dbComments p2 →
  dbComments (parseSQLFile content p1) = dbComments (parseSQLFile content p2).
Proof.
  unfold parseSQLFile. generalize (splitSQLStatements
    (strings.TrimPrefix
       (strings.ReplaceAll content (String (chr 13) (str1 (chr 10))) (str1 (chr 10)))
       (String (chr 239) (String (chr 187) (str1 (chr 191)))))).
  intros stmts. revert p1 p2. induction stmts as [|stmt stmts IH]; intros p1 p2 Hp; [done|].
  cbn [fold_left]. by apply IH, parseStatement_dbComments_of.
Qed.

(** X9: the two scans do not get in each other's way: the Go scan leaves the
    tables alone, the SQL scan leaves the enumerations alone, and reading a
    Go file and an SQL file gives the same registry in either order. *)
Theorem scans_commute (node : ast.File) (relPath content : string) (p : Parser) :
  dbComments (parseFile node relPath p) = dbComments p
  ∧ enums (parseSQLFile content p) = enums p
  ∧ parseSQLFile content (parseFile node relPath p)
    = parseFile node relPath (parseSQLFile content p).
Proof.
  split; [apply parseFile_dbComments|]. split; [apply parseSQLFile_enums|].
  apply parser_eq.
  - rewrite parseSQLFile_enums. apply parseFile_enums_of. by rewrite parseSQLFile_enums.
  - rewrite parseFile_dbComments. apply parseSQLFile_dbComments_of.
    apply parseFile_dbComments.
Qed.

End RegistryFacts.

(** ** The statements of an SQL file *)

Lemma sdrop_app_add (a t : string) (k : nat) :
  sdrop (String.length a + k) (a +:+ t) = sdrop k t.
Proof. induction a as [|x a IH]; [done|]. cbn. apply IH. Qed.

Lemma HasSuffix_app (a t suffix : string) :
  strings.HasSuffix t suffix = true → strings.HasSuffix (a +:+ t) suffix = true.
Proof.
  unfold strings.HasSuffix. intros [Hlen Heq]%andb_prop.
  apply Nat.leb_le in Hlen. apply andb_true_intro. split.
  - apply Nat.leb_le. rewrite length_app_s. lia.
  - rewrite length_app_s.
    replace (String.length a + String.length t - String.length suffix)
      with (String.length a + (String.length t - String.length suffix)) by lia.
    by rewrite sdrop_app_add.
Qed.

Lemma HasSuffix_self (s : string) : strings.HasSuffix s s = true.
Proof.
  unfold strings.HasSuffix. rewrite Nat.leb_refl, Nat.sub_diag. cbn.
  destruct s; apply String.eqb_refl.
Qed.

Section StatementFacts.
Context `{UnicodeTables} `{Decoders}.

Lemma addLine_statements (st : list string * string) (line : string) (P : string → Prop) :
  (∀ stmt, isRelevantStatement stmt = true → strings.HasSuffix stmt ";" = true → P stmt) →
  Forall P st.1 → Forall P (addLine st line).1.
Proof.
  intros HP Hst. destruct st as [statements currentStmt]. unfold addLine.
  repeat case_match; try done; cbn [fst] in *;
    (apply Forall_app; split; [done|]); apply Forall_singleton;
    (apply HP; [done|]); by apply HasSuffix_app.
Qed.

(** X10: every statement [splitSQLStatements] hands on begins with one of
    the three keywords it looks for, white space and letter case apart, and
    ends with a semicolon. *)
Theorem splitSQLStatements_relevant (sql : string) :
  Forall (λ stmt, isRelevantStatement stmt = true ∧ strings.HasSuffix stmt ";" = true)
         (splitSQLStatements sql).
Proof.
  unfold splitSQLStatements.
  set (P := λ stmt, isRelevantStatement stmt = true ∧ strings.HasSuffix stmt ";" = true).
  assert (∀ lines st, Forall P st.1 → Forall P (fold_left addLine lines st).1) as Hfold.
  { induction lines as [|line lines IH]; intros st Hst; [done|].
    cbn [fold_left]. apply IH. by apply addLine_statements. }
  specialize (Hfold (strings.Split sql (str1 (chr 10))) ([], "") (Forall_nil_2 _)).
  destruct (fold_left addLine _ _) as [statements currentStmt]. cbn [fst] in Hfold.
  destruct (is_empty _); [done|].
  destruct (strings.HasSuffix (strings.TrimSpace currentStmt) ";") eqn:Hsemi.
  - destruct (isRelevantStatement _) eqn:Hrel; [|done].
    apply Forall_app. split; [done|]. by apply Forall_singleton.
  - destruct (isRelevantStatement _) eqn:Hrel; [|done].
    apply Forall_app. split; [done|]. apply Forall_singleton. split; [done|].
    apply HasSuffix_app, HasSuffix_self.
Qed.

(** X11: a statement that begins with [ALTER TABLE] is let through by the
    filter of the splitter, and the loop of [parseSQLFile] then does nothing
    with it. *)
Theorem alter_table_is_passed_over (stmt : string) (p : Parser) :
  strings.HasPrefix (strings.ToUpper (strings.TrimSpace stmt)) "ALTER TABLE" = true →
  isRelevantStatement stmt = true ∧ parseStatement p stmt = p.
Proof.
  intros Halter. split.
  - unfold isRelevantStatement. rewrite Halter. by rewrite !orb_true_r.
  - unfold parseStatement. destruct (is_empty _); [done|].
    apply HasPrefix_inv in Halter as [r ->]. done.
Qed.

Lemma commentField_names (fields : list FieldComment.t) (c comment : string) :
  FieldComment.FieldName <$> commentField fields c comment = FieldComment.FieldName <$> fields
  ∧ FieldComment.FieldType <$> commentField fields c comment
    = FieldComment.FieldType <$> fields.
Proof.
  induction fields as [|f fields [IHn IHt]]; [done|]. cbn [commentField].
  destruct (String.eqb _ _); cbn; [done|]. by rewrite IHn, IHt.
Qed.

(** X12: whatever a comment statement says, it leaves every table of the
    registry in place with its name, and the names, the types and the order
    of its columns as they were. *)
Theorem parseCommentByString_keeps_columns
    (stmt name : string) (table : TableComment.t) (p : Parser) :
  dbComments p !! name = Some table →
  ∃ table',
    dbComments (after (parseCommentByString stmt p) p) !! name = Some table'
    ∧ TableComment.TableName table' = TableComment.TableName table
    ∧ FieldComment.FieldName <$> TableComment.Fields table'
      = FieldComment.FieldName <$> TableComment.Fields table
    ∧ FieldComment.FieldType <$> TableComment.Fields table'
      = FieldComment.FieldType <$> TableComment.Fields table.
Proof.
  intros Hname. unfold parseCommentByString.
  destruct (match regexp.FindStringSubmatch (commentRegex squote) 2 stmt with
            | Some matches => Some matches
            | None => regexp.FindStringSubmatch (commentRegex dquote) 2 stmt
            end) as [matches|]; [|by exists table].
  assert (∀ key (changed changed' : TableComment.t),
            dbComments p !! key = Some changed →
            TableComment.TableName changed' = TableComment.TableName changed →
            FieldComment.FieldName <$> TableComment.Fields changed'
            = FieldComment.FieldName <$> TableComment.Fields changed →
            FieldComment.FieldType <$> TableComment.Fields changed'
            = FieldComment.FieldType <$> TableComment.Fields changed →
            ∃ table',
              (<[key := changed']> (dbComments p)) !! name = Some table'
              ∧ TableComment.TableName table' = TableComment.TableName table
              ∧ FieldComment.FieldName <$> TableComment.Fields table'
                = FieldComment.FieldName <$> TableComment.Fields table
              ∧ FieldComment.FieldType <$> TableComment.Fields table'
                = FieldComment.FieldType <$> TableComment.Fields table) as Hput.
  { intros key changed changed' Hkey Hn Hf Ht.
    destruct (decide (key = name)) as [->|Hne].
    - rewrite Hname in Hkey. injection Hkey as <-.
      exists changed'. by rewrite lookup_insert_eq.
    - exists table. by rewrite lookup_insert_ne. }
  destruct (negb _).
  - destruct (dbComments p !! strings.TrimPrefix _ _) as [found|] eqn:Hfound;
      cbn [after dbComments set_dbComments].
    + by apply (Hput _ found).
    + exists table. rewrite lookup_insert_ne; [done|]. intros Heq.
      rewrite Heq, Hname in Hfound. done.
  - destruct (length _ <? 2); [by exists table|].
    destruct (dbComments p !! strings.Trim _ _) as [found|] eqn:Hfound; [|by exists table].
    cbn [after dbComments set_dbComments].
    apply (Hput _ found); [done|done|..]; cbn; apply commentField_names.
Qed.

End StatementFacts.

(** ** Statements the patterns do not match *)

Section RegexpMisses.
Import regexp.
Context {R : Type}.
Implicit Types (k : string → list string → option R) (c : list string).

Lemma run_lit1_none (a : ascii) (s : string) c k :
  sall (λ x, negb (bool_decide (x = a))) s = true → run (lit1 a) s c k = None.
Proof.
  destruct s as [|x t]; [done|]. cbn. unfold only.
  by intros [->%negb_true_iff _]%andb_prop.
Qed.

(** A repetition followed by something that fails wherever it is tried
    fails, however far back it gives way. *)
Lemma star_none (p : ascii → bool) (s : string) c k :
  (∀ n, k (sdrop n s) c = None) → star p s c k = None.
Proof.
  induction s as [|x t IH]; intros Hk; cbn [star].
  - apply (Hk 0).
  - destruct (p x); [|apply (Hk 0)].
    rewrite IH; [apply (Hk 0)|]. intros n. apply (Hk (S n)).
Qed.

End RegexpMisses.

Section CreateTableMisses.
Context `{UnicodeTables} `{Decoders}.

Lemma fieldsRegex_none (stmt : string) :
  sall (λ x, negb (bool_decide (x = lparen))) stmt = true
  ∨ sall (λ x, negb (bool_decide (x = rparen))) stmt = true →
  regexp.FindStringSubmatch fieldsRegex 1 stmt = None.
Proof.
  unfold regexp.FindStringSubmatch, fieldsRegex.
  assert (∀ s, sall (λ x, negb (bool_decide (x = lparen))) s = true
               ∨ sall (λ x, negb (bool_decide (x = rparen))) s = true →
               regexp.run (regexp.seq [regexp.lit1 lparen;
                                       regexp.Cap 1 (regexp.Star regexp.dot);
                                       regexp.lit1 rparen])
                 s (replicate 2 "") regexp.accept = None) as Hrun.
  { intros s [Hl|Hr]; rewrite run_seq_cons; [by apply run_lit1_none|].
    destruct s as [|x t]; [done|]. cbn [regexp.run regexp.lit1].
    destruct (regexp.only lparen x); [|done].
    apply star_none. intros n. cbn [sall] in Hr. apply andb_prop in Hr as [_ Hr].
    apply run_lit1_none. by apply sall_sdrop. }
  induction stmt as [|x t IH]; intros Hs; cbn [regexp.find_from]; rewrite Hrun by done; [done|].
  apply IH. cbn [sall] in Hs.
  destruct Hs as [[_ Hs]%andb_prop|[_ Hs]%andb_prop]; [by left|by right].
Qed.

(** X13: a [CREATE TABLE] statement in which no opening parenthesis, or no
    closing one, occurs is refused with an error, so the loop of
    [parseSQLFile] goes on with the registry as it was. *)
Theorem create_table_needs_parentheses (stmt : string) (p : Parser) :
  sall (λ x, negb (bool_decide (x = lparen))) stmt = true
  ∨ sall (λ x, negb (bool_decide (x = rparen))) stmt = true →
  (∃ msg, parseCreateTableByString stmt p = Err msg)
  ∧ after (parseCreateTableByString stmt p) p = p.
Proof.
  intros Hs. unfold parseCreateTableByString.
  destruct (regexp.FindStringSubmatch tableNameRegex 1 stmt); [|by eauto].
  rewrite fieldsRegex_none by done. by eauto.
Qed.

End CreateTableMisses.

(** ** Comments on tables *)

Lemma run_Alt_left {R : Type} (a b : regexp.re) s c
    (k : string → list string → option R) (v : R) :
  regexp.run a s c k = Some v → regexp.run (regexp.Alt a b) s c k = Some v.
Proof. intros Ha. cbn [regexp.run]. by rewrite Ha. Qed.

Lemma Contains_plain (s : string) :
  sall (λ x, negb (bool_decide (x = period))) s = true → strings.Contains s "." = false.
Proof.
  intros Hs. unfold strings.Contains. apply bool_decide_eq_false_2. intros [i Hi].
  revert i Hi. induction s as [|x s IH]; intros i; [done|].
  cbn [sall] in Hs. apply andb_prop in Hs as [Hx%negb_true_iff%bool_decide_eq_false Hs].
  cbn [strings.Index strings.HasPrefix]. destruct (ascii_dec x "."); [done|].
  destruct (strings.Index s ".") as [j|] eqn:Hj; [|done]. intros _. by apply (IH Hs j).
Qed.

Lemma beginsWith_public (t : string) :
  sall identByte t = true → beginsWith "public." t = false.
Proof.
  intros Ht. destruct (beginsWith "public." t) eqn:Hb; [exfalso|done].
  do 6 (destruct t as [|? t]; [by cbn in Hb|];
        cbn [beginsWith sall] in Hb, Ht;
        apply andb_prop in Hb as [_ Hb]; apply andb_prop in Ht as [_ Ht]).
  destruct t as [|x t]; [by cbn in Hb|]. cbn [beginsWith sall] in Hb, Ht.
  apply andb_prop in Hb as [Hb _]. apply andb_prop in Ht as [Ht _].
  apply identByte_inv in Ht as (_ & _ & Ht). apply Ht.
  unfold regexp.foldEq in Hb. cbn in Hb. by apply bool_decide_eq_true in Hb.
Qed.

Section TableComments.
Context `{UnicodeTables} `{Decoders}.

(** The first pattern of [parseCommentByString] on a table comment. *)
Lemma commentRegex_table (pub ref text trailer : string) :
  (pub = "" ∧ beginsWith "public." ref = false) ∨ pub = "public." →
  ref ≠ "" →
  sall (λ x, negb (regexp.space x)) ref = true →
  sall (λ x, negb (regexp.only squote x)) text = true →
  ∃ whole,
    regexp.FindStringSubmatch (commentRegex squote) 2
      ("COMMENT ON TABLE " +:+ pub +:+ ref +:+ " IS '" +:+ text +:+ "'" +:+ trailer)
    = Some [whole; ref; text].
Proof.
  intros Hpub Hne Href Htext.
  set (tail2 := String squote trailer).
  set (tail1 := String blank ("IS" +:+ String blank (String squote (text +:+ tail2)))).
  change ("COMMENT ON TABLE " +:+ pub +:+ ref +:+ " IS '" +:+ text +:+ "'" +:+ trailer)
    with ("COMMENT" +:+ String blank ("ON" +:+ String blank ("TABLE" +:+
            String blank (pub +:+ ref +:+ tail1)))).
  eexists. apply (find_from_here _ 2 _ trailer [""; ref; text]).
  unfold commentRegex.
  rewrite run_seq_cons, (run_lit_i_hit "COMMENT" "COMMENT") by done.
  rewrite run_seq_cons, run_Plus_space by done.
  rewrite run_seq_cons, (run_lit_i_hit "ON" "ON") by done.
  rewrite run_seq_cons, run_Plus_space by done.
  rewrite run_seq_cons.
  assert (stops regexp.space (pub +:+ ref +:+ tail1) = true) as Hstop.
  { destruct Hpub as [[-> _]| ->]; [|done].
    destruct ref as [|y ref]; [done|]. cbn in *. by apply andb_prop in Href as [-> _]. }
  apply run_Opt_take. apply run_Alt_left.
  rewrite run_seq_cons, (run_lit_i_hit "TABLE" "TABLE") by done.
  rewrite run_seq_cons, run_Plus_space by done.
  rewrite run_seq_nil, run_seq_cons.
  assert (∀ c,
             regexp.run (regexp.seq
               [regexp.Cap 1 (regexp.Plus (λ x, negb (regexp.space x)));
                regexp.Plus regexp.space; regexp.lit_i "IS"; regexp.Plus regexp.space;
                regexp.lit1 squote;
                regexp.Cap 2 (regexp.Star (λ x, negb (regexp.only squote x)));
                regexp.lit1 squote]) (ref +:+ tail1) c regexp.accept
             = Some (trailer, <[2 := text]> (<[1 := ref]> c))) as Hrest.
  { intros c. rewrite run_seq_cons, run_Cap.
    destruct ref as [|y ref]; [done|].
    apply run_Plus_greedy; [done|done|].
    rewrite consumed_app.
    rewrite run_seq_cons. unfold tail1. rewrite run_Plus_space by done.
    rewrite run_seq_cons, (run_lit_i_hit "IS" "IS") by done.
    rewrite run_seq_cons, run_Plus_space by done.
    rewrite run_seq_cons, run_lit1.
    rewrite run_seq_cons, run_Cap.
    apply run_Star_greedy; [done| |].
    { unfold tail2. cbn. unfold regexp.only. by rewrite bool_decide_eq_true_2. }
    rewrite consumed_app. unfold tail2.
    rewrite run_seq_cons, run_lit1. done. }
  destruct Hpub as [[-> Hmiss]| ->].
  - apply run_Opt_skip; [|exact (Hrest (replicate 3 ""))].
    apply run_lit_i_miss; [done|].
    cbn [String.append]. unfold tail1. by rewrite beginsWith_stop.
  - apply run_Opt_take.
    rewrite (run_lit_i_hit "public." "public.") by done.
    exact (Hrest (replicate 3 "")).
Qed.

Lemma parseCommentByString_table (stmt whole target text : string) (p : Parser) :
  regexp.FindStringSubmatch (commentRegex squote) 2 stmt = Some [whole; target; text] →
  strings.Contains (strings.Trim target (str1 dquote)) "." = false →
  parseCommentByString stmt p
  = Ok (withTableComment p
          (strings.TrimPrefix (strings.Trim target (str1 dquote)) "public.")
          (decodeComment text)).
Proof.
  intros Hfind Hdot. unfold parseCommentByString. rewrite Hfind.
  cbn [lookup_total list_lookup_total]. rewrite Hdot. cbn [negb].
  unfold withTableComment. by destruct (dbComments p !! _).
Qed.

Lemma ident_target (t : string) :
  t ≠ "" → sall identByte t = true →
  strings.Trim t (str1 dquote) = t
  ∧ strings.Trim (quoted t) (str1 dquote) = t
  ∧ strings.Contains t "." = false
  ∧ strings.TrimPrefix t "public." = t.
Proof.
  intros Hne Ht.
  destruct (ident_ends t Hne Ht) as (y & t' & z & -> & Hy & Hz & Hzi).
  apply identByte_inv in Hy as (_ & Hy & _). apply identByte_inv in Hzi as (_ & Hzq & _).
  pose proof (ident_plain _ Ht) as Hplain.
  split; [by apply (Trim_plain _ y z); [apply inSet_quote| |apply inSet_quote]|].
  split; [by apply (Trim_quoted y z)|].
  split; [by apply Contains_plain|].
  unfold strings.TrimPrefix. by rewrite HasPrefix_public.
Qed.

(** X14: a [COMMENT ON TABLE] statement that names table [t] bare, as
    [public.t], or in double quotes is accepted, and the comment goes to the
    entry of [t]: an entry that is there keeps its columns and takes the
    comment, and where there is none an entry without columns is made. *)
Theorem comment_on_table
    (withSchema withQuotes : bool) (t text trailer : string) (p : Parser) :
  t ≠ "" → sall identByte t = true →
  sall (λ x, negb (bool_decide (x = squote))) text = true →
  withSchema && withQuotes = false →
  let stmt := commentOnTable (tableRef withSchema withQuotes t) text trailer in
  let comment := decodeComment text in
  ∃ p',
    parseCommentByString stmt p = Ok p'
    ∧ enums p' = enums p
    ∧ (∀ other, other ≠ t → dbComments p' !! other = dbComments p !! other)
    ∧ (∀ table, dbComments p !! t = Some table →
         dbComments p' !! t = Some (TableComment.set_Comment table comment))
    ∧ (dbComments p !! t = None →
         dbComments p' !! t = Some {| TableComment.TableName := t;
                                      TableComment.Comment := comment;
                                      TableComment.Fields := [] |}).
Proof.
  intros Hne Ht Htext Hform stmt comment.
  destruct (ident_target t Hne Ht) as (Hbare & Hquoted & Hdot & Hpub).
  pose proof (ident_nospace t Ht) as Hts.
  assert (parseCommentByString stmt p = Ok (withTableComment p t comment)) as ->.
  { unfold stmt, commentOnTable.
    destruct withSchema, withQuotes; [done|..]; cbn [tableRef].
    - destruct (commentRegex_table "public." t text trailer) as [whole Hfind];
        [by right|done..|].
      rewrite (parseCommentByString_table _ _ _ _ _ Hfind); rewrite Hbare; [|done].
      by rewrite Hpub.
    - destruct (commentRegex_table "" (quoted t) text trailer) as [whole Hfind];
        [by left|done| |done|].
      { unfold quoted. cbn [sall]. rewrite sall_app, Hts. done. }
      rewrite (parseCommentByString_table _ _ _ _ _ Hfind); rewrite Hquoted; [|done].
      by rewrite Hpub.
    - destruct (commentRegex_table "" t text trailer) as [whole Hfind];
        [left; split; [done|by apply beginsWith_public]|done..|].
      rewrite (parseCommentByString_table _ _ _ _ _ Hfind); rewrite Hbare; [|done].
      by rewrite Hpub. }
  eexists. split; [done|]. unfold withTableComment. cbn [enums dbComments set_dbComments].
  split; [by destruct p|]. split; [|split].
  - intros other Hother. by rewrite lookup_insert_ne.
  - intros table ->. by rewrite lookup_insert_eq.
  - intros ->. by rewrite lookup_insert_eq.
Qed.

(** X15: a [COMMENT ON TABLE] statement that writes the table as the quoted
    schema [public], a period and the quoted name [t] is accepted, but it is
    read as a comment on column [t] of a table called [public]: the entry of
    table [t] stays as it was, and with no table [public] in the registry
    nothing changes at all. *)
Theorem comment_on_quoted_schema_table (t text trailer : string) (p : Parser) :
  t ≠ "" → sall identByte t = true →
  sall (λ x, negb (bool_decide (x = squote))) text = true →
  let stmt := commentOnTable (tableRef true true t) text trailer in
  let p' := withColumnComment p "public" t (decodeComment text) in
  parseCommentByString stmt p = Ok p'
  ∧ (t ≠ "public" → dbComments p' !! t = dbComments p !! t)
  ∧ (dbComments p !! "public" = None → p' = p).
Proof.
  intros Hne Ht Htext stmt p'.
  pose proof (ident_nospace t Ht) as Hts.
  split; [|split].
  - unfold stmt, commentOnTable. cbn [tableRef].
    destruct (commentRegex_table "" (quoted "public" +:+ "." +:+ quoted t) text trailer)
      as [whole Hfind]; [by left|done| |done|].
    { unfold quoted.
      repeat (progress (rewrite ?sall_app; cbn [String.append sall str1])).
      rewrite Hts. done. }
    apply (parseCommentByString_resolved _ whole (quoted "public" +:+ "." +:+ quoted t));
      [exact Hfind|].
    apply (resolvesTo_quoted "" "public" t); [done|done|done|done|by left].
  - intros Hother. unfold p', withColumnComment.
    destruct (dbComments p !! "public"); [|done].
    cbn [dbComments set_dbComments]. by rewrite lookup_insert_ne.
  - intros Hnone. unfold p', withColumnComment. by rewrite Hnone.
Qed.

End TableComments.

(** ** Words of a name *)

Section CamelCase.
Context `{UnicodeTables}.

Lemma IsUpper_ASCII (c : ascii) :
  isASCII c = true → unicode.IsUpper (byte c) = isUpperASCII c.
Proof.
  unfold isASCII, unicode.IsUpper, isUpperASCII, unicode.MaxLatin1.
  intros Hc%Z.ltb_lt. pose proof (byte_range c).
  replace ((0 <=? byte c)%Z && (byte c <=? 255)%Z) with true by (symmetry; lia).
  replace ((192 <=? byte c)%Z && (byte c <=? 214)%Z) with false by (symmetry; lia).
  replace ((216 <=? byte c)%Z && (byte c <=? 222)%Z) with false by (symmetry; lia).
  by rewrite !orb_false_r.
Qed.

Lemma splitCamelCase_loop_ASCII (s : string) :
  ∀ words current,
    sall isASCII s = true →
    current = "" ∨ camelWord current →
    ∃ more,
      splitCamelCase_loop (utf8.runes_from 0 s) words current = words ++ more
      ∧ sconcat more = current +:+ s
      ∧ Forall camelWord more
      ∧ match more with
        | [] => True
        | w :: rest =>
          (∀ x tail, current = String x tail → ∃ tail', w = String x tail')
          ∧ Forall capitalised rest
        end.
Proof.
  induction s as [|c t IH]; intros words current Hs Hcur.
  - cbn [utf8.runes_from splitCamelCase_loop]. destruct Hcur as [->|Hword].
    + exists []. by rewrite app_nil_r.
    + pose proof Hword as (x & tail & -> & Htail). exists [String x tail].
      cbn. rewrite app_nil_r_s. repeat split; [by constructor|by eauto|done].
  - cbn [sall] in Hs. apply andb_prop in Hs as [Hc Hs].
    cbn [utf8.runes_from]. rewrite DecodeRune_ASCII by done.
    cbn [snd fst Nat.sub splitCamelCase_loop]. rewrite IsUpper_ASCII by done.
    rewrite EncodeRune_ASCII, chr_byte
      by (unfold isASCII in Hc; apply Z.ltb_lt in Hc; pose proof (byte_range c); lia).
    destruct (isUpperASCII c) eqn:Hup.
    + destruct (IH (if negb (is_empty current) then words ++ [current] else words) (str1 c) Hs)
        as (more & Hout & Hcat & Hwords & Hshape); [right; by exists c, ""|].
      assert (Forall capitalised more) as Hcaps.
      { destruct more as [|w rest]; [done|]. destruct Hshape as [Hw Hrest].
        constructor; [|done]. destruct (Hw c "" eq_refl) as [tail' ->]. by exists c, tail'. }
      rewrite Hout. destruct Hcur as [->|Hword].
      * exists more. cbn. repeat split; [done|done|].
        destruct more as [|w rest]; [done|]. split; [done|]. by inversion Hcaps.
      * pose proof Hword as (x & tail & -> & Htail). cbn [is_empty negb].
        exists (String x tail :: more). rewrite <- app_assoc. cbn [app sconcat].
        rewrite Hcat. repeat split; [by constructor|by eauto|done].
    + destruct (IH words (current +:+ str1 c) Hs) as (more & Hout & Hcat & Hwords & Hshape).
      { right. destruct Hcur as [->|(x & tail & -> & Htail)].
        - by exists c, "".
        - exists x, (tail +:+ str1 c). split; [done|].
          rewrite sall_app, Htail. cbn. by rewrite Hup. }
      exists more. rewrite Hout, Hcat, app_assoc_s. repeat split; [done|].
      destruct more as [|w rest]; [done|]. destruct Hshape as [Hw Hrest]. split; [|done].
      intros x tail ->. by apply (Hw x (tail +:+ str1 c)).
Qed.

(** X16: on an ASCII name, [splitCamelCase] cuts before every capital letter
    and nowhere else: the words put together give the name back, no word is
    empty or has a capital letter after its first character, and every word
    but the first begins with one. *)
Theorem splitCamelCase_words (s : string) :
  sall isASCII s = true →
  sconcat (splitCamelCase s) = s
  ∧ Forall camelWord (splitCamelCase s)
  ∧ Forall capitalised (tail (splitCamelCase s)).
Proof.
  intros Hs. unfold splitCamelCase, utf8.runes.
  destruct (splitCamelCase_loop_ASCII s [] "" Hs) as (more & -> & Hcat & Hwords & Hshape);
    [by left|].
  cbn [app]. repeat split; [done|done|].
  destruct more as [|w rest]; [done|]. apply Hshape.
Qed.

End CamelCase.

(** ** What a later scan does to a group *)

Lemma groupGrows_refl (g : EnumGroup.t) : groupGrows g g.
Proof. repeat split; [done|done|]. exists "". by rewrite app_nil_r_s. Qed.

Lemma groupGrows_trans (g1 g2 g3 : EnumGroup.t) :
  groupGrows g1 g2 → groupGrows g2 g3 → groupGrows g1 g3.
Proof.
  intros (Hn & Hp & Hf & Hty & Hc & Hi & Ht & more & Hd)
         (Hn' & Hp' & Hf' & Hty' & Hc' & Hi' & Ht' & more' & Hd').
  repeat split; try congruence; [by etrans|by etrans|].
  exists (more +:+ more'). by rewrite Hd', Hd, app_assoc_s.
Qed.

Lemma mergeEnumGroup_grows (existing new : EnumGroup.t) :
  groupGrows existing (mergeEnumGroup existing new).
Proof.
  repeat split.
  - rewrite mergeEnumGroup_Items. by apply prefix_app_r.
  - rewrite mergeEnumGroup_Tags. intros tag Htag.
    apply elem_of_sort_Strings, elem_of_app. by left.
  - cbn. destruct (_ && _); [by eexists|]. exists "". by rewrite app_nil_r_s.
Qed.

Section GroupsGrow.
Context `{UnicodeTables}.

Lemma addGroup_grows (p : Parser) (group : EnumGroup.t) (name : string) (g : EnumGroup.t) :
  enums p !! name = Some g →
  ∃ g', enums (addGroup p group) !! name = Some g' ∧ groupGrows g g'.
Proof.
  intros Hg. unfold addGroup. cbn [set_Tags_Category EnumGroup.Name EnumGroup.Tags].
  destruct (decide (EnumGroup.Name group = name)) as [<-|Hne].
  - rewrite Hg. cbn [enums set_enums]. rewrite lookup_insert_eq.
    eexists. split; [done|]. apply mergeEnumGroup_grows.
  - exists g. split; [|apply groupGrows_refl].
    case_match; cbn [enums set_enums]; by rewrite lookup_insert_ne.
Qed.

(** X17: reading one more Go file loses nothing of the enumeration
    registry.  Every group that was there is still there under its name,
    with its package, file, kind and category as they were; its members are
    the old ones in their order with new ones, if any, after them; its tags
    include the old ones; its description begins with the old one. *)
Theorem parseFile_groups_grow
    (node : ast.File) (relPath name : string) (g : EnumGroup.t) (p : Parser) :
  enums p !! name = Some g →
  ∃ g', enums (parseFile node relPath p) !! name = Some g' ∧ groupGrows g g'.
Proof.
  unfold parseFile. revert p g.
  induction (ast.Decls node) as [|decl decls IH]; intros p g Hg.
  { exists g. split; [done|apply groupGrows_refl]. }
  cbn [fold_left].
  assert (∃ g1, enums (parseDecl (ast.PackageName node) relPath p decl) !! name = Some g1
                ∧ groupGrows g g1) as (g1 & Hg1 & Hgrow1).
  { assert (∃ g1, enums p !! name = Some g1 ∧ groupGrows g g1) as Hstay
      by (exists g; split; [done|apply groupGrows_refl]).
    destruct decl as [gen|]; [|done]. unfold parseDecl.
    assert (∀ comments,
              ∃ g1, enums (doc_loop gen (ast.PackageName node) relPath comments p) !! name
                    = Some g1 ∧ groupGrows g g1) as Hloop.
    { induction comments as [|text comments IHc]; cbn [doc_loop]; [done|].
      destruct (strings.Contains text "@ai"); [|done].
      destruct (parseEnumGroup _ _ _ _); [|done]. by apply addGroup_grows. }
    destruct (ast.Tok gen), (ast.GenDoc gen); try done; apply Hloop. }
  destruct (IH _ _ Hg1) as (g' & Hg' & Hgrow'). exists g'. split; [done|].
  by apply (groupGrows_trans g g1).
Qed.

End GroupsGrow.

(** ** The shapes of a [CREATE TABLE] statement *)

Section RegexpKeywords.
Import regexp.
Context {R : Type}.
Implicit Types (k : string → list string → option R) (c : list string).

Lemma run_lit1_miss (a x : ascii) (t : string) c k :
  x ≠ a → run (lit1 a) (String x t) c k = None.
Proof. intros Hx. cbn. unfold only. by rewrite bool_decide_eq_false_2. Qed.

(** A keyword without S and K is matched letter by letter, with no way
    back into it. *)
Lemma run_lit_i_plain (keyword s : string) c k :
  sall plainFold keyword = true →
  run (lit_i keyword) s c k
  = if beginsWith keyword s then k (sdrop (String.length keyword) s) c else None.
Proof.
  revert s. induction keyword as [|a keyword IH]; intros s Hk.
  - by destruct s.
  - cbn [sall] in Hk. apply andb_prop in Hk as [Ha Hk]. cbn [lit_i run].
    destruct s as [|x t]; [by apply run_fold1_miss|]. cbn [beginsWith String.length sdrop].
    destruct (foldEq a x) eqn:Hx; cbn [andb].
    + rewrite run_fold1_hit by done. by apply IH.
    + by apply run_fold1_miss.
Qed.

(** The greedy repetition when what follows fails everywhere behind the
    last place it can succeed at. *)
Lemma star_last (p : ascii → bool) (u rest : string) (x : ascii) c k (v : R) :
  sall p u = true → p x = true →
  (∀ n, k (sdrop n rest) c = None) →
  k (String x rest) c = Some v →
  star p (u +:+ String x rest) c k = Some v.
Proof.
  intros Hu Hx Hnone Hk. induction u as [|y u IH].
  - cbn [String.append star]. rewrite Hx. by rewrite star_none.
  - cbn [sall] in Hu. apply andb_prop in Hu as [Hy Hu].
    cbn [String.append star]. by rewrite Hy, IH.
Qed.

End RegexpKeywords.

(** A keyword read at the front of a name that is followed by [z], a
    character the keyword has not: the keyword ends inside the name. *)
Lemma beginsWith_within (keyword t r : string) (z : ascii) :
  sall (λ a, negb (regexp.foldEq a z)) keyword = true →
  beginsWith keyword (t +:+ String z r) = true →
  ∃ w t', t = w +:+ t'
          ∧ sdrop (String.length keyword) (t +:+ String z r) = t' +:+ String z r.
Proof.
  revert t. induction keyword as [|a keyword IH]; intros t Hk Hb.
  - by exists "", t.
  - cbn [sall] in Hk. apply andb_prop in Hk as [Ha%negb_true_iff Hk].
    destruct t as [|x t]; cbn [String.append beginsWith] in Hb.
    + by rewrite Ha in Hb.
    + apply andb_prop in Hb as [_ Hb]. destruct (IH t Hk Hb) as (w & t' & -> & Hdrop).
      by exists (String x w), t'.
Qed.

Lemma nameByte_inv (x : ascii) :
  nameByte x = true →
  identByte x = true ∧ x ≠ lparen
  ∧ negb (regexp.only dquote x || regexp.space x || regexp.only lparen x) = true.
Proof.
  unfold nameByte. intros [Hid Hl%negb_true_iff%bool_decide_eq_false]%andb_prop.
  split; [done|]. split; [done|].
  apply identByte_inv in Hid as (Hs & Hq & _). unfold regexp.only.
  by rewrite Hs, !bool_decide_eq_false_2.
Qed.

Lemma name_ident (t : string) : sall nameByte t = true → sall identByte t = true.
Proof. apply sall_impl. intros x Hx. by apply nameByte_inv in Hx as [? _]. Qed.

Section CreateTableShapes.
Context `{UnicodeTables} `{Decoders}.

(** The optional schema of the table-name pattern does not match at the
    front of a name: after the letters of [public], the name, the blank or
    the closing quote goes on where the pattern wants a period. *)
Lemma schema_after_keyword {R} (t r : string) (z y : ascii) c
    (k : string → list string → option R) :
  sall identByte t = true → z = blank ∨ z = dquote → y ≠ period →
  regexp.run (regexp.seq [regexp.lit_i "public"; regexp.Opt (regexp.lit1 dquote);
                          regexp.lit1 period])
    (t +:+ String z (String y r)) c k = None.
Proof.
  intros Ht Hz Hy. rewrite run_seq_cons, run_lit_i_plain by done.
  destruct (beginsWith "public" _) eqn:Hb; [|done].
  apply beginsWith_within in Hb as (w & t' & -> & ->); [|by destruct Hz as [-> | ->]].
  rewrite sall_app in Ht. apply andb_prop in Ht as [_ Ht].
  rewrite run_seq_cons, run_Opt. destruct t' as [|x t'']; cbn [String.append].
  - destruct Hz as [-> | ->].
    + rewrite run_lit1_miss by done. rewrite run_seq_cons. by apply run_lit1_miss.
    + rewrite run_lit1. rewrite !run_seq_cons. by rewrite !run_lit1_miss.
  - cbn [sall] in Ht. apply andb_prop in Ht as [Hx _].
    apply identByte_inv in Hx as (_ & Hq & Hp).
    rewrite run_lit1_miss by done. rewrite run_seq_cons. by apply run_lit1_miss.
Qed.

(** The name, bare or quoted, with the rest of the pattern. *)
Lemma tableName_plain (quotes : bool) (t r : string) (c : list string) :
  t ≠ "" → sall nameByte t = true →
  let tail := String blank (String lparen r) in
  regexp.run (regexp.seq
    [regexp.Opt (regexp.lit1 dquote);
     regexp.Cap 1 (regexp.Plus
       (λ x, negb (regexp.only dquote x || regexp.space x || regexp.only lparen x)));
     regexp.Opt (regexp.lit1 dquote)])
    ((if quotes then quoted t else t) +:+ tail) c regexp.accept
  = Some (tail, <[1 := t]> c).
Proof.
  intros Hne Ht tail.
  assert (sall (λ x, negb (regexp.only dquote x || regexp.space x || regexp.only lparen x)) t
          = true) as Hclass
    by (revert Ht; apply sall_impl; intros x Hx; by apply nameByte_inv in Hx as (_ & _ & ?)).
  destruct t as [|y u]; [done|].
  pose proof Ht as Hy. cbn [sall] in Hy. apply andb_prop in Hy as [Hy _].
  apply nameByte_inv in Hy as (Hy & _ & _). apply identByte_inv in Hy as (_ & Hq & _).
  rewrite run_seq_cons. destruct quotes.
  - unfold quoted. cbn [String.append]. apply run_Opt_take. rewrite run_lit1.
    rewrite run_seq_cons, run_Cap.
    rewrite (app_assoc_s u (str1 dquote) tail).
    change (String y (u +:+ str1 dquote +:+ tail))
      with (String y u +:+ String dquote tail).
    apply run_Plus_greedy; [done| |].
    { cbn. unfold regexp.only. by rewrite bool_decide_eq_true_2. }
    rewrite consumed_app. rewrite run_seq_cons. apply run_Opt_take.
    by rewrite run_lit1.
  - apply run_Opt_skip; [by apply run_lit1_miss|].
    rewrite run_seq_cons, run_Cap. apply run_Plus_greedy; [done|done|].
    rewrite consumed_app. rewrite run_seq_cons. by apply run_Opt_skip.
Qed.

End CreateTableShapes.


Section CreateTableStatement.
Context `{UnicodeTables} `{Decoders}.

(** The optional schema and the name. *)
Lemma tableName_schema (withSchema withQuotes : bool) (t r : string) (c : list string) :
  t ≠ "" → sall nameByte t = true →
  let tail := String blank (String lparen r) in
  regexp.run (regexp.seq
    [regexp.Opt (regexp.seq [regexp.Opt (regexp.lit1 dquote); regexp.lit_i "public";
                             regexp.Opt (regexp.lit1 dquote); regexp.lit1 period]);
     regexp.Opt (regexp.lit1 dquote);
     regexp.Cap 1 (regexp.Plus
       (λ x, negb (regexp.only dquote x || regexp.space x || regexp.only lparen x)));
     regexp.Opt (regexp.lit1 dquote)])
    (tableRef withSchema withQuotes t +:+ tail) c regexp.accept
  = Some (tail, <[1 := t]> c).
Proof.
  intros Hne Ht tail. pose proof (name_ident t Ht) as Hid.
  rewrite run_seq_cons. destruct withSchema; cbn [tableRef].
  - apply run_Opt_take. rewrite run_seq_cons. destruct withQuotes.
    + change ((quoted "public" +:+ "." +:+ quoted t) +:+ tail)
        with (String dquote ("public" +:+ String dquote (String period (quoted t +:+ tail)))).
      apply run_Opt_take. rewrite run_lit1.
      rewrite run_seq_cons, (run_lit_i_hit "public" "public") by done.
      rewrite run_seq_cons. apply run_Opt_take. rewrite run_lit1.
      rewrite run_seq_cons, run_lit1, run_seq_nil.
      apply (tableName_plain true); done.
    + change (("public." +:+ t) +:+ tail) with ("public" +:+ String period (t +:+ tail)).
      apply run_Opt_skip; [by apply run_lit1_miss|].
      rewrite run_seq_cons, (run_lit_i_hit "public" "public") by done.
      rewrite run_seq_cons. apply run_Opt_skip; [by apply run_lit1_miss|].
      rewrite run_seq_cons, run_lit1, run_seq_nil.
      apply (tableName_plain false); done.
  - apply run_Opt_skip; [|by apply (tableName_plain withQuotes)].
    rewrite run_seq_cons, run_Opt. destruct withQuotes.
    + unfold quoted. rewrite !app_cons_s, run_lit1, app_assoc_s.
      change (str1 dquote +:+ tail) with (String dquote (String blank (String lparen r))).
      rewrite schema_after_keyword; [|done|by right|done].
      rewrite run_seq_cons. by apply run_lit_i_miss.
    + destruct t as [|y u]; [done|].
      pose proof Hid as Hy. cbn [sall] in Hy. apply andb_prop in Hy as [Hy _].
      apply identByte_inv in Hy as (_ & Hq & _).
      rewrite app_cons_s, run_lit1_miss by done. rewrite <- app_cons_s.
      apply schema_after_keyword; [done|by left|done].
Qed.

(** The optional [IF NOT EXISTS] does not match at the name. *)
Lemma ifNotExists_none {R} (withSchema withQuotes : bool) (t r : string) (c : list string)
    (k : string → list string → option R) :
  t ≠ "" → sall nameByte t = true →
  regexp.run (regexp.seq [regexp.lit_i "IF"; regexp.Plus regexp.space;
                          regexp.lit_i "NOT"; regexp.Plus regexp.space;
                          regexp.lit_i "EXISTS"; regexp.Plus regexp.space])
    (tableRef withSchema withQuotes t +:+ String blank (String lparen r)) c k = None.
Proof.
  intros Hne Ht. pose proof (name_ident t Ht) as Hid. rewrite run_seq_cons.
  destruct withSchema, withQuotes; cbn [tableRef]; try by apply run_lit_i_miss.
  rewrite run_lit_i_plain by done.
  destruct (beginsWith "IF" _) eqn:Hb; [|done].
  apply beginsWith_within in Hb as (w & t' & -> & ->); [|done].
  rewrite sall_app in Hid. apply andb_prop in Hid as [_ Hid].
  rewrite run_seq_cons. destruct t' as [|x t'']; cbn [String.append].
  - rewrite run_Plus_space by done. rewrite run_seq_cons. by apply run_lit_i_miss.
  - cbn [sall] in Hid. apply andb_prop in Hid as [Hx _].
    apply identByte_inv in Hx as (Hs & _ & _). cbn [regexp.Plus regexp.run]. by rewrite Hs.
Qed.

Lemma tableNameRegex_name
    (ifNotExists withSchema withQuotes : bool) (t body trailer : string) :
  t ≠ "" → sall nameByte t = true →
  ∃ whole,
    regexp.FindStringSubmatch tableNameRegex 1
      (createTable ifNotExists (tableRef withSchema withQuotes t) body trailer)
    = Some [whole; t].
Proof.
  intros Hne Ht. pose proof (name_ident t Ht) as Hid.
  set (r := body +:+ ")" +:+ trailer).
  set (tail := String blank (String lparen r)).
  set (ref := tableRef withSchema withQuotes t).
  assert (createTable ifNotExists ref body trailer
          = "CREATE" +:+ String blank ("TABLE" +:+ String blank
              ((if ifNotExists then "IF NOT EXISTS " else "") +:+ ref +:+ tail))) as ->.
  { reflexivity. }
  assert (stops regexp.space (ref +:+ tail) = true) as Hstop.
  { unfold ref. destruct withSchema, withQuotes; cbn [tableRef]; try done.
    destruct t as [|y u]; [done|]. cbn in Hid |- *.
    apply andb_prop in Hid as [Hy _]. apply identByte_inv in Hy as (-> & _). done. }
  eexists. apply (find_from_here _ 1 _ tail [""; t]).
  unfold tableNameRegex.
  rewrite run_seq_cons, (run_lit_i_hit "CREATE" "CREATE") by done.
  rewrite run_seq_cons, run_Plus_space by done.
  rewrite run_seq_cons, (run_lit_i_hit "TABLE" "TABLE") by done.
  rewrite run_seq_cons, run_Plus_space by (by destruct ifNotExists).
  rewrite run_seq_cons. destruct ifNotExists.
  - apply run_Opt_take.
    change ("IF NOT EXISTS " +:+ ref +:+ tail)
      with ("IF" +:+ String blank ("NOT" +:+ String blank ("EXISTS" +:+
              String blank (ref +:+ tail)))).
    rewrite run_seq_cons, (run_lit_i_hit "IF" "IF") by done.
    rewrite run_seq_cons, run_Plus_space by done.
    rewrite run_seq_cons, (run_lit_i_hit "NOT" "NOT") by done.
    rewrite run_seq_cons, run_Plus_space by done.
    rewrite run_seq_cons, (run_lit_i_hit "EXISTS" "EXISTS") by done.
    rewrite run_seq_cons, run_Plus_space by done.
    rewrite run_seq_nil. by apply (tableName_schema withSchema withQuotes t r).
  - cbn [String.append].
    apply run_Opt_skip; [by apply ifNotExists_none|].
    by apply (tableName_schema withSchema withQuotes t r).
Qed.

Lemma fieldsRegex_skip (head s : string) :
  sall (λ x, negb (bool_decide (x = lparen))) head = true →
  regexp.find_from fieldsRegex 1 (head +:+ s) = regexp.find_from fieldsRegex 1 s.
Proof.
  induction head as [|x head IH]; intros Hhead; [done|].
  cbn [sall] in Hhead. apply andb_prop in Hhead as [Hx%negb_true_iff%bool_decide_eq_false Hhead].
  cbn [String.append regexp.find_from]. unfold fieldsRegex at 1.
  rewrite run_seq_cons, run_lit1_miss by done. by apply IH.
Qed.

Lemma fieldsRegex_body (head body trailer : string) :
  sall (λ x, negb (bool_decide (x = lparen))) head = true →
  sall regexp.dot body = true →
  sall (λ x, negb (bool_decide (x = rparen))) trailer = true →
  ∃ whole,
    regexp.FindStringSubmatch fieldsRegex 1 (head +:+ "(" +:+ body +:+ ")" +:+ trailer)
    = Some [whole; body].
Proof.
  intros Hhead Hbody Htrailer. unfold regexp.FindStringSubmatch.
  rewrite fieldsRegex_skip by done.
  eexists. apply (find_from_here _ 1 _ trailer [""; body]).
  unfold fieldsRegex. change ("(" +:+ body +:+ ")" +:+ trailer)
    with (String lparen (body +:+ String rparen trailer)).
  rewrite run_seq_cons, run_lit1, run_seq_cons, run_Cap.
  apply star_last; [done|done| |].
  - intros n. rewrite run_seq_cons. apply run_lit1_none. by apply sall_sdrop.
  - rewrite consumed_app, run_seq_cons, run_lit1. done.
Qed.

(** X18: a [CREATE TABLE] statement, with or without [IF NOT EXISTS], that
    names table [t] bare, as [public.t], in double quotes, or as the quoted
    schema [public], a period and the quoted name, is accepted.  The entry is
    stored under [t], with an empty comment, and its columns are read from
    the text between the first opening parenthesis and the last closing one. *)
Theorem create_table_registers
    (ifNotExists withSchema withQuotes : bool) (t body trailer : string) (p : Parser) :
  t ≠ "" → sall nameByte t = true →
  sall regexp.dot body = true →
  sall (λ x, negb (bool_decide (x = rparen))) trailer = true →
  parseCreateTableByString
    (createTable ifNotExists (tableRef withSchema withQuotes t) body trailer) p
  = Ok (set_dbComments p
          (<[t := {| TableComment.TableName := t;
                     TableComment.Comment := "";
                     TableComment.Fields := fold_left addField (splitFields body) [] |}]>
             (dbComments p))).
Proof.
  intros Hne Ht Hbody Htrailer. pose proof (name_ident t Ht) as Hid.
  destruct (ident_target t Hne Hid) as (Hbare & _ & _ & Hpub).
  destruct (tableNameRegex_name ifNotExists withSchema withQuotes t body trailer Hne Ht)
    as [whole Hname].
  assert (∃ whole',
            regexp.FindStringSubmatch fieldsRegex 1
              (createTable ifNotExists (tableRef withSchema withQuotes t) body trailer)
            = Some [whole'; body]) as [whole' Hfields].
  { unfold createTable.
    replace ("CREATE TABLE " +:+ (if ifNotExists then "IF NOT EXISTS " else "")
               +:+ tableRef withSchema withQuotes t +:+ " (" +:+ body +:+ ")" +:+ trailer)
      with (("CREATE TABLE " +:+ (if ifNotExists then "IF NOT EXISTS " else "")
               +:+ tableRef withSchema withQuotes t +:+ " ")
              +:+ "(" +:+ body +:+ ")" +:+ trailer)
      by (by rewrite !app_assoc_s).
    apply fieldsRegex_body; [|done|done].
    assert (sall (λ x, negb (bool_decide (x = lparen))) t = true) as Hplain
      by (revert Ht; apply sall_impl; intros x Hx;
          apply nameByte_inv in Hx as (_ & Hx & _); by rewrite bool_decide_eq_false_2).
    rewrite !sall_app.
    destruct ifNotExists, withSchema, withQuotes; cbn [tableRef]; unfold quoted;
      repeat (progress (rewrite ?sall_app; cbn [String.append sall str1]));
      by rewrite Hplain. }
  unfold parseCreateTableByString. rewrite Hname, Hfields.
  cbn [lookup_total list_lookup_total]. by rewrite Hbare, Hpub.
Qed.

End CreateTableStatement.

(** ** Statements without a quoted text *)

Section RegexpFails.
Import regexp.
Context {R : Type}.
Implicit Types (k : string → list string → option R) (c : list string).

Lemma sdrop_sdrop (n m : nat) (s : string) : sdrop m (sdrop n s) = sdrop (n + m) s.
Proof.
  revert s. induction n as [|n IH]; intros s; [done|].
  destruct s as [|x s]; cbn [sdrop Nat.add]; [by destruct m|apply IH].
Qed.

Lemma star_none_any (p : ascii → bool) (s : string) c k :
  (∀ n c', k (sdrop n s) c' = None) → star p s c k = None.
Proof. intros Hk. apply star_none. intros n. apply Hk. Qed.

(** A pattern followed by something that fails at every place the pattern
    could stop at fails. *)
Lemma run_none (r : re) :
  ∀ s c k, (∀ n c', k (sdrop n s) c' = None) → run r s c k = None.
Proof.
  induction r as [|p|a IHa b IHb|a IHa b IHb|p|i a IHa]; intros s c k Hk; cbn [run].
  - apply (Hk 0).
  - destruct s as [|x t]; [done|]. destruct (p x); [apply (Hk 1)|done].
  - apply IHa. intros n c'. apply IHb. intros m c''. rewrite sdrop_sdrop. apply Hk.
  - rewrite IHa by done. by apply IHb.
  - by apply star_none_any.
  - apply IHa. intros n c'. apply Hk.
Qed.

Lemma run_needs (q : ascii) (before : list re) (rest : re) s c k :
  sall (λ x, negb (bool_decide (x = q))) s = true →
  run (foldr Cat (Cat (lit1 q) rest) before) s c k = None.
Proof.
  revert s c k. induction before as [|a before IH]; intros s c k Hs; cbn [foldr].
  - cbn [run]. by apply run_lit1_none.
  - cbn [run]. apply run_none. intros n c'. apply IH. by apply sall_sdrop.
Qed.

End RegexpFails.

Section CommentMisses.
Context `{UnicodeTables} `{Decoders}.

Lemma commentRegex_none (q : ascii) (stmt : string) :
  sall (λ x, negb (bool_decide (x = q))) stmt = true →
  regexp.FindStringSubmatch (commentRegex q) 2 stmt = None.
Proof.
  unfold regexp.FindStringSubmatch.
  assert (∀ s c, sall (λ x, negb (bool_decide (x = q))) s = true →
                 regexp.run (commentRegex q) s c regexp.accept = None) as Hrun.
  { intros s c Hs.
    apply (run_needs q
             [regexp.lit_i "COMMENT"; regexp.Plus regexp.space; regexp.lit_i "ON";
              regexp.Plus regexp.space;
              regexp.Opt (regexp.Alt
                (regexp.seq [regexp.lit_i "TABLE"; regexp.Plus regexp.space])
                (regexp.seq [regexp.lit_i "COLUMN"; regexp.Plus regexp.space]));
              regexp.Opt (regexp.lit_i "public.");
              regexp.Cap 1 (regexp.Plus (λ x, negb (regexp.space x)));
              regexp.Plus regexp.space; regexp.lit_i "IS"; regexp.Plus regexp.space]);
      done. }
  induction stmt as [|x t IH]; intros Hs; cbn [regexp.find_from]; rewrite Hrun by done; [done|].
  apply IH. cbn [sall] in Hs. by apply andb_prop in Hs as [_ Hs].
Qed.

(** X19: a comment statement in which neither a single nor a double quote
    occurs, such as one that sets the comment to [NULL], is refused with
    the error of the missing comment text, so the registry stays as it
    was. *)
Theorem comment_needs_quotes (stmt : string) (p : Parser) :
  sall (λ x, negb (bool_decide (x = squote))) stmt = true →
  sall (λ x, negb (bool_decide (x = dquote))) stmt = true →
  parseCommentByString stmt p = Err "无法提取注释内容"
  ∧ after (parseCommentByString stmt p) p = p.
Proof.
  intros Hs Hd. unfold parseCommentByString.
  by rewrite !commentRegex_none.
Qed.

(** ** The byte-order mark *)

(** X20: a byte-order mark at the head of an SQL file is passed over: the
    file is read as the same file without the mark. *)
Theorem parseSQLFile_byte_order_mark (content : string) (p : Parser) :
  strings.HasPrefix
    (strings.ReplaceAll content (String (chr 13) (str1 (chr 10))) (str1 (chr 10)))
    byteOrderMark = false →
  parseSQLFile (byteOrderMark +:+ content) p = parseSQLFile content p.
Proof.
  intros Hplain. unfold parseSQLFile.
  change (strings.ReplaceAll (byteOrderMark +:+ content)
            (String (chr 13) (str1 (chr 10))) (str1 (chr 10)))
    with (byteOrderMark
            +:+ strings.ReplaceAll content (String (chr 13) (str1 (chr 10))) (str1 (chr 10))).
  change (String (chr 239) (String (chr 187) (str1 (chr 191)))) with byteOrderMark.
  unfold strings.TrimPrefix at 1. rewrite HasPrefix_app, sdrop_app_s.
  unfold strings.TrimPrefix. by rewrite Hplain.
Qed.

End CommentMisses.

(** ** Where the tags come from *)

Section TagSources.
Context `{UnicodeTables}.

Lemma elem_of_addTags (tag : string) (words : list string) (tags : gset string) :
  tag ∈ addTags tags words ↔ tag ∈ tags ∨ ∃ word, word ∈ words ∧ tag = strings.ToLower word.
Proof.
  unfold addTags. revert tags. induction words as [|w words IH]; intros tags; cbn [fold_left].
  - split; [by left|]. intros [?|(word & Hin & _)]; [done|]. by apply elem_of_nil in Hin.
  - rewrite IH. rewrite elem_of_union, elem_of_singleton. split.
    + intros [[->|?]|(word & Hin & ->)]; [right|by left|right].
      * exists w. split; [apply list_elem_of_here|done].
      * exists word. split; [by apply list_elem_of_further|done].
    + intros [?|(word & Hin & ->)]; [by left; right|].
      apply elem_of_cons in Hin as [->|Hin]; [by left; left|].
      right. by exists word.
Qed.

(** X21: the tags of a group are the words of its name and of its members'
    names and the keywords of its description and of its members' comments,
    each in lower case: every such word gives a tag and every tag comes
    from one. *)
Theorem generateTags_spec (group : EnumGroup.t) (tag : string) :
  tag ∈ generateTags group ↔ ∃ word, word ∈ tagWords group ∧ tag = strings.ToLower word.
Proof.
  unfold generateTags, tagWords. rewrite elem_of_sort_Strings, elem_of_elements.
  assert (∀ items (tags : gset string),
            tag ∈ fold_left
                    (λ tags item,
                       addTags (addTags tags (splitCamelCase (EnumItem.Name item)))
                               (extractKeywords (EnumItem.Comment item)))
                    items tags
            ↔ tag ∈ tags
              ∨ ∃ word,
                  word ∈ (items ≫= λ item, splitCamelCase (EnumItem.Name item)
                                        ++ extractKeywords (EnumItem.Comment item))
                  ∧ tag = strings.ToLower word) as Hitems.
  { induction items as [|item items IH]; intros tags; cbn [fold_left].
    - split; [by left|]. intros [?|(word & Hin & _)]; [done|]. by apply elem_of_nil in Hin.
    - rewrite IH, !elem_of_addTags. cbn [mbind list_bind]. split.
      + intros [[[?|(word & Hin & ->)]|(word & Hin & ->)]|(word & Hin & ->)];
          [by left|right; exists word..];
          (split; [|done]); rewrite !elem_of_app; auto.
      + intros [?|(word & Hin & ->)]; [by left; left; left|].
        rewrite !elem_of_app in Hin. destruct Hin as [[Hin|Hin]|Hin]; eauto 8. }
  rewrite Hitems, !elem_of_addTags. split.
  - intros [[[Hin|(word & Hin & ->)]|(word & Hin & ->)]|(word & Hin & ->)];
      [by apply elem_of_empty in Hin|exists word..];
      (split; [|done]); rewrite !elem_of_app; auto.
  - intros (word & Hin & ->). rewrite !elem_of_app in Hin.
    destruct Hin as [Hin|[Hin|Hin]]; eauto 8.
Qed.

End TagSources.

(** ** The enumeration section of the document *)

Lemma writeTags_app (tags : list string) (i : nat) (md : string) :
  writeTags i tags md = md +:+ writeTags i tags "".
Proof.
  revert i md. induction tags as [|tag tags IH]; intros i md; cbn [writeTags].
  - by rewrite app_nil_r_s.
  - rewrite IH. rewrite (IH _ ((if 0 <? i then "" +:+ " · " else "") +:+ _)).
    destruct (0 <? i); by rewrite !app_assoc_s.
Qed.

Lemma fold_left_write_pre {A} (w : string → A → string) (l : list A) (md pre : string) :
  (∀ md x, w md x = md +:+ w "" x) →
  fold_left w l (md +:+ pre) = md +:+ fold_left w l pre.
Proof.
  intros Hw. rewrite (fold_left_write w l (md +:+ pre) Hw), (fold_left_write w l pre Hw).
  by rewrite app_assoc_s.
Qed.

Lemma writeEnum_from (enum : EnumGroup.t) :
  ∃ rest, ∀ md, writeEnum md enum
                = md +:+ "## " +:+ EnumGroup.Name enum +:+ nl +:+ nl +:+ rest.
Proof.
  exists ((if 0 <? length (EnumGroup.Tags enum)
           then "**标签：** " +:+ writeTags 0 (EnumGroup.Tags enum) "" +:+ nl +:+ nl
           else "")
          +:+ fold_left writeItem (EnumGroup.Items enum)
                ("| 变量 | 原值 | 描述 |" +:+ nl +:+ "|---|---|---|" +:+ nl)
          +:+ nl).
  intros md. unfold writeEnum.
  destruct (0 <? length (EnumGroup.Tags enum)).
  - rewrite writeTags_app. rewrite !app_assoc_s.
    rewrite (fold_left_write_pre writeItem _ md) by done.
    rewrite (fold_left_write_pre writeItem _ "## ") by done.
    rewrite (fold_left_write_pre writeItem _ (EnumGroup.Name enum)) by done.
    rewrite (fold_left_write_pre writeItem _ nl) by done.
    rewrite (fold_left_write_pre writeItem _ nl) by done.
    rewrite (fold_left_write_pre writeItem _ "**标签：** ") by done.
    rewrite (fold_left_write_pre writeItem _ (writeTags 0 (EnumGroup.Tags enum) "")) by done.
    rewrite (fold_left_write_pre writeItem _ nl) by done.
    rewrite (fold_left_write_pre writeItem _ nl) by done.
    by rewrite !app_assoc_s.
  - rewrite !app_assoc_s.
    rewrite (fold_left_write_pre writeItem _ md) by done.
    rewrite (fold_left_write_pre writeItem _ "## ") by done.
    rewrite (fold_left_write_pre writeItem _ (EnumGroup.Name enum)) by done.
    rewrite (fold_left_write_pre writeItem _ nl) by done.
    rewrite (fold_left_write_pre writeItem _ nl) by done.
    by rewrite !app_assoc_s.
Qed.

Lemma writeEnum_app (md : string) (enum : EnumGroup.t) :
  writeEnum md enum = md +:+ writeEnum "" enum.
Proof.
  destruct (writeEnum_from enum) as [rest Hrest]. by rewrite (Hrest md), (Hrest "").
Qed.

(** X22: the enumeration section of the document comes in the order in which
    the run ranges over the registry; unlike the tables, the groups are not
    sorted.  The section is the heading and then, for each key in that
    order, the text of its group, which begins with the name of the group. *)
Theorem ToMarkdown_enums_in_range_order (p : Parser) (enumKeys : list string) :
  enums p ≠ ∅ →
  enumsText enumKeys p = "# 枚举类型" +:+ nl +:+ nl +:+ sconcat (enumText p <$> enumKeys)
  ∧ ∀ key enum, enums p !! key = Some enum →
      strings.HasPrefix (enumText p key) ("## " +:+ EnumGroup.Name enum +:+ nl +:+ nl) = true.
Proof.
  intros Hne. split.
  - unfold enumsText.
    assert (0 < size (enums p)) as Hsize.
    { destruct (decide (size (enums p) = 0)) as [Hz|]; [|lia].
      by apply map_size_empty_iff in Hz. }
    apply Nat.ltb_lt in Hsize. rewrite Hsize.
    assert (∀ md,
              fold_left (λ md key, match enums p !! key with
                                   | Some enum => writeEnum md enum
                                   | None => md
                                   end) enumKeys md
              = md +:+ sconcat (enumText p <$> enumKeys)) as ->.
    { induction enumKeys as [|key keys IH]; intros md;
        cbn [fold_left fmap list_fmap sconcat].
      - by rewrite app_nil_r_s.
      - rewrite IH. unfold enumText at 2. destruct (enums p !! key) as [enum|].
        + by rewrite writeEnum_app, app_assoc_s.
        + done. }
    by rewrite !app_assoc_s.
  - intros key enum Hkey. unfold enumText. rewrite Hkey.
    destruct (writeEnum_from enum) as [rest ->].
    change ("" +:+ "## " +:+ EnumGroup.Name enum +:+ nl +:+ nl +:+ rest)
      with ("## " +:+ EnumGroup.Name enum +:+ nl +:+ nl +:+ rest).
    rewrite <- !app_assoc_s. apply HasPrefix_app.
Qed.

(** ** Keywords of a text *)

Section Keywords.
Context `{UnicodeTables}.

(** X23: a keyword [extractKeywords] returns is a field of the text with
    the punctuation trimmed off its ends, in lower case; it is longer than
    two bytes and it is none of the stop words. *)
Theorem extractKeywords_sound (text : string) :
  Forall (λ keyword,
            (keyword ∉ stopWords)
            ∧ 2 < String.length keyword
            ∧ ∃ field, field ∈ strings.Fields text
                       ∧ keyword = strings.ToLower (strings.Trim field punctuation))
         (extractKeywords text).
Proof.
  unfold extractKeywords.
  set (P := λ keyword,
              (keyword ∉ stopWords)
              ∧ 2 < String.length keyword
              ∧ ∃ field, field ∈ strings.Fields text
                         ∧ keyword = strings.ToLower (strings.Trim field punctuation)).
  assert (∀ fields keywords,
            (∀ field, field ∈ fields → field ∈ strings.Fields text) →
            Forall P keywords →
            Forall P (fold_left
                        (λ keywords word,
                           if negb (bool_decide
                                      (strings.ToLower (strings.Trim word punctuation)
                                       ∈ stopWords))
                              && (2 <? String.length
                                         (strings.ToLower (strings.Trim word punctuation)))
                           then keywords ++ [strings.ToLower (strings.Trim word punctuation)]
                           else keywords)
                        fields keywords)) as Hfold.
  { induction fields as [|field fields IH]; intros keywords Hin Hall; [done|].
    cbn [fold_left]. apply IH.
    - intros w Hw. apply Hin. by apply list_elem_of_further.
    - destruct (negb _ && _) eqn:Hkeep; [|done].
      apply andb_prop in Hkeep as [Hstop%negb_true_iff%bool_decide_eq_false Hlen%Nat.ltb_lt].
      apply Forall_app. split; [done|]. apply Forall_singleton.
      split; [done|]. split; [done|]. exists field. split; [|done].
      apply Hin, list_elem_of_here. }
  by apply Hfold.
Qed.

End Keywords.

(** ** The lines of an SQL file *)

Lemma split_from_app_char (c : ascii) (pre rest cur : string) :
  strings.split_from (str1 c) 0 cur (pre +:+ String c rest)
  = strings.split_from (str1 c) 0 cur pre ++ strings.split_from (str1 c) 0 "" rest.
Proof.
  revert cur. induction pre as [|x pre IH]; intros cur.
  - cbn [String.append strings.split_from strings.HasPrefix str1].
    destruct (ascii_dec c c); [|done]. by cbn.
  - cbn [String.append strings.split_from strings.HasPrefix str1].
    destruct (ascii_dec x c); cbn [String.length Nat.sub]; rewrite IH; done.
Qed.

Lemma Split_app_char (c : ascii) (pre rest : string) :
  strings.Split (pre +:+ String c rest) (str1 c)
  = strings.Split pre (str1 c) ++ strings.Split rest (str1 c).
Proof. apply split_from_app_char. Qed.

Lemma split_from_line (c : ascii) (line cur : string) :
  sall (λ x, negb (bool_decide (x = c))) line = true →
  strings.split_from (str1 c) 0 cur line = [cur +:+ line].
Proof.
  revert cur. induction line as [|x line IH]; intros cur Hline.
  - cbn. by rewrite app_nil_r_s.
  - cbn [sall] in Hline.
    apply andb_prop in Hline as [Hx%negb_true_iff%bool_decide_eq_false Hline].
    cbn [strings.split_from strings.HasPrefix str1].
    destruct (ascii_dec x c); [done|]. rewrite IH by done.
    by rewrite app_assoc_s.
Qed.

Lemma Split_line (c : ascii) (line : string) :
  sall (λ x, negb (bool_decide (x = c))) line = true →
  strings.Split line (str1 c) = [line].
Proof. intros Hline. unfold strings.Split. by rewrite split_from_line. Qed.

Lemma inLine_inv (s : string) :
  sall inLine s = true →
  sall (λ x, negb (bool_decide (x = chr 10))) s = true
  ∧ sall (λ x, negb (bool_decide (x = chr 13))) s = true.
Proof.
  intros Hs. split; revert Hs; apply sall_impl; intros x; unfold inLine;
    by intros [? ?]%andb_prop.
Qed.

Lemma replaceAll_line (s : string) :
  sall (λ x, negb (bool_decide (x = chr 13))) s = true →
  strings.ReplaceAll s (String (chr 13) (str1 (chr 10))) (str1 (chr 10)) = s.
Proof.
  unfold strings.ReplaceAll. induction s as [|x s IH]; intros Hs; [done|].
  cbn [sall] in Hs. apply andb_prop in Hs as [Hx%negb_true_iff%bool_decide_eq_false Hs].
  cbn [strings.replaceAll_from strings.HasPrefix].
  destruct (ascii_dec x (chr 13)); [done|]. by rewrite IH.
Qed.

Section Lines.
Context `{UnicodeTables} `{Decoders}.

Lemma addLine_skipped (st : list string * string) (line : string) :
  skippedLine line = true → addLine st line = st.
Proof.
  unfold skippedLine, addLine. destruct st as [statements currentStmt].
  destruct (is_empty _); [done|]. destruct (strings.HasPrefix _ "--"); [done|].
  cbn [orb]. by intros ->.
Qed.

(** X24: a line that is blank, that begins with two hyphens, or that opens
    a block comment without closing it has no part in the result: the file
    is split as the file without that line. *)
Theorem skipped_line_changes_nothing (pre line post : string) :
  sall (λ x, negb (bool_decide (x = chr 10))) line = true →
  skippedLine line = true →
  splitSQLStatements (pre +:+ nl +:+ line +:+ nl +:+ post)
  = splitSQLStatements (pre +:+ nl +:+ post).
Proof.
  intros Hline Hskip. unfold splitSQLStatements.
  change (pre +:+ nl +:+ line +:+ nl +:+ post)
    with (pre +:+ String (chr 10) (line +:+ String (chr 10) post)).
  change (pre +:+ nl +:+ post) with (pre +:+ String (chr 10) post).
  rewrite !Split_app_char, (Split_line _ line Hline).
  rewrite !fold_left_app. cbn [fold_left]. by rewrite addLine_skipped.
Qed.

Lemma Index_none_prefix (s w : string) :
  strings.Index s w = None → strings.HasPrefix s w = false.
Proof.
  destruct s; cbn [strings.Index]; by destruct (strings.HasPrefix _ w).
Qed.

Lemma statementLine_not_empty (stmt : string) : statementLine stmt → is_empty stmt = false.
Proof.
  intros (_ & _ & _ & _ & Hsemi). destruct stmt; [|done]. by vm_compute in Hsemi.
Qed.

Lemma addLine_statement (statements : list string) (stmt : string) :
  statementLine stmt →
  addLine (statements, "") stmt
  = (if isRelevantStatement stmt then statements ++ [stmt] else statements, "").
Proof.
  intros Hline. pose proof (statementLine_not_empty stmt Hline) as Hne.
  destruct Hline as (Htrim & _ & Hdash & Hblock & Hsemi).
  unfold addLine. rewrite Htrim, Hne, (Index_none_prefix _ _ Hdash), Hblock, Hdash, Hne.
  cbn [andb Nat.ltb Nat.leb String.length String.append]. by rewrite Hsemi.
Qed.

Lemma parseStatement_not_relevant (stmt : string) (p : Parser) :
  isRelevantStatement stmt = false → parseStatement p stmt = p.
Proof.
  unfold isRelevantStatement, parseStatement.
  intros [[Hcreate Hcomment]%orb_false_elim _]%orb_false_elim.
  rewrite Hcreate, Hcomment. by destruct (is_empty _).
Qed.

(** X25: a file that is one statement on one line is read as that
    statement: [parseSQLFile] does to the registry what its loop does with
    the statement, which for a [CREATE TABLE] or a [COMMENT ON] is what the
    interpreter of that statement does. *)
Theorem parseSQLFile_one_statement (stmt : string) (p : Parser) :
  statementLine stmt →
  strings.HasPrefix stmt byteOrderMark = false →
  parseSQLFile stmt p = parseStatement p stmt.
Proof.
  intros Hline Hmark. unfold parseSQLFile.
  pose proof Hline as (_ & [Hnl Hcr]%inLine_inv & _).
  rewrite replaceAll_line by done.
  change (String (chr 239) (String (chr 187) (str1 (chr 191)))) with byteOrderMark.
  unfold strings.TrimPrefix. rewrite Hmark.
  unfold splitSQLStatements.
  change (str1 (chr 10)) with (str1 (chr 10)).
  rewrite (Split_line (chr 10) stmt Hnl). cbn [fold_left].
  rewrite addLine_statement by done.
  change (is_empty (strings.TrimSpace "")) with true. cbn match.
  destruct (isRelevantStatement stmt) eqn:Hrel; cbn [app fold_left]; [done|].
  by rewrite parseStatement_not_relevant.
Qed.

(** X26: the lines between the line that opens a block comment and the
    line that closes it are not passed over: a statement written there, on
    a line of its own, is read as if it stood outside the comment. *)
Theorem statement_in_block_comment_is_read (stmt : string) (p : Parser) :
  statementLine stmt →
  parseSQLFile ("/*" +:+ nl +:+ stmt +:+ nl +:+ "*/") p = parseStatement p stmt.
Proof.
  intros Hline. unfold parseSQLFile.
  pose proof Hline as (_ & [Hnl Hcr]%inLine_inv & _).
  rewrite replaceAll_line
    by (cbn [String.append sall nl str1]; rewrite sall_app, Hcr; done).
  change (strings.TrimPrefix ("/*" +:+ nl +:+ stmt +:+ nl +:+ "*/")
            (String (chr 239) (String (chr 187) (str1 (chr 191)))))
    with ("/*" +:+ nl +:+ stmt +:+ nl +:+ "*/").
  unfold splitSQLStatements.
  change ("/*" +:+ nl +:+ stmt +:+ nl +:+ "*/")
    with ("/*" +:+ String (chr 10) (stmt +:+ String (chr 10) "*/")).
  rewrite !Split_app_char, (Split_line _ stmt Hnl).
  change (strings.Split "/*" (str1 (chr 10))) with ["/*"].
  change (strings.Split "*/" (str1 (chr 10))) with ["*/"].
  cbn [app fold_left].
  rewrite (addLine_skipped _ "/*") by reflexivity.
  rewrite addLine_statement by done.
  destruct (isRelevantStatement stmt) eqn:Hrel.
  - change (addLine ([] ++ [stmt], "") "*/") with ([stmt], "*/").
    change (is_empty (strings.TrimSpace "*/")) with false. cbn match.
    change (strings.HasSuffix (strings.TrimSpace "*/") ";") with false. cbn match.
    replace (isRelevantStatement (strings.TrimSpace "*/" +:+ ";")) with false
      by (vm_compute; reflexivity).
    done.
  - change (addLine ([], "") "*/") with (@nil string, "*/").
    change (is_empty (strings.TrimSpace "*/")) with false. cbn match.
    change (strings.HasSuffix (strings.TrimSpace "*/") ";") with false. cbn match.
    replace (isRelevantStatement (strings.TrimSpace "*/" +:+ ";")) with false
      by (vm_compute; reflexivity).
    cbn [fold_left]. by rewrite parseStatement_not_relevant.
Qed.

End Lines.

(** ** A file, statement by statement *)

Lemma replaceAll_app_line (s rest : string) :
  sall (λ x, negb (bool_decide (x = chr 13))) s = true →
  strings.ReplaceAll (s +:+ String (chr 10) rest)
    (String (chr 13) (str1 (chr 10))) (str1 (chr 10))
  = s +:+ String (chr 10)
            (strings.ReplaceAll rest (String (chr 13) (str1 (chr 10))) (str1 (chr 10))).
Proof.
  unfold strings.ReplaceAll. induction s as [|x s IH]; intros Hs; [done|].
  cbn [sall] in Hs. apply andb_prop in Hs as [Hx%negb_true_iff%bool_decide_eq_false Hs].
  cbn [String.append strings.replaceAll_from strings.HasPrefix].
  destruct (ascii_dec x (chr 13)); [done|]. by rewrite IH.
Qed.

Lemma HasPrefix_mark_app (s rest : string) :
  strings.HasSuffix s ";" = true →
  strings.HasPrefix s byteOrderMark = false →
  strings.HasPrefix (s +:+ rest) byteOrderMark = false.
Proof.
  intros Hsemi Hmark.
  destruct s as [|a [|b [|c s]]]; [by vm_compute in Hsemi| | |exact Hmark].
  - unfold strings.HasSuffix in Hsemi. cbn in Hsemi.
    destruct (Ascii.eqb_spec a ";") as [->|]; done.
  - unfold strings.HasSuffix in Hsemi. cbn in Hsemi.
    destruct (Ascii.eqb_spec b ";") as [->|]; [|done].
    cbn. by repeat case_match.
Qed.

Section Statements.
Context `{UnicodeTables} `{Decoders}.

Lemma addLine_acc (before statements : list string) (currentStmt line : string) :
  addLine (before ++ statements, currentStmt) line
  = (before ++ (addLine (statements, currentStmt) line).1,
     (addLine (statements, currentStmt) line).2).
Proof. unfold addLine. repeat case_match; cbn [fst snd]; by rewrite ?app_assoc. Qed.

Lemma fold_addLine_acc (lines before statements : list string) (currentStmt : string) :
  fold_left addLine lines (before ++ statements, currentStmt)
  = (before ++ (fold_left addLine lines (statements, currentStmt)).1,
     (fold_left addLine lines (statements, currentStmt)).2).
Proof.
  revert statements currentStmt.
  induction lines as [|line lines IH]; intros statements currentStmt; [done|].
  cbn [fold_left]. rewrite addLine_acc.
  destruct (addLine (statements, currentStmt) line) as [statements' currentStmt'].
  apply IH.
Qed.

Lemma splitSQLStatements_first (stmt rest : string) :
  statementLine stmt →
  splitSQLStatements (stmt +:+ String (chr 10) rest)
  = (if isRelevantStatement stmt then [stmt] else []) ++ splitSQLStatements rest.
Proof.
  intros Hline. pose proof Hline as (_ & [Hnl _]%inLine_inv & _).
  unfold splitSQLStatements.
  rewrite Split_app_char, (Split_line _ stmt Hnl). cbn [app fold_left].
  rewrite addLine_statement by done.
  set (first := if isRelevantStatement stmt then [stmt] else []).
  replace (if isRelevantStatement stmt then [] ++ [stmt] else [])
    with (first ++ []) by (unfold first; by destruct (isRelevantStatement stmt)).
  rewrite fold_addLine_acc.
  destruct (fold_left addLine _ ([], "")) as [statements currentStmt]. cbn [fst snd].
  repeat case_match; by rewrite ?app_assoc.
Qed.

(** X27: a file is read statement by statement, in the order of its lines:
    when its first line is a statement written on one line, the file gives
    what the rest of the file gives on the registry that the loop of
    [parseSQLFile] leaves after that statement. *)
Theorem parseSQLFile_first_statement (stmt rest : string) (p : Parser) :
  statementLine stmt →
  strings.HasPrefix stmt byteOrderMark = false →
  strings.HasPrefix
    (strings.ReplaceAll rest (String (chr 13) (str1 (chr 10))) (str1 (chr 10)))
    byteOrderMark = false →
  parseSQLFile (stmt +:+ nl +:+ rest) p = parseSQLFile rest (parseStatement p stmt).
Proof.
  intros Hline Hmark Hrest. unfold parseSQLFile.
  pose proof Hline as (_ & [_ Hcr]%inLine_inv & _ & _ & Hsemi).
  change (stmt +:+ nl +:+ rest) with (stmt +:+ String (chr 10) rest).
  rewrite replaceAll_app_line by done.
  change (String (chr 239) (String (chr 187) (str1 (chr 191)))) with byteOrderMark.
  unfold strings.TrimPrefix. rewrite HasPrefix_mark_app, Hrest by done.
  rewrite splitSQLStatements_first by done. rewrite fold_left_app.
  destruct (isRelevantStatement stmt) eqn:Hrel; cbn [fold_left]; [done|].
  by rewrite parseStatement_not_relevant.
Qed.

End Statements.

(** ** The columns of a table, in the order of the statement *)

Lemma splitFields_Join (clauses : list string) :
  Forall clauseText clauses →
  ∃ dropped,
    splitFields (strings.Join clauses ",") ++ dropped = clauses
    ∧ (dropped = [] ∨ dropped = [""]).
Proof.
  induction 1 as [|u rest Hu Hrest IH].
  - exists []. split; [reflexivity|by left].
  - destruct rest as [|v rest].
    + cbn [strings.Join]. destruct (decide (u = "")) as [->|Hne].
      * exists [""]. split; [reflexivity|by right].
      * exists []. rewrite (splitFields_last u 0 Hu Hne). split; [reflexivity|by left].
    + destruct IH as (dropped & Heq & Hdropped). exists dropped. split; [|done].
      rewrite Join_cons by done. rewrite (splitFields_clause u _ Hu).
      cbn [app]. by rewrite Heq.
Qed.

Lemma parseFieldDef_Some (clause : string) (field : FieldComment.t) :
  parseFieldDef clause = Some field → columnField clause field.
Proof.
  intros Hparse. split; [done|]. revert Hparse. unfold parseFieldDef.
  destruct (strings.Fields (strings.TrimSpace clause)) as [|part0 [|part1 parts]]; [done..|].
  destruct (strings.Index _ part1); [|done]. intros [= <-].
  split; [done|]. by exists part0, (part1 :: parts).
Qed.

Section ColumnsInOrder.
Context `{UnicodeTables}.

Lemma columnClause_empty : ¬ columnClause (strings.TrimSpace "").
Proof. intros [Hskip _]. by vm_compute in Hskip. Qed.

Lemma splitFields_columnClauses (clauses : list string) :
  Forall clauseText clauses →
  filter columnClause (strings.TrimSpace <$> splitFields (strings.Join clauses ","))
  = filter columnClause (strings.TrimSpace <$> clauses).
Proof.
  intros Hclauses. destruct (splitFields_Join clauses Hclauses) as (dropped & Heq & Hdropped).
  rewrite <- Heq at 2. rewrite fmap_app, filter_app.
  destruct Hdropped as [-> | ->]; cbn [fmap list_fmap].
  - by rewrite filter_nil, app_nil_r.
  - rewrite filter_cons, decide_False by apply columnClause_empty.
    by rewrite filter_nil, app_nil_r.
Qed.

(** C3, as the code has it: in a [CREATE TABLE] statement whose table name
    can be extracted and whose column list, between the first opening and the
    last closing parenthesis, is a list of clauses set apart by commas, each
    clause with its parentheses balanced and its commas inside them, the
    entry stored has one column for each column clause, in the order in which
    the clauses stand in the statement, each named by the first word of its
    clause; and clauses that begin with PRIMARY KEY or CONSTRAINT, in any
    letter case, are no column clauses. *)
Theorem create_table_columns_in_order
    (head trailer : string) (clauses nameMatch : list string) (p : Parser) :
  let body := strings.Join clauses "," in
  let stmt := head +:+ "(" +:+ body +:+ ")" +:+ trailer in
  let tableName :=
    strings.TrimPrefix (strings.Trim (nameMatch !!! 1) (str1 dquote)) "public." in
  sall (λ x, negb (bool_decide (x = lparen))) head = true →
  sall regexp.dot body = true →
  sall (λ x, negb (bool_decide (x = rparen))) trailer = true →
  Forall clauseText clauses →
  regexp.FindStringSubmatch tableNameRegex 1 stmt = Some nameMatch →
  ∃ fields,
    parseCreateTableByString stmt p
    = Ok (set_dbComments p
            (<[tableName := {| TableComment.TableName := tableName;
                               TableComment.Comment := "";
                               TableComment.Fields := fields |}]> (dbComments p)))
    ∧ Forall2 columnField (filter columnClause (strings.TrimSpace <$> clauses)) fields
    ∧ ∀ clause,
        beginsWith "PRIMARY KEY" clause = true ∨ beginsWith "CONSTRAINT" clause = true →
        ¬ columnClause clause.
Proof.
  intros body stmt tableName Hhead Hbody Htrailer Hclauses Hname.
  destruct (fieldsRegex_body head body trailer Hhead Hbody Htrailer) as [whole Hfields].
  destruct (fold_addField (splitFields body) []) as (fields & Hfold & Hcols).
  exists fields. split; [|split].
  - change (head +:+ "(" +:+ body +:+ ")" +:+ trailer) with stmt in Hfields.
    unfold parseCreateTableByString. rewrite Hname, Hfields.
    cbn [lookup_total list_lookup_total]. by rewrite Hfold.
  - unfold body in Hcols. rewrite splitFields_columnClauses in Hcols by done.
    eapply Forall2_impl; [exact Hcols|]. intros clause field. apply parseFieldDef_Some.
  - intros clause Hb [Hskip _]. apply beginsWith_skipped in Hb. congruence.
Qed.

End ColumnsInOrder.

(** C3, as stated, fails: the splitter counts parentheses and commas inside
    string literals like any others.  After a closing parenthesis in a
    literal the depth is below zero and no later comma splits, so the
    columns [b] and [c] are lost; a comma in a literal splits the clause, so
    a column [y] is stored that the statement does not declare. *)
Lemma literal_in_column_list_breaks_columns :
  regexp.FindStringSubmatch tableNameRegex 1 createQuotedParen = Some ["CREATE TABLE t"; "t"]
  ∧ regexp.FindStringSubmatch fieldsRegex 1 createQuotedParen
    = Some ["(a text DEFAULT ')', b int, c int)"; "a text DEFAULT ')', b int, c int"]
  ∧ TableComment.Fields <$> dbComments (scanSQL createQuotedParen NewParser) !! "t"
    = Some [column "a" "text"]
  ∧ TableComment.Fields <$> dbComments (scanSQL createQuotedComma NewParser) !! "t"
    = Some [column "a" "text"; column "y" "z'"; column "b" "int"].
Proof. repeat split; vm_compute; reflexivity. Qed.

Lemma create_table_columns_in_order_witness :
  ∃ fields,
    @parseCreateTableByString asciiTables
      "CREATE TABLE t (id bigint NOT NULL, c numeric(10,2), PRIMARY KEY (id));" NewParser
    = Ok (set_dbComments NewParser
            (<["t" := {| TableComment.TableName := "t"; TableComment.Comment := "";
                         TableComment.Fields := fields |}]> ∅))
    ∧ Forall2 columnField ["id bigint NOT NULL"; "c numeric(10,2)"] fields.
Proof.
  destruct (@create_table_columns_in_order asciiTables "CREATE TABLE t " ";"
              ["id bigint NOT NULL"; " c numeric(10,2)"; " PRIMARY KEY (id)"]
              ["CREATE TABLE t"; "t"] NewParser)
    as (fields & Hstored & Hcolumns & _).
  - reflexivity.
  - reflexivity.
  - reflexivity.
  - repeat constructor.
  - vm_compute. reflexivity.
  - exists fields. split; [exact Hstored|exact Hcolumns].
Defined.

(** ** The further properties at work *)

Lemma mergeEnumGroup_again_witness :
  mergeEnumGroup (mergeEnumGroup (sampleGroup "x" ["A"; "B"] ["a"; "b"])
                                 (sampleGroup "x" ["B"; "C"] ["b"; "c"]))
                 (sampleGroup "x" ["B"; "C"] ["b"; "c"])
  = mergeEnumGroup (sampleGroup "x" ["A"; "B"] ["a"; "b"])
                   (sampleGroup "x" ["B"; "C"] ["b"; "c"]).
Proof.
  apply (mergeEnumGroup_again (sampleGroup "x" ["A"; "B"] ["a"; "b"])
                              (sampleGroup "x" ["B"; "C"] ["b"; "c"])).
  reflexivity.
Defined.

Lemma getEnumGroupName_prefix_witness : getEnumGroupName mailStatus = "MailStatus".
Proof.
  apply (proj1 (getEnumGroupName_prefix mailStatus
                  {| ast.Doc := None; ast.Names := ["MailStatusPending"]; ast.Type_ := None;
                     ast.Values := [ast.BasicLit "1"];
                     ast.Comment := Some {| ast.List := ["// 待发送"];
                                            ast.Text := "待发送" +:+ nl |} |}
                  (tail (ast.Specs mailStatus)) "MailStatusPending" []
                  (λ '(ex_intro _ spec (ex_intro _ name (conj Hspecs _))),
                     eq_ind 4 (λ n, match n with 1 => False | _ => True end) I 1
                       (f_equal length Hspecs))
                  eq_refl eq_refl)
           "MailStatus" "P"%char "ending").
  - reflexivity.
  - reflexivity.
  - reflexivity.
Defined.

Lemma extractType_first_word_witness : extractType "character varying(50)" = "character".
Proof.
  apply (extractType_first_word "character" "varying(50)").
  - discriminate.
  - reflexivity.
Defined.

Lemma parseFieldDef_type_position_witness :
  parseFieldDef "date_created date"
  = Some {| FieldComment.FieldName := "date_created";
            FieldComment.FieldType := "date_created";
            FieldComment.Comment := "" |}.
Proof.
  apply (parseFieldDef_type_position "date_created" "date" "").
  - discriminate.
  - discriminate.
  - reflexivity.
  - reflexivity.
  - left. reflexivity.
  - reflexivity.
Defined.

Lemma scanned_groups_well_formed_witness :
  EnumGroup.Name mailStatusGroup = "MailStatus 邮件发送状态枚举"
  ∧ EnumGroup.Items mailStatusGroup ≠ []
  ∧ (EnumGroup.Type_ mailStatusGroup = "const" ∨ EnumGroup.Type_ mailStatusGroup = "var").
Proof.
  apply (@scanned_groups_well_formed asciiTables sampleDecoders
           (scanGo sampleFile "test/test.go" NewParser)
           (scanned_go sampleFile "test/test.go" NewParser scanned_new)
           "MailStatus 邮件发送状态枚举" mailStatusGroup).
  vm_compute. reflexivity.
Defined.

Lemma scanned_tables_keyed_witness : TableComment.TableName (tableT "" "") = "t".
Proof.
  apply (@scanned_tables_keyed asciiTables sampleDecoders
           (scanSQL createT NewParser) (scanned_sql createT NewParser scanned_new)
           "t" (tableT "" "")).
  vm_compute. reflexivity.
Defined.

Lemma alter_table_is_passed_over_witness :
  @isRelevantStatement asciiTables "ALTER TABLE t ADD c int;" = true
  ∧ @parseStatement asciiTables sampleDecoders (scanSQL createT NewParser)
      "ALTER TABLE t ADD c int;"
    = scanSQL createT NewParser.
Proof.
  apply (@alter_table_is_passed_over asciiTables sampleDecoders
           "ALTER TABLE t ADD c int;" (scanSQL createT NewParser)).
  vm_compute. reflexivity.
Defined.

Lemma parseCommentByString_keeps_columns_witness :
  ∃ table',
    dbComments (after (@parseCommentByString sampleDecoders commentTC
                         (scanSQL createT NewParser))
                      (scanSQL createT NewParser)) !! "t" = Some table'
    ∧ TableComment.TableName table' = "t"
    ∧ FieldComment.FieldName <$> TableComment.Fields table' = ["id"; "c"]
    ∧ FieldComment.FieldType <$> TableComment.Fields table' = ["bigint"; "numeric(10,2)"].
Proof.
  apply (@parseCommentByString_keeps_columns sampleDecoders commentTC "t" (tableT "" "")
           (scanSQL createT NewParser)).
  vm_compute. reflexivity.
Defined.

Lemma create_table_needs_parentheses_witness :
  (∃ msg, @parseCreateTableByString asciiTables "CREATE TABLE t;" NewParser = Err msg)
  ∧ after (@parseCreateTableByString asciiTables "CREATE TABLE t;" NewParser) NewParser
    = NewParser.
Proof.
  apply (@create_table_needs_parentheses asciiTables "CREATE TABLE t;" NewParser).
  left. reflexivity.
Defined.

Lemma comment_on_table_witness :
  ∃ p',
    @parseCommentByString sampleDecoders "COMMENT ON TABLE public.t IS 'x';"
      (scanSQL createT NewParser) = Ok p'
    ∧ dbComments p' !! "t" = Some (tableT "x" "").
Proof.
  destruct (@comment_on_table sampleDecoders true false "t" "x" ";"
              (scanSQL createT NewParser))
    as (p' & Hok & _ & _ & Hthere & _).
  - discriminate.
  - reflexivity.
  - reflexivity.
  - reflexivity.
  - exists p'. split; [exact Hok|]. apply (Hthere (tableT "" "")). vm_compute. reflexivity.
Defined.

Lemma comment_on_quoted_schema_table_witness :
  @parseCommentByString sampleDecoders
    (commentOnTable (tableRef true true "t") "x" ";") (scanSQL createT NewParser)
  = Ok (withColumnComment (scanSQL createT NewParser) "public" "t" "x").
Proof.
  apply (@comment_on_quoted_schema_table sampleDecoders "t" "x" ";"
           (scanSQL createT NewParser)).
  - discriminate.
  - reflexivity.
  - reflexivity.
Defined.

Lemma splitCamelCase_words_witness :
  sconcat (@splitCamelCase asciiTables "MailStatusPending") = "MailStatusPending"
  ∧ Forall camelWord (@splitCamelCase asciiTables "MailStatusPending")
  ∧ Forall capitalised (tail (@splitCamelCase asciiTables "MailStatusPending")).
Proof.
  apply (@splitCamelCase_words asciiTables "MailStatusPending"). reflexivity.
Defined.

Lemma parseFile_groups_grow_witness :
  ∃ g',
    enums (scanGo sampleFile "other/other.go" (scanGo sampleFile "test/test.go" NewParser))
      !! "MailStatus 邮件发送状态枚举" = Some g'
    ∧ groupGrows mailStatusGroup g'.
Proof.
  apply (@parseFile_groups_grow asciiTables sampleFile "other/other.go"
           "MailStatus 邮件发送状态枚举" mailStatusGroup
           (scanGo sampleFile "test/test.go" NewParser)).
  vm_compute. reflexivity.
Defined.

Lemma create_table_registers_witness :
  @parseCreateTableByString asciiTables
    (createTable true (tableRef true true "t") "id bigint NOT NULL, c numeric(10,2)" ";")
    NewParser
  = Ok (set_dbComments NewParser (<["t" := tableT "" ""]> ∅)).
Proof.
  apply (@create_table_registers asciiTables true true true "t"
           "id bigint NOT NULL, c numeric(10,2)" ";" NewParser).
  - discriminate.
  - reflexivity.
  - reflexivity.
  - reflexivity.
Defined.

Lemma comment_needs_quotes_witness :
  @parseCommentByString sampleDecoders "COMMENT ON TABLE t IS NULL;"
    (scanSQL (createT +:+ nl +:+ commentT) NewParser)
  = Err "无法提取注释内容"
  ∧ after (@parseCommentByString sampleDecoders "COMMENT ON TABLE t IS NULL;"
             (scanSQL (createT +:+ nl +:+ commentT) NewParser))
          (scanSQL (createT +:+ nl +:+ commentT) NewParser)
    = scanSQL (createT +:+ nl +:+ commentT) NewParser.
Proof.
  apply (@comment_needs_quotes sampleDecoders "COMMENT ON TABLE t IS NULL;"
           (scanSQL (createT +:+ nl +:+ commentT) NewParser)).
  - reflexivity.
  - reflexivity.
Defined.

Lemma parseSQLFile_byte_order_mark_witness :
  scanSQL (byteOrderMark +:+ createT) NewParser = scanSQL createT NewParser.
Proof.
  apply (@parseSQLFile_byte_order_mark asciiTables sampleDecoders createT NewParser).
  reflexivity.
Defined.

Lemma ToMarkdown_enums_in_range_order_witness :
  enumsText ["MailStatus 邮件发送状态枚举"] (scanGo sampleFile "test/test.go" NewParser)
  = "# 枚举类型" +:+ nl +:+ nl
      +:+ sconcat (enumText (scanGo sampleFile "test/test.go" NewParser)
                     <$> ["MailStatus 邮件发送状态枚举"])
  ∧ ∀ key enum,
      enums (scanGo sampleFile "test/test.go" NewParser) !! key = Some enum →
      strings.HasPrefix (enumText (scanGo sampleFile "test/test.go" NewParser) key)
        ("## " +:+ EnumGroup.Name enum +:+ nl +:+ nl) = true.
Proof.
  apply (ToMarkdown_enums_in_range_order (scanGo sampleFile "test/test.go" NewParser)
           ["MailStatus 邮件发送状态枚举"]).
  intros Hempty.
  apply (f_equal (λ m : gmap string EnumGroup.t, size m)) in Hempty.
  vm_compute in Hempty. discriminate Hempty.
Defined.

Lemma skipped_line_changes_nothing_witness :
  @splitSQLStatements asciiTables (createT +:+ nl +:+ "-- the table" +:+ nl +:+ commentT)
  = @splitSQLStatements asciiTables (createT +:+ nl +:+ commentT).
Proof.
  apply (@skipped_line_changes_nothing asciiTables createT "-- the table" commentT).
  - reflexivity.
  - reflexivity.
Defined.

Lemma parseSQLFile_one_statement_witness :
  scanSQL createT NewParser
  = @parseStatement asciiTables sampleDecoders NewParser createT.
Proof.
  apply (@parseSQLFile_one_statement asciiTables sampleDecoders createT NewParser).
  - repeat split; reflexivity.
  - reflexivity.
Defined.

Lemma statement_in_block_comment_is_read_witness :
  scanSQL ("/*" +:+ nl +:+ createT +:+ nl +:+ "*/") NewParser
  = @parseStatement asciiTables sampleDecoders NewParser createT.
Proof.
  apply (@statement_in_block_comment_is_read asciiTables sampleDecoders createT NewParser).
  repeat split; reflexivity.
Defined.

Lemma parseSQLFile_first_statement_witness :
  scanSQL (createT +:+ nl +:+ commentT) NewParser
  = scanSQL commentT (@parseStatement asciiTables sampleDecoders NewParser createT).
Proof.
  apply (@parseSQLFile_first_statement asciiTables sampleDecoders createT commentT NewParser).
  - repeat split; reflexivity.
  - reflexivity.
  - reflexivity.
Defined.
